(** * Limitless starred lifelogs -> Notion: the polling service of [src/index.js]

    A shallow embedding of the service.  JavaScript values are typed the way
    the two APIs and the two state files give them:

    - a field that may be missing is an [option]; [None] is JavaScript's
      [undefined] (a [null] read from JSON behaves the same under [||] and
      [&&], the only operators the code applies to such fields);
    - a lifelog, a schema entry, the state object and the cache object are
      records; timestamps, titles and bodies are strings of ASCII
      characters, and two strings are compared the way JavaScript's [>]
      compares them, position by position; the code never reads a
      timestamp as a date, so "greater", "below" and "maximum" of
      timestamps mean this order of strings, which need not be the
      order in time between timestamps of different formats;
    - every [await]ed call to the outside (disk, HTTP, the chat model, the
      clock) takes its answer from an explicit argument or from the [world],
      and leaves an [event] in the world's trace;
    - [throw]/[try]/[catch] are the [Throw] result and [try_catch] of a small
      state-and-error monad [M];
    - the cycles of one process run one after the other. *)

From Stdlib Require Import ZArith Lia Bool OrderedTypeEx Sorted Ascii.
From stdpp Require Import gmap strings list.

(** ** JavaScript values *)

(** An [Error] object: [error.code] (set by [fs], unset on [new Error(..)],
    [SyntaxError] and [TypeError]) and [error.message]. *)
Record js_error := { code : option string; message : string }.

Definition Error (msg : string) : js_error := {| code := None; message := msg |}.
Definition SyntaxError : js_error := Error "Unexpected token in JSON".
Definition fs_error (c : string) : js_error := {| code := Some c; message := c |}.

(** [error.code === c] *)
Definition code_is (e : js_error) (c : string) : bool :=
  match code e with
  | Some c' => String.eqb c' c
  | None => false
  end.

(** Truthiness of a string field: [undefined] and [''] are falsy. *)
Definition truthy (v : option string) : bool :=
  match v with
  | Some s => negb (String.eqb s "")
  | None => false
  end.

(** [a || b] on two fields. *)
Definition js_or (a b : option string) : option string :=
  if truthy a then a else b.

(** [a || 'literal'] *)
Definition js_or_default (a : option string) (d : string) : string :=
  match a with
  | Some s => if String.eqb s "" then d else s
  | None => d
  end.

(** [a > b] on two strings. *)
Definition js_gt (a b : string) : bool :=
  match String.compare a b with
  | Gt => true
  | _ => false
  end.

(** A text handed to [JSON.parse], given by what it parses to. *)
Inductive json_text (A : Type) :=
| Malformed
| Json (v : A).
Arguments Malformed {A}.
Arguments Json {A} v.

(** A file on disk as [fs.readFile] sees it: the read is rejected with an
    error code (["ENOENT"] when the file does not exist), or yields a text. *)
Inductive file (A : Type) :=
| NoAccess (c : string)
| Stored (t : json_text A).
Arguments NoAccess {A} c.
Arguments Stored {A} t.

(** What [await fetch(..)] brings: the promise is rejected, or a response
    with [response.ok], the status line (["404 Not Found"]), the body as
    [response.text()] gives it to the error path, and the body as
    [response.json()] parses it. *)
Inductive http (B : Type) :=
| NetworkFailure (e : js_error)
| Reply (ok : bool) (status : string) (errorText : string) (body : json_text B).
Arguments NetworkFailure {B} e.
Arguments Reply {B} ok status errorText body.

(** A parsed JSON document whose arrays hold elements of type [A]; the
    response normalisation never looks inside an array. Numbers are kept as
    integers: only their being zero or not is ever tested. *)
#[warnings="-register-all"]
Inductive json (A : Type) :=
| JNull
| JBool (b : bool)
| JNum (n : Z)
| JStr (s : string)
| JArr (items : list A)
| JObj (fields : list (string * json A)).
Arguments JNull {A}.
Arguments JBool {A} b.
Arguments JNum {A} n.
Arguments JStr {A} s.
Arguments JArr {A} items.
Arguments JObj {A} fields.

(** ** Data model *)

(** One entry of [lifelog.contents]. *)
Record content_node := { content : option string }.

(** A lifelog as the Limitless API returns it. *)
Record lifelog := {
  id : option string;
  title : option string;
  contents : option (list content_node);
  markdown : option string;
  text : option string;
  updatedAt : option string;
  endTime : option string;
  startTime : option string
}.

(** One property descriptor of the Notion database. *)
Record property := { type : string; options : list string }.

(** [database.properties]: property name to descriptor, in [Object.keys]
    order, names unique. *)
Definition Schema := list (string * property).

(** [databaseSchema[key]] *)
Fixpoint schema_get (s : Schema) (key : string) : option property :=
  match s with
  | [] => None
  | (k, p) :: rest => if String.eqb k key then Some p else schema_get rest key
  end.

(** A Notion property value. *)
Inductive prop_value :=
| title_value (c : string)       (* {title: [{text: {content: c}}]} *)
| rich_text_value (c : string)   (* {rich_text: [{text: {content: c}}]} *)
| other_value (raw : string).    (* anything else the mapper returned *)

(** The body of [POST /v1/pages]; [parent.database_id] is a constant of the
    process and [children] holds the paragraph blocks' contents. *)
Record pageData := {
  properties : gmap string prop_value;
  children : list string
}.

(** [.last-seen-state.json] *)
Record state_obj := { lastSeenTime : option string }.

(** [.notion-schema-cache.json]; a timestamp that is missing makes the age
    [NaN]. *)
Record cache_obj := { schema : Schema; timestamp : option Z }.

(** The body of [GET /v1/databases/{id}]. *)
Record database := { db_properties : option Schema }.

(** ** Effects *)

Inductive path := STATE_FILE | SCHEMA_CACHE_FILE.

Inductive level := log | warn | error.

(** The console lines of the service, by their fixed text. *)
Inductive line :=
| ResponseStructure                      (* 'Limitless API response structure:' *)
| UnexpectedStructure                    (* 'Unexpected API response structure. Response keys:' *)
| DataDataKeys                           (* 'data.data keys:' *)
| FullResponse                           (* 'Full response (first 1000 chars):' *)
| UnexpectedType                         (* 'Unexpected API response type:' *)
| ErrorFetchingLifelogs (m : string)     (* 'Error fetching lifelogs:' *)
| UsingCachedSchema                      (* 'Using cached Notion database schema' *)
| FetchedAndCachedSchema                 (* 'Fetched and cached Notion database schema' *)
| ErrorFetchingSchema (m : string)       (* 'Error fetching Notion database schema:' *)
| ErrorGeneratingMapping (m : string)    (* 'Error generating AI property mapping:' *)
| AiGenerated                            (* 'AI generated property mappings' *)
| AiFailedFallback (m : string)          (* 'AI mapping failed, using fallback:' *)
| ErrorCreatingPage (m : string)         (* 'Error creating Notion page:' *)
| PollingSince (since : string)          (* 'Polling for starred lifelogs since ..' *)
| NoNewLifelogs                          (* 'No new starred lifelogs found' *)
| Found (n : nat)                        (* 'Found n new starred lifelog(s)' *)
| Processing (ttl time : string)         (* 'Processing lifelog: ".." (time: ..)' *)
| Created (ttl : string)                 (* 'Created Notion page for: ..' *)
| FailedToCreate (i : string) (m : string) (* 'Failed to create Notion page for lifelog ..:' *)
| UpdatedLastSeen (ts : string)          (* 'Updated last seen time to: ..' *)
| NoneProcessed (n : nat)                (* 'Warning: Found n lifelog(s) but none were processed..' *)
| ErrorProcessing (m : string)           (* 'Error processing lifelogs:' *)
| Starting                               (* 'Starting Limitless -> Notion sync service..' *)
| PollInterval                           (* 'Poll interval: .. seconds' *)
| DatabaseId                             (* 'Notion Database ID: ..' *)
| FetchingSchema                         (* 'Fetching Notion database schema...' *)
| SchemaLoaded (n : nat)                 (* 'Database schema loaded with n properties' *)
| FailedSchema (m : string)              (* 'Failed to fetch database schema:' *)
| CannotContinue                         (* 'Service cannot continue without schema. Exiting...' *)
| Fatal (m : string).                    (* 'Fatal error:' *)

Inductive event :=
| ReadFile (p : path)                    (* fs.readFile(p, 'utf-8') *)
| WriteState (st : state_obj)            (* fs.writeFile(STATE_FILE, JSON.stringify(st)) *)
| WriteCache (c : cache_obj)             (* fs.writeFile(SCHEMA_CACHE_FILE, JSON.stringify(c)) *)
| GetLifelogs (start : string)           (* GET /v1/lifelogs?isStarred=true&start=..&direction=asc&limit=10 *)
| GetDatabase                            (* GET /v1/databases/{id} *)
| Completion (l : lifelog) (s : Schema)  (* openai.chat.completions.create(..) *)
| PostPage (l : lifelog) (p : pageData)  (* POST /v1/pages for this lifelog *)
| Console (lvl : level) (ln : line).

(** The two files, whether the disk accepts a write to each ([None]) or
    rejects it, the two process-wide flags on [global], and the effects so
    far, oldest first.  A rejected write leaves the file as it was. *)
Record world := {
  state_file : file state_obj;
  state_write : option js_error;
  cache_file : file cache_obj;
  cache_write : option js_error;
  _limitlessApiResponseLogged : bool;
  _limitlessApiWarningShown : bool;
  trace : list event
}.

Definition add_event (e : event) (w : world) : world :=
  {| state_file := state_file w; state_write := state_write w;
     cache_file := cache_file w; cache_write := cache_write w;
     _limitlessApiResponseLogged := _limitlessApiResponseLogged w;
     _limitlessApiWarningShown := _limitlessApiWarningShown w;
     trace := trace w ++ [e] |}.

Definition set_state_file (f : file state_obj) (w : world) : world :=
  {| state_file := f; state_write := state_write w;
     cache_file := cache_file w; cache_write := cache_write w;
     _limitlessApiResponseLogged := _limitlessApiResponseLogged w;
     _limitlessApiWarningShown := _limitlessApiWarningShown w;
     trace := trace w |}.

Definition set_cache_file (f : file cache_obj) (w : world) : world :=
  {| state_file := state_file w; state_write := state_write w;
     cache_file := f; cache_write := cache_write w;
     _limitlessApiResponseLogged := _limitlessApiResponseLogged w;
     _limitlessApiWarningShown := _limitlessApiWarningShown w;
     trace := trace w |}.

Definition set_response_logged (b : bool) (w : world) : world :=
  {| state_file := state_file w; state_write := state_write w;
     cache_file := cache_file w; cache_write := cache_write w;
     _limitlessApiResponseLogged := b;
     _limitlessApiWarningShown := _limitlessApiWarningShown w;
     trace := trace w |}.

Definition set_warning_shown (b : bool) (w : world) : world :=
  {| state_file := state_file w; state_write := state_write w;
     cache_file := cache_file w; cache_write := cache_write w;
     _limitlessApiResponseLogged := _limitlessApiResponseLogged w;
     _limitlessApiWarningShown := b;
     trace := trace w |}.

(** ** The monad of an [async] function body *)

Inductive result (A : Type) :=
| Ok (a : A)
| Throw (e : js_error).
Arguments Ok {A} a.
Arguments Throw {A} e.

Definition M (A : Type) : Type := world -> result A * world.

Definition ret {A} (a : A) : M A := fun w => (Ok a, w).

Definition throw {A} (e : js_error) : M A := fun w => (Throw e, w).

Definition bind {A B} (m : M A) (k : A -> M B) : M B :=
  fun w =>
    match m w with
    | (Ok a, w') => k a w'
    | (Throw e, w') => (Throw e, w')
    end.

(** [try { m } catch (error) { h error }] *)
Definition try_catch {A} (m : M A) (h : js_error -> M A) : M A :=
  fun w =>
    match m w with
    | (Ok a, w') => (Ok a, w')
    | (Throw e, w') => h e w'
    end.

Declare Scope js_scope.
Delimit Scope js_scope with js.
Notation "x <- m ;; k" := (bind m (fun x => k))
  (at level 100, m at next level, k at level 200, right associativity) : js_scope.
Notation "m ;; k" := (bind m (fun _ => k))
  (at level 100, k at level 200, right associativity) : js_scope.
Open Scope js_scope.

Definition emit (e : event) : M unit := fun w => (Ok tt, add_event e w).

Definition console (lvl : level) (ln : line) : M unit := emit (Console lvl ln).

Definition get_world : M world := fun w => (Ok w, w).

Definition update (f : world -> world) : M unit := fun w => (Ok tt, f w).

(** [JSON.parse(t)] *)
Definition JSON_parse {A} (t : json_text A) : M A :=
  match t with
  | Malformed => throw SyntaxError
  | Json v => ret v
  end.

(** [fs.readFile(STATE_FILE, 'utf-8')] *)
Definition readFile_state : M (json_text state_obj) :=
  emit (ReadFile STATE_FILE) ;;
  w <- get_world ;;
  match state_file w with
  | NoAccess c => throw (fs_error c)
  | Stored t => ret t
  end.

(** [fs.writeFile(STATE_FILE, JSON.stringify(st, null, 2), 'utf-8')] *)
Definition writeFile_state (st : state_obj) : M unit :=
  emit (WriteState st) ;;
  w <- get_world ;;
  match state_write w with
  | Some e => throw e
  | None => update (set_state_file (Stored (Json st)))
  end.

(** [fs.readFile(SCHEMA_CACHE_FILE, 'utf-8')] *)
Definition readFile_cache : M (json_text cache_obj) :=
  emit (ReadFile SCHEMA_CACHE_FILE) ;;
  w <- get_world ;;
  match cache_file w with
  | NoAccess c => throw (fs_error c)
  | Stored t => ret t
  end.

(** [fs.writeFile(SCHEMA_CACHE_FILE, JSON.stringify(c, null, 2), 'utf-8')] *)
Definition writeFile_cache (c : cache_obj) : M unit :=
  emit (WriteCache c) ;;
  w <- get_world ;;
  match cache_write w with
  | Some e => throw e
  | None => update (set_cache_file (Stored (Json c)))
  end.

(** The three HTTP calls share one shape: [await fetch(..)], then
    [if (!response.ok) throw new Error(`<api> API error: ..`)], then
    [await response.json()]. *)
Definition fetch_json {B} (request : event) (api : string) (r : http B) : M B :=
  emit request ;;
  match r with
  | NetworkFailure e => throw e
  | Reply ok status errorText body =>
      if ok then JSON_parse body
      else throw (Error (api +:+ " API error: " +:+ status +:+ " - " +:+ errorText))
  end.

(** ** Watermark store *)

(** [saveLastSeenTime(timestamp)] *)
Definition saveLastSeenTime (timestamp : string) : M unit :=
  let state := {| lastSeenTime := Some timestamp |} in
  writeFile_state state.

(** [loadLastSeenTime()]; [now] is what [new Date().toISOString()] reads. *)
Definition loadLastSeenTime (now : string) : M string :=
  try_catch
    (data <- readFile_state ;;
     state <- JSON_parse data ;;
     ret (js_or_default (lastSeenTime state) now))
    (fun err =>
       if code_is err "ENOENT" then
         saveLastSeenTime now ;;
         ret now
       else throw err).

(** ** Source fetch and response normalisation *)

Section Normalise.

(** The element type of the arrays: the code hands the elements on
    without looking at them. *)
Context {A : Type}.

(** [v.key] on a value that is not [null]; [None] is [undefined]. *)
Definition prop (v : json A) (key : string) : option (json A) :=
  match v with
  | JObj fields => snd <$> find (fun kv => String.eqb (fst kv) key) fields
  | _ => None
  end.

(** [o.key] where [o] was itself read from a property and found truthy. *)
Definition prop_of (o : option (json A)) (key : string) : option (json A) :=
  match o with
  | Some v => prop v key
  | None => None
  end.

(** Truthiness of a value read from a property. *)
Definition json_truthy (o : option (json A)) : bool :=
  match o with
  | None | Some JNull => false
  | Some (JBool b) => b
  | Some (JNum n) => negb (n =? 0)%Z
  | Some (JStr s) => negb (String.eqb s "")
  | Some (JArr _) | Some (JObj _) => true
  end.

(** [Array.isArray(o)], with the array when it is one. *)
Definition isArray (o : option (json A)) : option (list A) :=
  match o with
  | Some (JArr items) => Some items
  | _ => None
  end.

(** [o && Array.isArray(o)] *)
Definition array_at (o : option (json A)) : option (list A) :=
  if json_truthy o then isArray o else None.

(** The chain of [else if]s over the keys of an object response: the
    array it selects, if any. *)
Definition select_array (data : json A) : option (list A) :=
  match (if json_truthy (prop data "data")
         then array_at (prop_of (prop data "data") "lifelogs") else None) with
  | Some lifelogs => Some lifelogs
  | None =>
    match array_at (prop data "lifelogs") with
    | Some lifelogs => Some lifelogs
    | None =>
      match array_at (prop data "data") with
      | Some lifelogs => Some lifelogs
      | None =>
        match array_at (prop data "results") with
        | Some lifelogs => Some lifelogs
        | None => array_at (prop data "items")
        end
      end
    end
  end.

(** [fetchStarredLifelogs(startTime)], given the response of the GET. *)
Definition fetchStarredLifelogs (response : http (json A)) (startTime : string)
  : M (list A) :=
  try_catch
    (data <- fetch_json (GetLifelogs startTime) "Limitless" response ;;
     w <- get_world ;;
     (if negb (_limitlessApiResponseLogged w) then
        console log ResponseStructure ;;
        update (set_response_logged true)
      else ret tt) ;;
     match data with
     | JArr items => ret items
     | JObj _ =>
         match select_array data with
         | Some lifelogs => ret lifelogs
         | None =>
             w <- get_world ;;
             (if negb (_limitlessApiWarningShown w) then
                console warn UnexpectedStructure ;;
                (if json_truthy (prop data "data") then console warn DataDataKeys
                 else ret tt) ;;
                console warn FullResponse ;;
                update (set_warning_shown true)
              else ret tt) ;;
             ret []
         end
     | _ =>
         console warn UnexpectedType ;;
         ret []
     end)
    (fun err =>
       console error (ErrorFetchingLifelogs (message err)) ;;
       throw err).

End Normalise.

(** ** Schema cache *)

(** What one call of the getter reads from outside: [Date.now()] at the
    freshness test, [Date.now()] when the cache is written, and the
    response of the database GET. *)
Record schema_env := {
  check_clock : Z;
  store_clock : Z;
  database_response : http database
}.

(** [Date.now() - cacheData.timestamp < 3600000] *)
Definition fresh (now : Z) (cacheData : cache_obj) : bool :=
  match timestamp cacheData with
  | Some t => (now - t <? 3600000)%Z
  | None => false
  end.

(** [fetchNotionDatabaseSchema()]; the inner [try] yields [Some schema]
    where the source returns from inside it. *)
Definition fetchNotionDatabaseSchema (env : schema_env) : M Schema :=
  try_catch
    (hit <- try_catch
              (cached <- readFile_cache ;;
               cacheData <- JSON_parse cached ;;
               if fresh (check_clock env) cacheData then
                 console log UsingCachedSchema ;;
                 ret (Some (schema cacheData))
               else ret None)
              (fun _ => ret None) ;;
     match hit with
     | Some cached_schema => ret cached_schema
     | None =>
         database <- fetch_json GetDatabase "Notion" (database_response env) ;;
         let schema := match db_properties database with
                       | Some p => p
                       | None => []
                       end in
         writeFile_cache {| schema := schema; timestamp := Some (store_clock env) |} ;;
         console log FetchedAndCachedSchema ;;
         ret schema
     end)
    (fun err =>
       console error (ErrorFetchingSchema (message err)) ;;
       throw err).

(** ** Field mapper and destination writer *)

(** What the chat completion brings: the call is rejected, or a message
    content handed to [JSON.parse]. *)
Inductive completion :=
| Failed (e : js_error)
| Content (t : json_text (gmap string prop_value)).

(** What the handling of one lifelog reads from outside: whether the
    OpenAI client exists, the completion, and the response of the POST. *)
Record page_env := {
  openai : bool;
  mapper : completion;
  post : http unit
}.

(** [generatePropertyMapping(lifelog, databaseSchema)] *)
Definition generatePropertyMapping (env : page_env) (l : lifelog) (databaseSchema : Schema)
  : M (gmap string prop_value) :=
  if negb (openai env) then throw (Error "OpenAI client not initialized")
  else
    try_catch
      (emit (Completion l databaseSchema) ;;
       match mapper env with
       | Failed e => throw e
       | Content responseText => JSON_parse responseText
       end)
      (fun err =>
         console error (ErrorGeneratingMapping (message err)) ;;
         throw err).

(** [Object.keys(databaseSchema).find(key => databaseSchema[key].type === 'rich_text')] *)
Definition find_rich_text (databaseSchema : Schema) : option string :=
  find (fun key =>
          match schema_get databaseSchema key with
          | Some p => String.eqb (type p) "rich_text"
          | None => false
          end)
       (map fst databaseSchema).

(** The basic mapping built in the [catch] of [createNotionPage]. *)
Definition fallback (l : lifelog) (databaseSchema : Schema) : gmap string prop_value :=
  let properties : gmap string prop_value :=
    {[ "Title" := title_value (js_or_default (title l) "Untitled") ]} in
  if truthy (markdown l) || truthy (text l) then
    match find_rich_text databaseSchema with
    | Some contentProp =>
        if negb (String.eqb contentProp "") then
          <[ contentProp :=
               rich_text_value (js_or_default (js_or (markdown l) (text l)) "") ]>
            properties
        else properties
    | None => properties
    end
  else properties.

(** [createNotionPage(lifelog, databaseSchema)] *)
Definition createNotionPage (env : page_env) (l : lifelog) (databaseSchema : Schema)
  : M unit :=
  properties <- try_catch
                  (p <- generatePropertyMapping env l databaseSchema ;;
                   console log AiGenerated ;;
                   ret p)
                  (fun err =>
                     console error (AiFailedFallback (message err)) ;;
                     ret (fallback l databaseSchema)) ;;
  let pageData :=
    {| properties := properties;
       children := match markdown l with
                   | Some md => if String.eqb md "" then [] else [md]
                   | None => []
                   end |} in
  try_catch
    (fetch_json (PostPage l pageData) "Notion" (post env) ;;
     ret tt)
    (fun err =>
       console error (ErrorCreatingPage (message err)) ;;
       throw err).

(** ** Sync engine: one polling cycle *)

(** What one cycle reads from outside: the clock, the response of the
    lifelogs GET, and, for the lifelog at each position of the batch, what
    its handling reads. *)
Record cycle_env := {
  now : string;
  lifelogs_response : http (json lifelog);
  pages : nat -> page_env
}.

(** [lifelog.contents?.[0]?.content] *)
Definition first_content (l : lifelog) : option string :=
  match contents l with
  | Some (node :: _) => content node
  | _ => None
  end.

(** [lifelog.updatedAt || lifelog.endTime || lifelog.startTime] *)
Definition lifelogTimestamp (l : lifelog) : option string :=
  js_or (js_or (updatedAt l) (endTime l)) (startTime l).

(** The body of the [for] loop over the batch; the two locals
    [maxTimestamp] and [processedCount] are passed in and out. *)
Definition process_lifelog (env : page_env) (databaseSchema : Schema) (l : lifelog)
    (locals : string * nat) : M (string * nat) :=
  let '(maxTimestamp, processedCount) := locals in
  try_catch
    (let lifelogTitle := js_or_default (js_or (title l) (first_content l)) "Untitled" in
     let lifelogTime := js_or_default (lifelogTimestamp l) "unknown" in
     console log (Processing lifelogTitle lifelogTime) ;;
     createNotionPage env l databaseSchema ;;
     console log (Created lifelogTitle) ;;
     let processedCount := S processedCount in
     match lifelogTimestamp l with
     | Some ts =>
         if truthy (Some ts) && js_gt ts maxTimestamp then ret (ts, processedCount)
         else ret (maxTimestamp, processedCount)
     | None => ret (maxTimestamp, processedCount)
     end)
    (fun err =>
       console error (FailedToCreate (js_or_default (id l) "unknown") (message err)) ;;
       ret (maxTimestamp, processedCount)).

(** [for (const lifelog of lifelogs) { .. }], from position [i] on. *)
Fixpoint for_of (envs : nat -> page_env) (databaseSchema : Schema) (i : nat)
    (lifelogs : list lifelog) (locals : string * nat) : M (string * nat) :=
  match lifelogs with
  | [] => ret locals
  | l :: rest =>
      locals' <- process_lifelog (envs i) databaseSchema l locals ;;
      for_of envs databaseSchema (S i) rest locals'
  end.

(** [processNewLifelogs(databaseSchema)].  [fetchStarredLifelogs] returns an
    array on every path, so the [!Array.isArray(lifelogs)] exit is never
    taken and has no counterpart here. *)
Definition processNewLifelogs (env : cycle_env) (databaseSchema : Schema) : M unit :=
  try_catch
    (lastSeenTime <- loadLastSeenTime (now env) ;;
     console log (PollingSince lastSeenTime) ;;
     fetched <- try_catch
                  (lifelogs <- fetchStarredLifelogs (lifelogs_response env) lastSeenTime ;;
                   ret (Some lifelogs))
                  (fun err =>
                     console error (ErrorFetchingLifelogs (message err)) ;;
                     ret None) ;;
     match fetched with
     | None => ret tt
     | Some lifelogs =>
         if (length lifelogs =? 0)%nat then console log NoNewLifelogs
         else
           console log (Found (length lifelogs)) ;;
           locals <- for_of (pages env) databaseSchema 0 lifelogs (lastSeenTime, 0%nat) ;;
           let '(maxTimestamp, processedCount) := locals in
           if (0 <? processedCount)%nat then
             saveLastSeenTime maxTimestamp ;;
             console log (UpdatedLastSeen maxTimestamp)
           else if (0 <? length lifelogs)%nat then
             console warn (NoneProcessed (length lifelogs))
           else ret tt
     end)
    (fun err => console error (ErrorProcessing (message err))).

(** ** Scheduler *)

(** The process after [startPolling] and some timer ticks. *)
Inductive process :=
| Running
| Exited (status : Z).

(** The cycles the timer starts, one after the other, each with the schema
    object captured by the callback. *)
Fixpoint ticks (databaseSchema : Schema) (envs : list cycle_env) : M unit :=
  match envs with
  | [] => ret tt
  | env :: rest =>
      processNewLifelogs env databaseSchema ;;
      ticks databaseSchema rest
  end.

(** [startPolling()] followed by the timer ticks in [later], which stand
    for any finite part of the run; cycles run one after the other.
    [process.exit(1)] ends the run; an error that escaped would reach the
    [catch] at the call site, which exits with status 1 as well. *)
Definition startPolling (senv : schema_env) (first : cycle_env) (later : list cycle_env)
  : world -> process * world :=
  fun w =>
    match (console log Starting ;;
           console log PollInterval ;;
           console log DatabaseId ;;
           console log FetchingSchema ;;
           fetchNotionDatabaseSchema senv) w with
    | (Throw e, w1) =>
        (Exited 1,
         add_event (Console error CannotContinue)
           (add_event (Console error (FailedSchema (message e))) w1))
    | (Ok databaseSchema, w1) =>
        match (console log (SchemaLoaded (length databaseSchema)) ;;
               processNewLifelogs first databaseSchema ;;
               ticks databaseSchema later) w1 with
        | (Ok _, w2) => (Running, w2)
        | (Throw e, w2) => (Exited 1, add_event (Console error (Fatal (message e))) w2)
        end
    end.

(** * Vocabulary of the properties *)

(** ** Worlds *)

(** The world with more effects in its trace. *)
Definition add_events (evs : list event) (w : world) : world :=
  {| state_file := state_file w; state_write := state_write w;
     cache_file := cache_file w; cache_write := cache_write w;
     _limitlessApiResponseLogged := _limitlessApiResponseLogged w;
     _limitlessApiWarningShown := _limitlessApiWarningShown w;
     trace := trace w ++ evs |}.

(** A process that has just started: no state file, no cache file, a disk
    that takes writes, nothing logged yet. *)
Definition clean_start : world :=
  {| state_file := NoAccess "ENOENT"; state_write := None;
     cache_file := NoAccess "ENOENT"; cache_write := None;
     _limitlessApiResponseLogged := false;
     _limitlessApiWarningShown := false;
     trace := [] |}.

(** The world once [startPolling] has announced itself. *)
Definition announced (w : world) : world :=
  add_events [Console log Starting; Console log PollInterval; Console log DatabaseId;
              Console log FetchingSchema] w.

(** The watermark a load would find in the state file. *)
Definition persisted (w : world) : option string :=
  match state_file w with
  | Stored (Json st) => if truthy (lastSeenTime st) then lastSeenTime st else None
  | _ => None
  end.

(** ** Timestamps *)

(** [a <= b] on timestamps: [a > b] is false. *)
Definition ts_le (a b : string) : Prop := js_gt a b = false.

(** [m] is the greatest element of [xs]. *)
Definition is_max (m : string) (xs : list string) : Prop :=
  In m xs /\ forall x, In x xs -> ts_le x m.

(** The effective timestamp of a record: [updatedAt], else [endTime], else
    [startTime], where it is one the loop accepts. *)
Definition effective (l : lifelog) : option string :=
  if truthy (lifelogTimestamp l) then lifelogTimestamp l else None.

(** [maxTimestamp] after a record has been written. *)
Definition advance (maxTimestamp : string) (l : lifelog) : string :=
  match effective l with
  | Some ts => if js_gt ts maxTimestamp then ts else maxTimestamp
  | None => maxTimestamp
  end.

(** [maxTimestamp] after a loop, if it ends normally. *)
Definition maxTimestamp_of (run : result (string * nat) * world) : option string :=
  match fst run with
  | Ok (maxTimestamp, _) => Some maxTimestamp
  | Throw _ => None
  end.

(** ** Effects in a trace *)

(** The lifelogs posted to the destination, in order. *)
Definition posted (evs : list event) : list lifelog :=
  omap (fun e => match e with PostPage l _ => Some l | _ => None end) evs.

(** The bodies posted to the destination, in order. *)
Definition pages_posted (evs : list event) : list pageData :=
  omap (fun e => match e with PostPage _ p => Some p | _ => None end) evs.

(** The watermarks handed to [fs.writeFile], in order. *)
Definition state_writes (evs : list event) : list state_obj :=
  omap (fun e => match e with WriteState st => Some st | _ => None end) evs.

(** The diagnostic warnings among some effects. *)
Definition diagnostics (evs : list event) : list line :=
  omap (fun e => match e with Console warn ln => Some ln | _ => None end) evs.

(** How often the schema getter has run: each run opens with one read of
    the cache file, and nothing else reads it. *)
Definition getter_runs (evs : list event) : nat :=
  length (List.filter (fun e => match e with
                                | ReadFile SCHEMA_CACHE_FILE => true
                                | _ => false
                                end) evs).

(** The effects a cycle run with schema [s] can have: nothing that reads
    or writes the schema cache or requests the database, and no mapping
    request with another schema. *)
Definition cycle_event (s : Schema) (e : event) : Prop :=
  match e with
  | ReadFile SCHEMA_CACHE_FILE | WriteCache _ | GetDatabase => False
  | Completion _ s' => s' = s
  | _ => True
  end.

(** ** Relations between worlds *)

(** Running [m] takes any world to an [R]-related one, whether it returns
    or throws. *)
Definition respects (R : world -> world -> Prop) {A} (m : M A) : Prop :=
  forall w, R w (snd (m w)).

(** The new effects of a step all satisfy [P]. *)
Definition emits (P : event -> Prop) (w w' : world) : Prop :=
  exists evs, trace w' = trace w ++ evs /\ Forall P evs.

(** A step that neither touches the state file nor posts a page. *)
Definition quiet (w w' : world) : Prop :=
  state_file w' = state_file w /\
  state_write w' = state_write w /\
  state_writes (trace w') = state_writes (trace w) /\
  posted (trace w') = posted (trace w).

(** ** Outcomes of pages and of the loop *)

(** Whether the destination accepts the page: the POST is answered with a
    success status and a body that parses. *)
Definition accepted (env : page_env) : bool :=
  match post env with
  | Reply true _ _ (Json _) => true
  | _ => false
  end.

(** The error a rejected page creation throws. *)
Definition page_error (env : page_env) : js_error :=
  match post env with
  | NetworkFailure e => e
  | Reply false status errorText _ =>
      Error ("Notion" +:+ " API error: " +:+ status +:+ " - " +:+ errorText)
  | Reply true _ _ _ => SyntaxError
  end.

(** The records of a batch, read from position [i] on, that are written
    successfully. *)
Fixpoint succeeded (envs : nat -> page_env) (i : nat) (lifelogs : list lifelog)
  : list lifelog :=
  match lifelogs with
  | [] => []
  | l :: rest =>
      (if accepted (envs i) then [l] else []) ++ succeeded envs (S i) rest
  end.

(** The batch environment once the record at position [i] is taken out. *)
Definition without (i : nat) (envs : nat -> page_env) : nat -> page_env :=
  fun j => if (j <? i)%nat then envs j else envs (S j).

(** The effects of creating one page. *)
Definition page_events (env : page_env) (s : Schema) (l : lifelog) : list event :=
  trace (snd (createNotionPage env l s clean_start)).

(** The effects of handling one record. *)
Definition lifelog_events (env : page_env) (s : Schema) (l : lifelog) : list event :=
  let lifelogTitle := js_or_default (js_or (title l) (first_content l)) "Untitled" in
  [Console log (Processing lifelogTitle (js_or_default (lifelogTimestamp l) "unknown"))]
  ++ page_events env s l
  ++ [if accepted env then Console log (Created lifelogTitle)
      else Console error (FailedToCreate (js_or_default (id l) "unknown")
                            (message (page_error env)))].

(** The effects of the loop from position [i] on. *)
Fixpoint loop_events (envs : nat -> page_env) (s : Schema) (i : nat)
    (lifelogs : list lifelog) : list event :=
  match lifelogs with
  | [] => []
  | l :: rest => lifelog_events (envs i) s l ++ loop_events envs s (S i) rest
  end.

(** ** Responses *)

(** The first array among some candidates. *)
Fixpoint first_array {A} (candidates : list (option (list A))) : option (list A) :=
  match candidates with
  | [] => None
  | Some l :: _ => Some l
  | None :: rest => first_array rest
  end.

(** The arrays an object response may carry, in the order they are tried. *)
Definition candidates {A} (data : json A) : list (option (list A)) :=
  [isArray (prop_of (prop data "data") "lifelogs");
   isArray (prop data "lifelogs");
   isArray (prop data "data");
   isArray (prop data "results");
   isArray (prop data "items")].

(** What the normalisation makes of a response body. *)
Definition normal_form {A} (data : json A) : list A :=
  match data with
  | JArr items => items
  | JObj _ => default [] (first_array (candidates data))
  | _ => []
  end.

(** A response body that is neither an array nor an object. *)
Definition primitive {A} (data : json A) : bool :=
  match data with
  | JArr _ | JObj _ => false
  | _ => true
  end.

(** The warnings a response body brings in a world. *)
Definition warnings_for {A} (data : json A) (w : world) : list line :=
  match data with
  | JArr _ => []
  | JObj _ =>
      match first_array (candidates data) with
      | Some _ => []
      | None =>
          if _limitlessApiWarningShown w then []
          else [UnexpectedStructure]
               ++ (if json_truthy (prop data "data") then [DataDataKeys] else [])
               ++ [FullResponse]
      end
  | _ => [UnexpectedType]
  end.

(** The first response of a process is described once on the console. *)
Definition describe_response (w : world) : world :=
  if _limitlessApiResponseLogged w then w
  else set_response_logged true (add_events [Console log ResponseStructure] w).

(** The guarded warnings about an object of unknown shape. *)
Definition warn_structure {A} (data : json A) (w : world) : world :=
  if _limitlessApiWarningShown w then w
  else set_warning_shown true
         (add_events ([Console warn UnexpectedStructure]
                      ++ (if json_truthy (prop data "data")
                          then [Console warn DataDataKeys] else [])
                      ++ [Console warn FullResponse]) w).

(** A response that has been seen once brings no further diagnostic. *)
Definition one_time_diagnostic {A} (data : json A) : Prop :=
  forall status errorText start start' w,
    let w1 := snd (fetchStarredLifelogs (Reply true status errorText (Json data)) start w) in
    let w2 := snd (fetchStarredLifelogs (Reply true status errorText (Json data)) start' w1) in
    diagnostics (trace w2) = diagnostics (trace w1).

(** The error a failed fetch throws. *)
Definition fetch_error {A} (r : http (json A)) : js_error :=
  match r with
  | NetworkFailure e => e
  | Reply false status errorText _ =>
      Error ("Limitless" +:+ " API error: " +:+ status +:+ " - " +:+ errorText)
  | Reply true _ _ _ => SyntaxError
  end.

(** The batch a response is normalised to, if the fetch succeeds. *)
Definition batch_of {A} (r : http (json A)) : option (list A) :=
  match r with
  | Reply true _ _ (Json data) => Some (normal_form data)
  | _ => None
  end.

(** The world after the watermark has been loaded, the poll announced and
    the lifelogs requested. *)
Definition after_fetch (env : cycle_env) (loaded : string) (w0 : world) : world :=
  snd (fetchStarredLifelogs (lifelogs_response env) loaded
         (add_events [Console log (PollingSince loaded)] w0)).

(** The world after the loop over a batch. *)
Definition after_loop (env : cycle_env) (s : Schema) (loaded : string)
    (lifelogs : list lifelog) (w0 : world) : world :=
  add_events (Console log (Found (length lifelogs)) :: loop_events (pages env) s 0 lifelogs)
    (after_fetch env loaded w0).

(** ** Schema and fallback *)

(** The cache cannot be used at clock reading [t]. *)
Definition cache_miss (t : Z) (f : file cache_obj) : Prop :=
  match f with
  | Stored (Json c) => fresh t c = false
  | _ => True
  end.

(** The first schema property whose type is rich text, read off the
    entries. *)
Definition first_rich_text (databaseSchema : Schema) : option string :=
  fst <$> find (fun kp => String.eqb (type (snd kp)) "rich_text") databaseSchema.

(** [lifelog.markdown || lifelog.text]: the body content of a record. *)
Definition body (l : lifelog) : option string := js_or (markdown l) (text l).

(** C4 as stated: the fallback sets a property that the schema has with
    the title type. *)
Definition sets_schema_title (l : lifelog) (databaseSchema : Schema) : Prop :=
  exists key p,
    schema_get databaseSchema key = Some p /\
    type p = "title" /\
    fallback l databaseSchema !! key
      = Some (title_value (js_or_default (title l) "Untitled")).

(** ** Timestamps as instants *)

(** The code orders timestamps as strings.  The instant a timestamp
    denotes, which the code never computes, is what the claims about the
    latest timestamp and about a watermark that never moves back are
    measured against: the milliseconds since 1970-01-01T00:00:00Z of
    [YYYY-MM-DDTHH:mm:ss] followed by [Z] or by a fraction of a second and
    [Z], as [Date.parse] reads it. *)

(** The value of a decimal digit. *)
Definition digit (c : Ascii.ascii) : option Z :=
  let n := Z.of_N (Ascii.N_of_ascii c) in
  if (48 <=? n)%Z && (n <=? 57)%Z then Some (n - 48)%Z else None.

(** Reads [k] decimal digits in front of a string. *)
Fixpoint read_digits (k : nat) (acc : Z) (s : string) : option (Z * string) :=
  match k, s with
  | O, _ => Some (acc, s)
  | S k', String c rest =>
      match digit c with
      | Some d => read_digits k' (10 * acc + d)%Z rest
      | None => None
      end
  | S _, EmptyString => None
  end.

(** Reads one given character. *)
Definition read_char (c : Ascii.ascii) (s : string) : option string :=
  match s with
  | String c' rest => if Ascii.eqb c c' then Some rest else None
  | EmptyString => None
  end.

(** The milliseconds of a fraction of a second, up to the closing [Z];
    digits after the third are dropped. *)
Fixpoint read_fraction (weight acc : Z) (s : string) : option Z :=
  match s with
  | String c rest =>
      match digit c with
      | Some d => read_fraction (weight / 10)%Z (acc + d * weight)%Z rest
      | None => if Ascii.eqb c "Z"%char && String.eqb rest "" then Some acc else None
      end
  | EmptyString => None
  end.

(** The days from 1970-01-01 to a date of the Gregorian calendar. *)
Definition days_from_civil (year month day : Z) : Z :=
  let y := (if month <=? 2 then year - 1 else year)%Z in
  let era := (y / 400)%Z in
  let yoe := (y - era * 400)%Z in
  let doy := ((153 * (if month <=? 2 then month + 9 else month - 3) + 2) / 5 + day - 1)%Z in
  let doe := (yoe * 365 + yoe / 4 - yoe / 100 + doy)%Z in
  (era * 146097 + doe - 719468)%Z.

Definition instant (ts : string) : option Z :=
  '(year, s) ← read_digits 4 0 ts; s ← read_char "-"%char s;
  '(month, s) ← read_digits 2 0 s; s ← read_char "-"%char s;
  '(day, s) ← read_digits 2 0 s; s ← read_char "T"%char s;
  '(hour, s) ← read_digits 2 0 s; s ← read_char ":"%char s;
  '(minute, s) ← read_digits 2 0 s; s ← read_char ":"%char s;
  '(second, s) ← read_digits 2 0 s;
  ms ← match s with
       | String "."%char rest =>
           if String.eqb rest "Z" then None else read_fraction 100 0 rest
       | "Z" => Some 0%Z
       | _ => None
       end;
  Some ((((days_from_civil year month day * 24 + hour) * 60 + minute) * 60 + second) * 1000
        + ms)%Z.




(** * Sample inputs *)

(** A record with a title and a body, and a database whose title property
    has Notion's default name. *)
Definition record_X : lifelog :=
  {| id := Some "a"; title := Some "X"; contents := None;
     markdown := Some "hello"; text := None;
     updatedAt := Some "2025-01-01T00:00:05Z"; endTime := None; startTime := None |}.

Definition schema_Name_Notes : Schema :=
  [("Name", {| type := "title"; options := [] |});
   ("Notes", {| type := "rich_text"; options := [] |})].

(** A record with no timestamp at all, and one later than [record_X]. *)
Definition record_untimed : lifelog :=
  {| id := Some "b"; title := None; contents := None;
     markdown := None; text := Some "note";
     updatedAt := None; endTime := None; startTime := None |}.

Definition record_late : lifelog :=
  {| id := Some "c"; title := Some "Z"; contents := None;
     markdown := None; text := None;
     updatedAt := Some "2025-01-01T00:00:09Z"; endTime := None; startTime := None |}.

Definition sample_batch : list lifelog := [record_X; record_untimed; record_late].

(** The mapper is down and the destination takes the page. *)
Definition page_taken : page_env :=
  {| openai := true; mapper := Failed (Error "timeout");
     post := Reply true "200 OK" "" (Json tt) |}.

(** The mapper answers and the destination refuses the page. *)
Definition page_refused : page_env :=
  {| openai := true; mapper := Content (Json ∅);
     post := Reply false "400 Bad Request" "validation_error" Malformed |}.

(** A cycle whose batch arrives as [{data:{lifelogs:[..]}}]; the first two
    records are written, the third and latest one is refused. *)
Definition sample_cycle : cycle_env :=
  {| now := "2025-01-01T00:00:00.000Z";
     lifelogs_response :=
       Reply true "200 OK" ""
         (Json (JObj [("data", JObj [("lifelogs", JArr sample_batch)])]));
     pages := fun i => if (i <? 2)%nat then page_taken else page_refused |}.

(** The same batch with every page refused. *)
Definition refused_cycle : cycle_env :=
  {| now := "2025-01-01T00:00:00.000Z";
     lifelogs_response := Reply true "200 OK" "" (Json (JArr sample_batch));
     pages := fun _ => page_refused |}.


(** A process whose state file holds the watermark [v]. *)
Definition with_watermark (v : string) : world :=
  set_state_file (Stored (Json {| lastSeenTime := Some v |})) clean_start.

(** A process whose state file parses and has no [lastSeenTime]. *)
Definition without_watermark : world :=
  set_state_file (Stored (Json {| lastSeenTime := None |})) clean_start.

(** A process whose schema cache was written at clock reading [t]. *)
Definition with_cache (t : Z) : world :=
  set_cache_file (Stored (Json {| schema := schema_Name_Notes; timestamp := Some t |}))
    clean_start.

(** A getter call at 1,700,000,000,000 ms whose database request succeeds. *)
Definition sample_schema_env : schema_env :=
  {| check_clock := 1700000000000; store_clock := 1700000000250;
     database_response :=
       Reply true "200 OK" "" (Json {| db_properties := Some schema_Name_Notes |}) |}.

(** * Configuration and start of the process *)

(** [process.env], for the four variables the service requires. *)
Record environment := {
  LIMITLESS_API_KEY : option string;
  NOTION_API_KEY : option string;
  NOTION_DATABASE_ID : option string;
  OPENAI_API_KEY : option string
}.

(** The four checks at the top of the module, in their order: the variable
    named by
    [console.error('Error: <variable> environment variable is required')]
    before [process.exit(1)], if any. *)
Definition missing_variable (vars : environment) : option string :=
  if negb (truthy (LIMITLESS_API_KEY vars)) then Some "LIMITLESS_API_KEY"
  else if negb (truthy (NOTION_API_KEY vars)) then Some "NOTION_API_KEY"
  else if negb (truthy (NOTION_DATABASE_ID vars)) then Some "NOTION_DATABASE_ID"
  else if negb (truthy (OPENAI_API_KEY vars)) then Some "OPENAI_API_KEY"
  else None.

(** A cycle as every call of [generatePropertyMapping] sees the module
    constant [openai]. *)
Definition with_client (client : bool) (env : cycle_env) : cycle_env :=
  {| now := now env;
     lifelogs_response := lifelogs_response env;
     pages := fun i => {| openai := client;
                          mapper := mapper (pages env i);
                          post := post (pages env i) |} |}.

(** How the module ends up: stopped by a missing variable, or in
    [startPolling]. *)
Inductive started :=
| ConfigError (variable : string)
| Started (run : process * world).

(** The module from top to bottom:
    [const openai = OPENAI_API_KEY ? new OpenAI(..) : null], the four
    checks, then [startPolling()]. *)
Definition main (vars : environment) (senv : schema_env) (first : cycle_env)
    (later : list cycle_env) (w : world) : started :=
  let openai := truthy (OPENAI_API_KEY vars) in
  match missing_variable vars with
  | Some variable => ConfigError variable
  | None =>
      Started (startPolling senv (with_client openai first)
                 (map (with_client openai) later) w)
  end.

(** * Vocabulary of the further properties *)

(** The [start] parameters of the lifelog requests, in order. *)
Definition requests (evs : list event) : list string :=
  omap (fun e => match e with GetLifelogs start => Some start | _ => None end) evs.

(** The lifelogs sent to the mapper, in order. *)
Definition mapped (evs : list event) : list lifelog :=
  omap (fun e => match e with Completion l _ => Some l | _ => None end) evs.

(** The schema caches handed to [fs.writeFile], in order. *)
Definition cache_writes (evs : list event) : list cache_obj :=
  omap (fun e => match e with WriteCache c => Some c | _ => None end) evs.

(** How often a console line has been written at a level. *)
Definition lines_logged (is_line : level -> line -> bool) (evs : list event) : nat :=
  length (List.filter (fun e => match e with
                                | Console lvl ln => is_line lvl ln
                                | _ => false
                                end) evs).

(** ['Limitless API response structure:'] *)
Definition is_response_structure (lvl : level) (ln : line) : bool :=
  match lvl, ln with
  | log, ResponseStructure => true
  | _, _ => false
  end.

(** ['Unexpected API response structure. Response keys:'] *)
Definition is_unexpected_structure (lvl : level) (ln : line) : bool :=
  match lvl, ln with
  | warn, UnexpectedStructure => true
  | _, _ => false
  end.

(** A step under a latch: once the flag is set, it stays set and the line
    is not written again; while it is unset, the line is written at most
    once, and then the flag is set. *)
Definition latched (flag : world -> bool) (is_line : level -> line -> bool)
    (w w' : world) : Prop :=
  if flag w then
    flag w' = true /\ lines_logged is_line (trace w') = lines_logged is_line (trace w)
  else
    (flag w' = false /\ lines_logged is_line (trace w') = lines_logged is_line (trace w)) \/
    (flag w' = true /\
     lines_logged is_line (trace w') = S (lines_logged is_line (trace w))).

(** A step that leaves both flags and both guarded lines alone. *)
Definition unflagged (w w' : world) : Prop :=
  _limitlessApiResponseLogged w' = _limitlessApiResponseLogged w /\
  _limitlessApiWarningShown w' = _limitlessApiWarningShown w /\
  lines_logged is_response_structure (trace w')
    = lines_logged is_response_structure (trace w) /\
  lines_logged is_unexpected_structure (trace w')
    = lines_logged is_unexpected_structure (trace w).

(** Both latches at once. *)
Definition latches (w w' : world) : Prop :=
  latched _limitlessApiResponseLogged is_response_structure w w' /\
  latched _limitlessApiWarningShown is_unexpected_structure w w'.

(** The effects [startPolling] has before its first cycle: console lines
    and the reads, writes and request of the schema getter. *)
Definition startup_event (e : event) : Prop :=
  match e with
  | ReadFile SCHEMA_CACHE_FILE | WriteCache _ | GetDatabase | Console _ _ => True
  | _ => False
  end.

(** The new effects of a step send to the mapper exactly the lifelogs they
    post. *)
Definition maps_what_it_posts (w w' : world) : Prop :=
  exists evs, trace w' = trace w ++ evs /\ mapped evs = posted evs.

(** A step that requests no lifelogs, posts no page and leaves the state
    file and the trace of its writes alone. *)
Definition idle (w w' : world) : Prop :=
  quiet w w' /\ requests (trace w') = requests (trace w).

(** The children of the page posted for a lifelog: one paragraph with the
    markdown, if there is some. *)
Definition markdown_blocks (l : lifelog) : list string :=
  match markdown l with
  | Some md => if String.eqb md "" then [] else [md]
  | None => []
  end.

(** ['Error processing lifelogs:'] *)
Definition is_error_processing (lvl : level) (ln : line) : bool :=
  match lvl, ln with
  | error, ErrorProcessing _ => true
  | _, _ => false
  end.

(** A state file that every load rejects: its text does not parse, or the
    read fails with a code other than ["ENOENT"]. *)
Definition unusable_state (w : world) : Prop :=
  state_file w = Stored Malformed \/
  exists c, state_file w = NoAccess c /\ c <> "ENOENT".

(** A cycle that writes no record: its fetch fails, or brings no record,
    or every page creation of the batch is refused. *)
Definition no_record_written (env : cycle_env) : Prop :=
  match batch_of (lifelogs_response env) with
  | Some lifelogs => succeeded (pages env) 0 lifelogs = []
  | None => True
  end.

(** The properties of the page posted for a lifelog: the answer of the
    mapper when the client exists, the completion returns and its content
    parses; the basic mapping otherwise. *)
Definition mapping_of (env : page_env) (l : lifelog) (databaseSchema : Schema)
  : gmap string prop_value :=
  if openai env then
    match mapper env with
    | Content (Json p) => p
    | _ => fallback l databaseSchema
    end
  else fallback l databaseSchema.

(** The records a cycle fetches: the normalised batch, or none when the
    fetch fails. *)
Definition fetched (env : cycle_env) : list lifelog :=
  match batch_of (lifelogs_response env) with
  | Some lifelogs => lifelogs
  | None => []
  end.

(** ['Processing lifelog:'], ['Created Notion page for:'] and ['Failed to
    create Notion page for lifelog'], the lines of the loop. *)
Definition is_processing (lvl : level) (ln : line) : bool :=
  match lvl, ln with
  | log, Processing _ _ => true
  | _, _ => false
  end.

Definition is_created (lvl : level) (ln : line) : bool :=
  match lvl, ln with
  | log, Created _ => true
  | _, _ => false
  end.

Definition is_failed_to_create (lvl : level) (ln : line) : bool :=
  match lvl, ln with
  | error, FailedToCreate _ _ => true
  | _, _ => false
  end.

(** An effect that is none of the three lines of the loop. *)
Definition outside_loop (e : event) : Prop :=
  match e with
  | Console _ (Processing _ _) | Console _ (Created _) | Console _ (FailedToCreate _ _) =>
      False
  | _ => True
  end.


(** * Further sample inputs *)

(** Variables of a configured service, and the same without the OpenAI
    key. *)
Definition sample_vars : environment :=
  {| LIMITLESS_API_KEY := Some "sk-limitless"; NOTION_API_KEY := Some "ntn_key";
     NOTION_DATABASE_ID := Some "281a40b6"; OPENAI_API_KEY := Some "sk-openai" |}.

Definition vars_without_openai : environment :=
  {| LIMITLESS_API_KEY := Some "sk-limitless"; NOTION_API_KEY := Some "ntn_key";
     NOTION_DATABASE_ID := Some "281a40b6"; OPENAI_API_KEY := Some "" |}.

(** A cycle whose fetch brings an empty array. *)
Definition empty_cycle : cycle_env :=
  {| now := "2025-01-01T00:00:00.000Z";
     lifelogs_response := Reply true "200 OK" "" (Json (JObj [("lifelogs", JArr [])]));
     pages := fun _ => page_refused |}.

(** A cycle whose first record is refused and whose later ones are
    written. *)
Definition late_success_cycle : cycle_env :=
  {| now := "2025-01-01T00:00:00.000Z";
     lifelogs_response := Reply true "200 OK" "" (Json (JArr sample_batch));
     pages := fun i => if (i <? 1)%nat then page_refused else page_taken |}.

(** A process whose state file does not parse. *)
Definition corrupt_state : world :=
  set_state_file (Stored Malformed) clean_start.

(** A getter call at 1,700,000,000,000 ms whose database request is
    refused. *)
Definition failing_schema_env : schema_env :=
  {| check_clock := 1700000000000; store_clock := 1700000000250;
     database_response := Reply false "401 Unauthorized" "unauthorized" Malformed |}.

(** The mapper answers with a property the schema does not have. *)
Definition page_off_schema : page_env :=
  {| openai := true;
     mapper := Content (Json {[ "Mood" := other_value "{select: {name: calm}}" ]});
     post := Reply true "200 OK" "" (Json tt) |}.

(** A process with the watermark [v] in its state file and a disk that
    refuses every write. *)
Definition read_only_disk (v : string) : world :=
  {| state_file := Stored (Json {| lastSeenTime := Some v |});
     state_write := Some (fs_error "EROFS");
     cache_file := NoAccess "ENOENT"; cache_write := Some (fs_error "EROFS");
     _limitlessApiResponseLogged := false;
     _limitlessApiWarningShown := false;
     trace := [] |}.

(** A process whose schema cache has no timestamp. *)
Definition cache_without_timestamp : world :=
  set_cache_file (Stored (Json {| schema := schema_Name_Notes; timestamp := None |}))
    clean_start.

(** A getter call answered by a database without [properties]. *)
Definition bare_database_env : schema_env :=
  {| check_clock := 1700000000000; store_clock := 1700000000250;
     database_response := Reply true "200 OK" "" (Json {| db_properties := None |}) |}.

(** A getter call 750 ms after the write of [sample_schema_env], with the
    destination out of reach. *)
Definition offline_schema_env : schema_env :=
  {| check_clock := 1700000001000; store_clock := 1700000001000;
     database_response := NetworkFailure (Error "fetch failed") |}.




(** * Properties *)

(** ** The order on timestamps *)

Lemma compare_refl a : String.compare a a = Eq.
Proof. now apply String_as_OT.cmp_eq. Qed.

Lemma compare_lt_trans a b c :
  String.compare a b = Lt -> String.compare b c = Lt -> String.compare a c = Lt.
Proof.
  intros Hab Hbc.
  apply String_as_OT.cmp_lt in Hab, Hbc. apply String_as_OT.cmp_lt.
  eapply String_as_OT.lt_trans; eauto.
Qed.

Lemma ts_le_refl a : ts_le a a.
Proof. unfold ts_le, js_gt. now rewrite compare_refl. Qed.

Lemma ts_le_trans a b c : ts_le a b -> ts_le b c -> ts_le a c.
Proof.
  unfold ts_le, js_gt. intros Hab Hbc.
  destruct (String.compare a b) eqn:Eab; try discriminate;
    destruct (String.compare b c) eqn:Ebc; try discriminate.
  - apply String.compare_eq_iff in Eab. subst. now rewrite Ebc.
  - apply String.compare_eq_iff in Eab. subst. now rewrite Ebc.
  - apply String.compare_eq_iff in Ebc. subst. now rewrite Eab.
  - now rewrite (compare_lt_trans _ _ _ Eab Ebc).
Qed.

Lemma ts_le_total a b : ts_le a b \/ ts_le b a.
Proof.
  unfold ts_le, js_gt. rewrite (String.compare_antisym a b).
  destruct (String.compare b a); simpl; auto.
Qed.

Lemma ts_le_antisym a b : ts_le a b -> ts_le b a -> a = b.
Proof.
  unfold ts_le, js_gt. rewrite (String.compare_antisym a b).
  destruct (String.compare b a) eqn:E; simpl; try discriminate.
  intros _ _. symmetry. now apply String.compare_eq_iff.
Qed.

Lemma js_gt_le a b : js_gt a b = true -> ts_le b a.
Proof.
  unfold ts_le, js_gt. rewrite (String.compare_antisym b a).
  destruct (String.compare a b); simpl; congruence.
Qed.

Lemma is_max_unique m m' xs : is_max m xs -> is_max m' xs -> m = m'.
Proof.
  intros [Hin Hub] [Hin' Hub']. apply ts_le_antisym; auto.
Qed.

(** ** Worlds *)

Lemma add_event_events e w : add_event e w = add_events [e] w.
Proof. reflexivity. Qed.

Lemma add_events_app evs1 evs2 w :
  add_events evs2 (add_events evs1 w) = add_events (evs1 ++ evs2) w.
Proof. unfold add_events; simpl. now rewrite app_assoc. Qed.

Lemma add_events_nil w : add_events [] w = w.
Proof. destruct w; unfold add_events; simpl. now rewrite app_nil_r. Qed.

Lemma posted_app evs1 evs2 : posted (evs1 ++ evs2) = posted evs1 ++ posted evs2.
Proof. apply omap_app. Qed.

Lemma state_writes_app evs1 evs2 :
  state_writes (evs1 ++ evs2) = state_writes evs1 ++ state_writes evs2.
Proof. apply omap_app. Qed.

(** ** Relations every step of a computation respects *)

Section Respects.

Variable R : world -> world -> Prop.
Hypothesis R_refl : forall w, R w w.
Hypothesis R_trans : forall w1 w2 w3, R w1 w2 -> R w2 w3 -> R w1 w3.

Lemma respects_ret {A} (a : A) : respects R (ret a).
Proof. intros w. apply R_refl. Qed.

Lemma respects_throw {A} e : respects R (@throw A e).
Proof. intros w. apply R_refl. Qed.

Lemma respects_get_world : respects R get_world.
Proof. intros w. apply R_refl. Qed.

Lemma respects_bind {A B} (m : M A) (k : A -> M B) :
  respects R m -> (forall a, respects R (k a)) -> respects R (bind m k).
Proof.
  intros Hm Hk w. unfold bind. specialize (Hm w).
  destruct (m w) as [[a|e] w']; simpl in *; auto.
  eapply R_trans; [exact Hm | apply Hk].
Qed.

Lemma respects_try_catch {A} (m : M A) (h : js_error -> M A) :
  respects R m -> (forall e, respects R (h e)) -> respects R (try_catch m h).
Proof.
  intros Hm Hh w. unfold try_catch. specialize (Hm w).
  destruct (m w) as [[a|e] w']; simpl in *; auto.
  eapply R_trans; [exact Hm | apply Hh].
Qed.

Lemma respects_JSON_parse {A} (t : json_text A) : respects R (JSON_parse t).
Proof. destruct t; [apply respects_throw | apply respects_ret]. Qed.

End Respects.

Lemma emits_refl P w : emits P w w.
Proof. exists []. split; [now rewrite app_nil_r | constructor]. Qed.

Lemma emits_trans P w1 w2 w3 : emits P w1 w2 -> emits P w2 w3 -> emits P w1 w3.
Proof.
  intros (evs1 & H1 & F1) (evs2 & H2 & F2). exists (evs1 ++ evs2). split.
  - rewrite H2, H1. now rewrite app_assoc.
  - now apply Forall_app.
Qed.

(** ** Watermark store *)

Lemma save_accepted ts w :
  state_write w = None ->
  saveLastSeenTime ts w =
    (Ok tt, set_state_file (Stored (Json {| lastSeenTime := Some ts |}))
              (add_events [WriteState {| lastSeenTime := Some ts |}] w)).
Proof.
  intros Hw. unfold saveLastSeenTime, writeFile_state, bind, emit, get_world, update.
  simpl. now rewrite Hw.
Qed.

Lemma save_rejected ts e w :
  state_write w = Some e ->
  saveLastSeenTime ts w =
    (Throw e, add_events [WriteState {| lastSeenTime := Some ts |}] w).
Proof.
  intros Hw. unfold saveLastSeenTime, writeFile_state, bind, emit, get_world, update.
  simpl. now rewrite Hw.
Qed.

Lemma load_found now st w :
  state_file w = Stored (Json st) ->
  loadLastSeenTime now w =
    (Ok (js_or_default (lastSeenTime st) now), add_events [ReadFile STATE_FILE] w).
Proof.
  intros Hf. unfold loadLastSeenTime, try_catch, readFile_state, bind, emit, get_world.
  simpl. now rewrite Hf.
Qed.

Lemma load_malformed now w :
  state_file w = Stored Malformed ->
  loadLastSeenTime now w = (Throw SyntaxError, add_events [ReadFile STATE_FILE] w).
Proof.
  intros Hf. unfold loadLastSeenTime, try_catch, readFile_state, bind, emit, get_world.
  simpl. now rewrite Hf.
Qed.

Lemma load_unreadable now c w :
  state_file w = NoAccess c -> c <> "ENOENT" ->
  loadLastSeenTime now w = (Throw (fs_error c), add_events [ReadFile STATE_FILE] w).
Proof.
  intros Hf Hc. unfold loadLastSeenTime, try_catch, readFile_state, bind, emit, get_world.
  simpl. rewrite Hf. simpl. unfold code_is. simpl.
  destruct (String.eqb_spec c "ENOENT"); [contradiction | reflexivity].
Qed.

Lemma load_missing now w :
  state_file w = NoAccess "ENOENT" ->
  loadLastSeenTime now w =
    match state_write w with
    | None =>
        (Ok now, set_state_file (Stored (Json {| lastSeenTime := Some now |}))
                   (add_events [ReadFile STATE_FILE;
                                WriteState {| lastSeenTime := Some now |}] w))
    | Some e =>
        (Throw e, add_events [ReadFile STATE_FILE;
                              WriteState {| lastSeenTime := Some now |}] w)
    end.
Proof.
  intros Hf. unfold loadLastSeenTime, try_catch, readFile_state, bind, emit, get_world.
  simpl. rewrite Hf. simpl.
  unfold saveLastSeenTime, writeFile_state, bind, emit, get_world, update. simpl.
  destruct (state_write w); unfold add_event, add_events, set_state_file; simpl;
    now rewrite <- app_assoc.
Qed.

(** C6 (watermark load): with no state file, the load initialises the
    watermark to the current time, persists it and returns it, and that is
    not an error; a read rejected with any other code, a text that does not
    parse, and a rejected write of the initial value all reach the caller
    as a throw, the state file left as it was. *)
Theorem load_initialises_and_propagates (now : string) (w : world) :
  (state_file w = NoAccess "ENOENT" -> state_write w = None ->
     fst (loadLastSeenTime now w) = Ok now /\
     state_file (snd (loadLastSeenTime now w)) =
       Stored (Json {| lastSeenTime := Some now |})) /\
  (forall c, state_file w = NoAccess c -> c <> "ENOENT" ->
     fst (loadLastSeenTime now w) = Throw (fs_error c) /\
     state_file (snd (loadLastSeenTime now w)) = state_file w) /\
  (state_file w = Stored Malformed ->
     fst (loadLastSeenTime now w) = Throw SyntaxError /\
     state_file (snd (loadLastSeenTime now w)) = state_file w) /\
  (forall e, state_file w = NoAccess "ENOENT" -> state_write w = Some e ->
     fst (loadLastSeenTime now w) = Throw e /\
     state_file (snd (loadLastSeenTime now w)) = state_file w).
Proof.
  split; [| split; [| split]].
  - intros Hf Hw. rewrite (load_missing _ _ Hf), Hw. split; reflexivity.
  - intros c Hf Hc. rewrite (load_unreadable _ _ _ Hf Hc). split; reflexivity.
  - intros Hf. rewrite (load_malformed _ _ Hf). split; reflexivity.
  - intros e Hf Hw. rewrite (load_missing _ _ Hf), Hw. split; reflexivity.
Qed.

Lemma js_or_default_falsy v d : truthy v = false -> js_or_default v d = d.
Proof.
  destruct v as [s|]; simpl; [| reflexivity].
  destruct (String.eqb s ""); simpl; [reflexivity | discriminate].
Qed.

Lemma js_or_default_truthy v d : truthy v = true -> Some (js_or_default v d) = v.
Proof.
  destruct v as [s|]; simpl; [| discriminate].
  destruct (String.eqb s ""); simpl; [discriminate | reflexivity].
Qed.

(** C10 (load without a stored watermark): when the state file parses but
    its [lastSeenTime] is absent or falsy, the load returns the clock
    reading and writes nothing, so the file stays as it was and the next
    load returns the next clock reading, whatever it is. *)
Theorem load_falsy_reads_clock (now1 now2 : string) (st : state_obj) (w : world) :
  state_file w = Stored (Json st) ->
  truthy (lastSeenTime st) = false ->
  fst (loadLastSeenTime now1 w) = Ok now1 /\
  state_file (snd (loadLastSeenTime now1 w)) = state_file w /\
  state_writes (trace (snd (loadLastSeenTime now1 w))) = state_writes (trace w) /\
  fst (loadLastSeenTime now2 (snd (loadLastSeenTime now1 w))) = Ok now2.
Proof.
  intros Hf Hfalsy. rewrite (load_found now1 st w Hf).
  rewrite (js_or_default_falsy _ _ Hfalsy). simpl.
  repeat split.
  - rewrite state_writes_app. simpl. apply app_nil_r.
  - rewrite (load_found now2 st); [| exact Hf].
    now rewrite (js_or_default_falsy _ _ Hfalsy).
Qed.

(** ** Schema cache *)

Lemma schema_hit env c w :
  cache_file w = Stored (Json c) ->
  fresh (check_clock env) c = true ->
  fetchNotionDatabaseSchema env w =
    (Ok (schema c),
     add_events [ReadFile SCHEMA_CACHE_FILE; Console log UsingCachedSchema] w).
Proof.
  intros Hf Hfresh.
  unfold fetchNotionDatabaseSchema, try_catch, readFile_cache, bind, emit, get_world.
  simpl. rewrite Hf. simpl. rewrite Hfresh. simpl.
  unfold console, emit, bind, ret. simpl.
  unfold add_event, add_events; simpl. now rewrite <- app_assoc.
Qed.

Lemma schema_miss env w :
  cache_miss (check_clock env) (cache_file w) ->
  fetchNotionDatabaseSchema env w =
    let w1 := add_events [ReadFile SCHEMA_CACHE_FILE; GetDatabase] w in
    match database_response env with
    | NetworkFailure e =>
        (Throw e, add_events [Console error (ErrorFetchingSchema (message e))] w1)
    | Reply false status errorText _ =>
        let e := Error ("Notion" +:+ " API error: " +:+ status +:+ " - " +:+ errorText) in
        (Throw e, add_events [Console error (ErrorFetchingSchema (message e))] w1)
    | Reply true _ _ Malformed =>
        (Throw SyntaxError,
         add_events [Console error (ErrorFetchingSchema (message SyntaxError))] w1)
    | Reply true _ _ (Json db) =>
        let c := {| schema := match db_properties db with Some p => p | None => [] end;
                    timestamp := Some (store_clock env) |} in
        match cache_write w with
        | None =>
            (Ok (schema c),
             set_cache_file (Stored (Json c))
               (add_events [WriteCache c; Console log FetchedAndCachedSchema] w1))
        | Some e =>
            (Throw e,
             add_events [WriteCache c; Console error (ErrorFetchingSchema (message e))] w1)
        end
    end.
Proof.
  intros Hmiss.
  assert (Hinner :
    try_catch
      (cached <- readFile_cache ;;
       cacheData <- JSON_parse cached ;;
       if fresh (check_clock env) cacheData then
         console log UsingCachedSchema ;; ret (Some (schema cacheData))
       else ret None)
      (fun _ => ret None) w
    = (Ok None, add_events [ReadFile SCHEMA_CACHE_FILE] w)).
  { unfold try_catch, readFile_cache, bind, emit, get_world. simpl.
    unfold cache_miss in Hmiss.
    destruct (cache_file w) as [c|[|c]]; simpl; try reflexivity.
    rewrite Hmiss. reflexivity. }
  unfold fetchNotionDatabaseSchema.
  unfold try_catch at 1. unfold bind at 1. rewrite Hinner.
  unfold fetch_json, writeFile_cache, console, bind, emit, get_world, update, JSON_parse,
    throw, ret.
  simpl.
  destruct (database_response env) as [e|[|] status errorText [|db]]; simpl;
    try (unfold add_event, add_events; simpl; repeat rewrite <- app_assoc; reflexivity).
  destruct (cache_write w); simpl;
    unfold add_event, add_events, set_cache_file; simpl;
    repeat rewrite <- app_assoc; reflexivity.
Qed.

(** C3 (schema cache getter): a cached snapshot younger than 3,600,000 ms
    is returned with no request to the destination and no write; when the
    cache file is absent or unreadable, does not parse, or is 3,600,000 ms
    old or older, the database is requested, and when that request succeeds
    and the disk takes the write, its schema is returned and stored with the
    clock reading of the write.  The state of the cache alone never makes
    the getter throw. *)
Theorem schema_cache_getter (env : schema_env) (w : world) :
  (forall c t,
     cache_file w = Stored (Json c) -> timestamp c = Some t ->
     (check_clock env - t < 3600000)%Z ->
     fetchNotionDatabaseSchema env w =
       (Ok (schema c),
        add_events [ReadFile SCHEMA_CACHE_FILE; Console log UsingCachedSchema] w)) /\
  ((exists c, cache_file w = NoAccess c) \/
   cache_file w = Stored Malformed \/
   (exists c t, cache_file w = Stored (Json c) /\ timestamp c = Some t /\
                (3600000 <= check_clock env - t)%Z) ->
   (exists rest,
      trace (snd (fetchNotionDatabaseSchema env w)) =
        trace w ++ [ReadFile SCHEMA_CACHE_FILE; GetDatabase] ++ rest) /\
   (forall status errorText db,
      database_response env = Reply true status errorText (Json db) ->
      cache_write w = None ->
      let live := match db_properties db with Some p => p | None => [] end in
      fst (fetchNotionDatabaseSchema env w) = Ok live /\
      cache_file (snd (fetchNotionDatabaseSchema env w)) =
        Stored (Json {| schema := live; timestamp := Some (store_clock env) |}))).
Proof.
  split.
  - intros c t Hf Ht Hage. apply schema_hit; [exact Hf |].
    unfold fresh. rewrite Ht. now apply Z.ltb_lt.
  - intros Hcache.
    assert (Hmiss : cache_miss (check_clock env) (cache_file w)).
    { destruct Hcache as [[c Hf]|[Hf|(c & t & Hf & Ht & Hage)]]; rewrite Hf; simpl; auto.
      unfold fresh. rewrite Ht. now apply Z.ltb_ge. }
    rewrite (schema_miss env w Hmiss). split.
    + destruct (database_response env) as [e|[|] status errorText [|db]]; simpl;
        try (eexists; rewrite <- app_assoc; reflexivity).
      destruct (cache_write w); simpl; eexists; rewrite <- !app_assoc; reflexivity.
    + intros status errorText db Hresp Hwrite. rewrite Hresp, Hwrite. simpl.
      split; reflexivity.
Qed.

(** ** Response normalisation *)

Lemma fetch_parsed {A} status errorText (data : json A) start w :
  fetchStarredLifelogs (Reply true status errorText (Json data)) start w =
    let w1 := describe_response (add_events [GetLifelogs start] w) in
    match data with
    | JArr items => (Ok items, w1)
    | JObj _ =>
        match select_array data with
        | Some lifelogs => (Ok lifelogs, w1)
        | None => (Ok [], warn_structure data w1)
        end
    | _ => (Ok [], add_events [Console warn UnexpectedType] w1)
    end.
Proof.
  unfold fetchStarredLifelogs, try_catch, fetch_json, bind, emit, get_world, JSON_parse,
    ret, describe_response.
  simpl.
  destruct (_limitlessApiResponseLogged w) eqn:Hlogged; simpl.
  - destruct data; simpl; try reflexivity.
    destruct (select_array (JObj fields)); simpl; [reflexivity |].
    unfold warn_structure. simpl.
    destruct (_limitlessApiWarningShown w); simpl; [reflexivity |].
    unfold console, emit, bind, update, ret. simpl.
    destruct (json_truthy _); simpl;
      unfold add_event, add_events, set_warning_shown; simpl;
      repeat rewrite <- app_assoc; reflexivity.
  - unfold console, emit, bind, update, ret. simpl.
    destruct data; simpl; try reflexivity.
    destruct (select_array (JObj fields)); simpl; [reflexivity |].
    unfold warn_structure. simpl.
    destruct (_limitlessApiWarningShown w); simpl; [reflexivity |].
    destruct (json_truthy _); simpl;
      unfold add_event, add_events, set_warning_shown; simpl;
      repeat rewrite <- app_assoc; reflexivity.
Qed.

Lemma array_at_isArray {A} (o : option (json A)) : array_at o = isArray o.
Proof. unfold array_at. destruct o as [[]|]; simpl; try reflexivity; now destruct (_ : bool). Qed.

Lemma select_array_first {A} (data : json A) :
  select_array data =
    first_array [isArray (prop_of (prop data "data") "lifelogs");
                 isArray (prop data "lifelogs");
                 isArray (prop data "data");
                 isArray (prop data "results");
                 isArray (prop data "items")].
Proof.
  unfold select_array. rewrite !array_at_isArray. simpl.
  assert (Hnested :
    (if json_truthy (prop data "data")
     then isArray (prop_of (prop data "data") "lifelogs") else None)
    = isArray (prop_of (prop data "data") "lifelogs")).
  { destruct (prop data "data") as [[]|]; simpl; try reflexivity;
      now destruct (_ : bool). }
  rewrite Hnested.
  repeat (match goal with |- context [isArray ?o] => destruct (isArray o) end;
          try reflexivity).
Qed.

Lemma diagnostics_app evs1 evs2 :
  diagnostics (evs1 ++ evs2) = diagnostics evs1 ++ diagnostics evs2.
Proof. apply omap_app. Qed.

Lemma describe_response_diagnostics w :
  diagnostics (trace (describe_response w)) = diagnostics (trace w).
Proof.
  unfold describe_response. destruct (_limitlessApiResponseLogged w); simpl; [reflexivity |].
  rewrite diagnostics_app. simpl. apply app_nil_r.
Qed.

Lemma describe_response_shown w :
  _limitlessApiWarningShown (describe_response w) = _limitlessApiWarningShown w.
Proof. unfold describe_response. now destruct (_limitlessApiResponseLogged w). Qed.

Lemma warn_structure_shown {A} (data : json A) w :
  _limitlessApiWarningShown (warn_structure data w) = true.
Proof.
  unfold warn_structure. destruct (_limitlessApiWarningShown w) eqn:E; simpl; auto.
Qed.

Lemma fetch_parsed_result {A} status errorText (data : json A) start w :
  fst (fetchStarredLifelogs (Reply true status errorText (Json data)) start w)
  = Ok (normal_form data).
Proof.
  rewrite fetch_parsed.
  destruct data; try reflexivity.
  rewrite select_array_first. fold (candidates (JObj fields)).
  unfold normal_form. now destruct (first_array (candidates (JObj fields))).
Qed.

Lemma fetch_parsed_diagnostics {A} status errorText (data : json A) start w :
  diagnostics
    (trace (snd (fetchStarredLifelogs (Reply true status errorText (Json data)) start w)))
  = diagnostics (trace w) ++ warnings_for data w.
Proof.
  rewrite fetch_parsed.
  assert (Hbase : diagnostics (trace (describe_response (add_events [GetLifelogs start] w)))
                  = diagnostics (trace w)).
  { rewrite describe_response_diagnostics. simpl. rewrite diagnostics_app. simpl.
    apply app_nil_r. }
  destruct data; cbv zeta; unfold warnings_for;
    try (cbn [snd trace add_events]; rewrite diagnostics_app, Hbase; reflexivity);
    try (cbn [snd]; rewrite Hbase, app_nil_r; reflexivity).
  rewrite select_array_first. fold (candidates (JObj fields)).
  destruct (first_array (candidates (JObj fields))); cbn [snd].
  - rewrite Hbase, app_nil_r; reflexivity.
  - unfold warn_structure. rewrite describe_response_shown. cbn [_limitlessApiWarningShown add_events].
    destruct (_limitlessApiWarningShown w).
    + rewrite Hbase, app_nil_r; reflexivity.
    + cbn [trace set_warning_shown add_events]. rewrite diagnostics_app, Hbase. f_equal.
      now destruct (json_truthy _).
Qed.

Lemma fetch_parsed_shown {A} status errorText fields start w :
  first_array (candidates (@JObj A fields)) = None ->
  _limitlessApiWarningShown
    (snd (fetchStarredLifelogs (Reply true status errorText (Json (JObj fields))) start w))
  = true.
Proof.
  intros Hnone. rewrite fetch_parsed. cbv zeta. rewrite select_array_first.
  fold (candidates (JObj fields)). rewrite Hnone. apply warn_structure_shown.
Qed.

(** C5 as stated fails: a response that is not an object, such as [null],
    brings its warning on every fetch, not once. *)
Lemma null_response_warns_again : ~ one_time_diagnostic (@JNull lifelog).
Proof.
  intros Honce.
  specialize (Honce "200 OK" "" "2025-01-01T00:00:00.000Z" "2025-01-01T00:00:00.000Z"
                clean_start).
  vm_compute in Honce. discriminate Honce.
Qed.

(** C5, amended (response normalisation): a successful response is
    normalised to the array itself for a bare array, to the contained array
    for [{lifelogs:[..]}], [{data:{lifelogs:[..]}}], [{data:[..]}],
    [{results:[..]}] and [{items:[..]}] (for an object with several of
    these, the first in the order [data.lifelogs], [lifelogs], [data],
    [results], [items]), and to the empty sequence otherwise.  An object of
    no known shape brings its warnings only while the process has not shown
    them yet, so never twice; a response that is not an object brings one
    warning on every fetch. *)
Theorem response_normalisation {A} (status errorText start : string) (w : world) :
  let fetch (data : json A) :=
    fetchStarredLifelogs (Reply true status errorText (Json data)) start w in
  (forall items, fst (fetch (JArr items)) = Ok items) /\
  (forall items, fst (fetch (JObj [("lifelogs", JArr items)])) = Ok items) /\
  (forall items, fst (fetch (JObj [("data", JObj [("lifelogs", JArr items)])])) = Ok items) /\
  (forall items, fst (fetch (JObj [("data", JArr items)])) = Ok items) /\
  (forall items, fst (fetch (JObj [("results", JArr items)])) = Ok items) /\
  (forall items, fst (fetch (JObj [("items", JArr items)])) = Ok items) /\
  (forall data, fst (fetch data) = Ok (normal_form data)) /\
  (forall data,
     diagnostics (trace (snd (fetch data))) = diagnostics (trace w) ++ warnings_for data w) /\
  (forall fields,
     first_array (candidates (@JObj A fields)) = None ->
     fst (fetch (JObj fields)) = Ok [] /\
     _limitlessApiWarningShown (snd (fetch (JObj fields))) = true /\
     one_time_diagnostic (@JObj A fields)) /\
  (forall data,
     primitive data = true ->
     fst (fetch data) = Ok [] /\
     diagnostics (trace (snd (fetch data))) = diagnostics (trace w) ++ [UnexpectedType]).
Proof.
  cbv zeta.
  repeat match goal with |- _ /\ _ => split end;
    try (intros items; now rewrite fetch_parsed_result).
  - intros data. apply fetch_parsed_diagnostics.
  - intros fields Hnone. split; [| split].
    + rewrite fetch_parsed_result. unfold normal_form. now rewrite Hnone.
    + now apply fetch_parsed_shown.
    + intros status' errorText' start1 start2 w0. cbv zeta.
      rewrite fetch_parsed_diagnostics. unfold warnings_for. rewrite Hnone.
      rewrite fetch_parsed_shown by exact Hnone. apply app_nil_r.
  - intros data Hprim. split.
    + rewrite fetch_parsed_result. now destruct data.
    + rewrite fetch_parsed_diagnostics. now destruct data.
Qed.

(** ** Fallback mapping *)

Lemma truthy_js_or a b : truthy (js_or a b) = truthy a || truthy b.
Proof. unfold js_or. destruct (truthy a) eqn:Ha; simpl; [exact Ha | reflexivity]. Qed.

Lemma schema_get_app_fresh (pre : Schema) k d rest :
  ~ In k (map fst pre) -> schema_get (pre ++ (k, d) :: rest) k = Some d.
Proof.
  induction pre as [|[k' d'] pre IH]; simpl; intros Hfresh.
  - now rewrite String.eqb_refl.
  - destruct (String.eqb_spec k' k) as [->|Hne]; [exfalso; auto |].
    apply IH. intros Hin. apply Hfresh. now right.
Qed.

Lemma find_rich_text_suffix (pre suf : Schema) :
  List.NoDup (map fst (pre ++ suf)) ->
  find (fun key =>
          match schema_get (pre ++ suf) key with
          | Some p => String.eqb (type p) "rich_text"
          | None => false
          end) (map fst suf)
  = fst <$> find (fun kp => String.eqb (type (snd kp)) "rich_text") suf.
Proof.
  revert pre. induction suf as [|[k d] suf IH]; intros pre Hnodup; simpl; [reflexivity |].
  assert (Hfresh : ~ In k (map fst pre)).
  { rewrite map_app in Hnodup. simpl in Hnodup.
    apply List.NoDup_remove_2 in Hnodup. intros Hin. apply Hnodup.
    apply in_or_app. now left. }
  rewrite (schema_get_app_fresh pre k d suf Hfresh).
  destruct (String.eqb (type d) "rich_text"); simpl; [reflexivity |].
  specialize (IH (pre ++ [(k, d)])). rewrite <- app_assoc in IH. simpl in IH.
  now apply IH.
Qed.

Lemma find_rich_text_first (databaseSchema : Schema) :
  List.NoDup (map fst databaseSchema) ->
  find_rich_text databaseSchema = first_rich_text databaseSchema.
Proof. intros Hnodup. apply (find_rich_text_suffix [] databaseSchema Hnodup). Qed.

(** ** Page creation *)

(** Case analysis on everything the handling of one lifelog reads. *)
Ltac page_cases env :=
  destruct env as [[|] [?e|[|?p]] [?e|[|] ?status ?errorText [|[]]]].

(** Runs a computation made of the primitives on a world given in full. *)
Ltac run :=
  unfold createNotionPage, generatePropertyMapping, fetch_json, JSON_parse, try_catch,
    console, bind, emit, throw, ret, add_event, add_events, clean_start;
  simpl; rewrite <- ?app_assoc; simpl.

Lemma mapping_only_emits env l s w :
  generatePropertyMapping env l s w =
    (fst (generatePropertyMapping env l s clean_start),
     add_events (trace (snd (generatePropertyMapping env l s clean_start))) w).
Proof. destruct w. page_cases env; run; rewrite ?app_nil_r; reflexivity. Qed.

Lemma page_only_emits env l s w :
  createNotionPage env l s w =
    (fst (createNotionPage env l s clean_start),
     add_events (trace (snd (createNotionPage env l s clean_start))) w).
Proof. destruct w. page_cases env; run; reflexivity. Qed.

Lemma page_result env l s w :
  fst (createNotionPage env l s w) =
    if accepted env then Ok tt
    else Throw match post env with
               | NetworkFailure e => e
               | Reply false status errorText _ =>
                   Error ("Notion" +:+ " API error: " +:+ status +:+ " - " +:+ errorText)
               | Reply true _ _ _ => SyntaxError
               end.
Proof. rewrite page_only_emits. page_cases env; reflexivity. Qed.

Lemma page_posted env l s :
  posted (trace (snd (createNotionPage env l s clean_start))) = [l].
Proof. page_cases env; reflexivity. Qed.

Lemma page_state_writes env l s :
  state_writes (trace (snd (createNotionPage env l s clean_start))) = [].
Proof. page_cases env; reflexivity. Qed.

Lemma mapping_failure_posts_fallback env l s w e :
  fst (generatePropertyMapping env l s w) = Throw e ->
  exists evs,
    trace (snd (createNotionPage env l s w)) = trace w ++ evs /\
    In (Console error (AiFailedFallback (message e))) evs /\
    map properties (pages_posted evs) = [fallback l s].
Proof.
  rewrite mapping_only_emits, page_only_emits. simpl.
  intros Hthrow. eexists. split; [reflexivity |].
  revert Hthrow. page_cases env; simpl; intros Hthrow;
    try discriminate Hthrow; injection Hthrow as <-;
    (split; [simpl; tauto | reflexivity]).
Qed.

Lemma fallback_shape (l : lifelog) (s : Schema) :
  List.NoDup (map fst s) ->
  fallback l s =
    let titled : gmap string prop_value :=
      {[ "Title" := title_value (js_or_default (title l) "Untitled") ]} in
    match (if truthy (body l) then first_rich_text s else None) with
    | Some key =>
        if String.eqb key "" then titled
        else <[ key := rich_text_value (js_or_default (body l) "") ]> titled
    | None => titled
    end.
Proof.
  intros Hnodup. unfold fallback, body. rewrite truthy_js_or.
  rewrite (find_rich_text_first s Hnodup).
  destruct (truthy (markdown l) || truthy (text l)); [| reflexivity].
  destruct (first_rich_text s) as [key|]; [| reflexivity].
  now destruct (String.eqb key "").
Qed.

(** C4 as stated fails: with the title property named [Name], the fallback
    sets [Title] and [Notes], and [Title] is no property of the schema. *)
Lemma fallback_title_not_in_schema : ~ sets_schema_title record_X schema_Name_Notes.
Proof.
  intros (key & p & Hget & Htype & Hlookup).
  unfold schema_Name_Notes in Hget. cbn [schema_get] in Hget. revert Hget.
  destruct (String.eqb_spec "Name" key) as [<-|_].
  - intros _. vm_compute in Hlookup. discriminate Hlookup.
  - destruct (String.eqb_spec "Notes" key) as [<-|_]; [| discriminate].
    intros [= <-]. simpl in Htype. discriminate Htype.
Qed.

Lemma truthy_Some s : truthy (Some s) = true <-> s <> "".
Proof.
  simpl. destruct (String.eqb_spec s ""); simpl; split; intros; congruence.
Qed.

(** C4, amended (fallback mapping): whenever the primary mapping raises, the
    page is posted with the fallback mapping, which, for a schema with
    unique property names, holds: (a) under the fixed name [Title], whether
    or not the schema has such a property, a title value with the record's
    title, or ['Untitled'] when the title is absent or empty (unless (b)
    applies to a property of that very name); (b) if the record has a
    non-empty body, the first schema property of type [rich_text], when
    there is one with a non-empty name, set to that body; and nothing
    else. *)
Theorem fallback_mapping (env : page_env) (l : lifelog) (s : Schema) (w : world) :
  List.NoDup (map fst s) ->
  (forall e,
     fst (generatePropertyMapping env l s w) = Throw e ->
     exists evs,
       trace (snd (createNotionPage env l s w)) = trace w ++ evs /\
       In (Console error (AiFailedFallback (message e))) evs /\
       map properties (pages_posted evs) = [fallback l s]) /\
  (~ (truthy (body l) = true /\ first_rich_text s = Some "Title") ->
     fallback l s !! "Title"
       = Some (title_value (js_or_default (title l) "Untitled"))) /\
  (forall t, title l = Some t -> t <> "" -> js_or_default (title l) "Untitled" = t) /\
  (title l = None \/ title l = Some "" -> js_or_default (title l) "Untitled" = "Untitled") /\
  (forall key content,
     body l = Some content -> content <> "" ->
     first_rich_text s = Some key -> key <> "" ->
     fallback l s !! key = Some (rich_text_value content)) /\
  (forall key v,
     fallback l s !! key = Some v ->
     key = "Title" \/ (truthy (body l) = true /\ first_rich_text s = Some key)).
Proof.
  intros Hnodup.
  split; [apply mapping_failure_posts_fallback |].
  rewrite (fallback_shape l s Hnodup). cbv zeta.
  split; [| split; [| split; [| split]]].
  - intros Hnot.
    destruct (truthy (body l)) eqn:Hbody; [| apply lookup_singleton_eq].
    destruct (first_rich_text s) as [key|] eqn:Hfirst; [| apply lookup_singleton_eq].
    destruct (String.eqb_spec key ""); [apply lookup_singleton_eq |].
    rewrite lookup_insert_ne; [apply lookup_singleton_eq |].
    intros ->. apply Hnot. auto.
  - intros t -> Ht. simpl. now destruct (String.eqb_spec t "").
  - intros [-> | ->]; reflexivity.
  - intros key content Hbody Hcontent Hfirst Hkey.
    rewrite Hbody, Hfirst.
    rewrite (proj2 (truthy_Some content) Hcontent).
    destruct (String.eqb_spec key ""); [contradiction |].
    rewrite lookup_insert_eq. simpl. now destruct (String.eqb_spec content "").
  - intros key v.
    destruct (truthy (body l)) eqn:Hbody.
    + destruct (first_rich_text s) as [key'|] eqn:Hfirst.
      * destruct (String.eqb_spec key' "").
        -- intros [-> _]%lookup_singleton_Some. now left.
        -- intros [[-> _] | [_ [-> _]%lookup_singleton_Some]]%lookup_insert_Some; auto.
      * intros [-> _]%lookup_singleton_Some. now left.
    + intros [-> _]%lookup_singleton_Some. now left.
Qed.

(** ** The loop over a batch *)

Lemma page_run env l s w :
  createNotionPage env l s w =
    (if accepted env then Ok tt else Throw (page_error env),
     add_events (page_events env s l) w).
Proof.
  rewrite page_only_emits. f_equal.
  apply (page_result env l s clean_start).
Qed.

Lemma process_lifelog_step env s l m n w :
  process_lifelog env s l (m, n) w =
    (Ok (if accepted env then (advance m l, S n) else (m, n)),
     add_events (lifelog_events env s l) w).
Proof.
  unfold process_lifelog, lifelog_events, try_catch, bind, console, emit.
  rewrite page_run.
  destruct (accepted env).
  - unfold advance, effective.
    destruct (lifelogTimestamp l) as [ts|] eqn:Hts.
    + destruct (truthy (Some ts)); cbn [andb].
      * destruct (js_gt ts m); unfold ret, add_event, add_events; cbn;
          rewrite <- ?app_assoc; reflexivity.
      * unfold ret, add_event, add_events; cbn; rewrite <- ?app_assoc; reflexivity.
    + unfold ret, add_event, add_events; cbn; rewrite <- ?app_assoc; reflexivity.
  - unfold ret, add_event, add_events; cbn; rewrite <- ?app_assoc; reflexivity.
Qed.

Lemma for_of_run envs s ls : forall i m n w,
  for_of envs s i ls (m, n) w =
    (Ok (fold_left advance (succeeded envs i ls) m,
         (n + length (succeeded envs i ls))%nat),
     add_events (loop_events envs s i ls) w).
Proof.
  induction ls as [|l rest IH]; intros i m n w; cbn [for_of succeeded loop_events].
  - unfold ret. cbn. now rewrite add_events_nil, Nat.add_0_r.
  - unfold bind. rewrite process_lifelog_step.
    destruct (accepted (envs i)); rewrite IH, add_events_app; cbn.
    + do 2 f_equal. f_equal. lia.
    + reflexivity.
Qed.

Lemma lifelog_events_posted env s l : posted (lifelog_events env s l) = [l].
Proof.
  unfold lifelog_events. cbv zeta. rewrite !posted_app.
  unfold page_events. rewrite page_posted. now destruct (accepted env).
Qed.

Lemma lifelog_events_state_writes env s l : state_writes (lifelog_events env s l) = [].
Proof.
  unfold lifelog_events. cbv zeta. rewrite !state_writes_app.
  unfold page_events. rewrite page_state_writes. now destruct (accepted env).
Qed.

Lemma loop_events_posted envs s ls : forall i, posted (loop_events envs s i ls) = ls.
Proof.
  induction ls as [|l rest IH]; intros i; cbn [loop_events]; [reflexivity |].
  now rewrite posted_app, lifelog_events_posted, IH.
Qed.

Lemma loop_events_state_writes envs s ls :
  forall i, state_writes (loop_events envs s i ls) = [].
Proof.
  induction ls as [|l rest IH]; intros i; cbn [loop_events]; [reflexivity |].
  now rewrite state_writes_app, lifelog_events_state_writes, IH.
Qed.

(** The loop computes a maximum. *)
Lemma advance_cases m l :
  (advance m l = m /\ forall ts, effective l = Some ts -> ts_le ts m) \/
  (effective l = Some (advance m l) /\ ts_le m (advance m l)).
Proof.
  unfold advance. destruct (effective l) as [ts|].
  - destruct (js_gt ts m) eqn:Hgt.
    + right. split; [reflexivity | now apply js_gt_le].
    + left. split; [reflexivity |]. now intros ? [= <-].
  - left. split; [reflexivity | discriminate].
Qed.

Lemma fold_advance_max written : forall m,
  is_max (fold_left advance written m) (m :: omap effective written).
Proof.
  induction written as [|l rest IH]; intros m; simpl.
  - split; [now left |]. intros x [<- | []]. apply ts_le_refl.
  - destruct (IH (advance m l)) as [Hin Hub].
    destruct (advance_cases m l) as [[Heq Hle] | [Heff Hle]].
    + rewrite Heq in *. split.
      * destruct Hin as [Hin | Hin]; [now left |].
        right. destruct (effective l); [now right | exact Hin].
      * intros x [<- | Hx]; [apply Hub; now left |].
        destruct (effective l) as [ts|] eqn:Heff.
        -- destruct Hx as [<- | Hx].
           ++ eapply ts_le_trans; [now apply Hle | apply Hub; now left].
           ++ apply Hub. now right.
        -- apply Hub. now right.
    + rewrite Heff. split.
      * destruct Hin as [Hin | Hin]; [right; left; exact Hin | right; right; exact Hin].
      * intros x [<- | [<- | Hx]].
        -- eapply ts_le_trans; [exact Hle | apply Hub; now left].
        -- apply Hub. now left.
        -- apply Hub. now right.
Qed.

Lemma fold_advance_ge written m : ts_le m (fold_left advance written m).
Proof. destruct (fold_advance_max written m) as [_ Hub]. apply Hub. now left. Qed.

(** ** Steps that leave the watermark store alone *)

Lemma quiet_refl w : quiet w w.
Proof. repeat split. Qed.

Lemma quiet_trans w1 w2 w3 : quiet w1 w2 -> quiet w2 w3 -> quiet w1 w3.
Proof. unfold quiet. intros (?&?&?&?) (?&?&?&?). repeat split; congruence. Qed.

Lemma quiet_add_events evs w :
  state_writes evs = [] -> posted evs = [] -> quiet w (add_events evs w).
Proof.
  intros Hw Hp. unfold quiet. simpl.
  rewrite state_writes_app, posted_app, Hw, Hp, !app_nil_r. auto.
Qed.

Lemma quiet_emit e :
  state_writes [e] = [] -> posted [e] = [] -> respects quiet (emit e).
Proof. intros Hw Hp w. now apply (quiet_add_events [e]). Qed.

Lemma quiet_set_response_logged b : respects quiet (update (set_response_logged b)).
Proof. intros w. repeat split. Qed.

Lemma quiet_set_warning_shown b : respects quiet (update (set_warning_shown b)).
Proof. intros w. repeat split. Qed.

(** Breaks a computation down to its primitive steps, for a relation given
    with its proofs of reflexivity and transitivity; [known] closes the
    steps that are already understood. *)
Ltac respects_with Hrefl Htrans known :=
  repeat first
    [ known
    | apply (respects_ret _ Hrefl)
    | apply (respects_throw _ Hrefl)
    | apply (respects_get_world _ Hrefl)
    | apply (respects_JSON_parse _ Hrefl)
    | apply (respects_bind _ Htrans); [| intros ?]
    | apply (respects_try_catch _ Htrans); [| intros ?]
    | case_match ].

Lemma fetch_quiet {A} (r : http (json A)) start :
  respects quiet (fetchStarredLifelogs r start).
Proof.
  unfold fetchStarredLifelogs, fetch_json, console.
  respects_with quiet_refl quiet_trans
    ltac:(solve [ apply quiet_emit; reflexivity
                | apply quiet_set_response_logged
                | apply quiet_set_warning_shown ]).
Qed.

Lemma fetch_result {A} (r : http (json A)) start w :
  fst (fetchStarredLifelogs r start w) =
    match batch_of r with
    | Some lifelogs => Ok lifelogs
    | None => Throw (fetch_error r)
    end.
Proof.
  destruct r as [e|[|] status errorText [|data]]; try reflexivity.
  apply fetch_parsed_result.
Qed.

(** ** One polling cycle *)

Lemma cycle_run env s w :
  processNewLifelogs env s w =
    match loadLastSeenTime (now env) w with
    | (Throw e, w0) => (Ok tt, add_events [Console error (ErrorProcessing (message e))] w0)
    | (Ok loaded, w0) =>
        match batch_of (lifelogs_response env) with
        | None =>
            (Ok tt,
             add_events [Console error (ErrorFetchingLifelogs
                                          (message (fetch_error (lifelogs_response env))))]
               (after_fetch env loaded w0))
        | Some [] =>
            (Ok tt, add_events [Console log NoNewLifelogs] (after_fetch env loaded w0))
        | Some lifelogs =>
            let w3 := after_loop env s loaded lifelogs w0 in
            let written := succeeded (pages env) 0 lifelogs in
            let maxTimestamp := fold_left advance written loaded in
            match written with
            | [] => (Ok tt, add_events [Console warn (NoneProcessed (length lifelogs))] w3)
            | _ :: _ =>
                match state_write w3 with
                | None =>
                    (Ok tt,
                     add_events [Console log (UpdatedLastSeen maxTimestamp)]
                       (set_state_file (Stored (Json {| lastSeenTime := Some maxTimestamp |}))
                          (add_events [WriteState {| lastSeenTime := Some maxTimestamp |}] w3)))
                | Some e =>
                    (Ok tt,
                     add_events [WriteState {| lastSeenTime := Some maxTimestamp |};
                                 Console error (ErrorProcessing (message e))] w3)
                end
            end
        end
    end.
Proof.
  unfold processNewLifelogs, try_catch, bind.
  destruct (loadLastSeenTime (now env) w) as [[loaded|e] w0]; [| reflexivity].
  unfold console at 1. unfold emit at 1. rewrite add_event_events.
  unfold after_loop, after_fetch.
  pose proof (fetch_result (lifelogs_response env) loaded
                (add_events [Console log (PollingSince loaded)] w0)) as Hres.
  destruct (fetchStarredLifelogs (lifelogs_response env) loaded
              (add_events [Console log (PollingSince loaded)] w0)) as [r w2].
  cbn [fst snd] in *. subst r.
  destruct (batch_of (lifelogs_response env)) as [lifelogs|]; [| reflexivity].
  unfold ret.
  destruct lifelogs as [|l rest]; [reflexivity |].
  cbv zeta.
  change (length (l :: rest) =? 0)%nat with false. cbv iota.
  unfold console at 1. unfold emit at 1. rewrite add_event_events.
  rewrite for_of_run, add_events_app. cbn [app].
  destruct (succeeded (pages env) 0 (l :: rest)) as [|l' written'] eqn:Hwritten.
  - reflexivity.
  - change (0 <? 0 + length (l' :: written'))%nat with true. cbv iota.
    set (w3 := add_events _ w2).
    destruct (state_write w3) as [e|] eqn:Hwrite.
    + rewrite (save_rejected _ e w3 Hwrite). unfold console, emit.
      now rewrite add_event_events, add_events_app.
    + rewrite (save_accepted _ w3 Hwrite). reflexivity.
Qed.

Lemma load_frame now w :
  state_write (snd (loadLastSeenTime now w)) = state_write w /\
  posted (trace (snd (loadLastSeenTime now w))) = posted (trace w).
Proof.
  destruct (state_file w) as [c|[|st]] eqn:Hf.
  - destruct (String.eqb_spec c "ENOENT") as [->|Hc].
    + rewrite (load_missing now w Hf).
      destruct (state_write w) eqn:Hw; simpl; rewrite ?Hw, posted_app; simpl;
        now rewrite app_nil_r.
    + rewrite (load_unreadable now c w Hf Hc). simpl. rewrite posted_app. simpl.
      now rewrite app_nil_r.
  - rewrite (load_malformed now w Hf). simpl. rewrite posted_app. simpl.
    now rewrite app_nil_r.
  - rewrite (load_found now st w Hf). simpl. rewrite posted_app. simpl.
    now rewrite app_nil_r.
Qed.

Lemma after_fetch_quiet env loaded w0 : quiet w0 (after_fetch env loaded w0).
Proof.
  unfold after_fetch. eapply quiet_trans; [| apply fetch_quiet].
  now apply quiet_add_events.
Qed.

Lemma after_loop_frame env s loaded lifelogs w0 :
  state_file (after_loop env s loaded lifelogs w0) = state_file w0 /\
  state_write (after_loop env s loaded lifelogs w0) = state_write w0 /\
  state_writes (trace (after_loop env s loaded lifelogs w0)) = state_writes (trace w0) /\
  posted (trace (after_loop env s loaded lifelogs w0)) = posted (trace w0) ++ lifelogs.
Proof.
  destruct (after_fetch_quiet env loaded w0) as (Hf & Hw & Hs & Hp).
  unfold after_loop. cbn [state_file state_write trace add_events].
  rewrite state_writes_app, posted_app, Hs, Hp.
  change (Console log (Found (length lifelogs)) :: loop_events (pages env) s 0 lifelogs)
    with ([Console log (Found (length lifelogs))] ++ loop_events (pages env) s 0 lifelogs).
  rewrite state_writes_app, posted_app, loop_events_state_writes, loop_events_posted.
  simpl. rewrite app_nil_r. auto.
Qed.

Lemma cycle_over_batch (env : cycle_env) (s : Schema) (w : world)
    (loaded : string) (lifelogs : list lifelog) :
  fst (loadLastSeenTime (now env) w) = Ok loaded ->
  fst (fetchStarredLifelogs (lifelogs_response env) loaded w) = Ok lifelogs ->
  lifelogs <> [] ->
  let w0 := snd (loadLastSeenTime (now env) w) in
  let w' := snd (processNewLifelogs env s w) in
  let written := succeeded (pages env) 0 lifelogs in
  fst (processNewLifelogs env s w) = Ok tt /\
  posted (trace w') = posted (trace w) ++ lifelogs /\
  (written <> [] ->
   exists m,
     is_max m (loaded :: omap effective written) /\
     state_writes (trace w') = state_writes (trace w0) ++ [{| lastSeenTime := Some m |}] /\
     (state_write w = None -> state_file w' = Stored (Json {| lastSeenTime := Some m |}))) /\
  (written = [] ->
   state_file w' = state_file w0 /\
   state_writes (trace w') = state_writes (trace w0) /\
   last (trace w') = Some (Console warn (NoneProcessed (length lifelogs)))).
Proof.
  intros Hload Hfetch Hne. cbv zeta.
  rewrite fetch_result in Hfetch.
  destruct (batch_of (lifelogs_response env)) as [b|] eqn:Hbatch; [| discriminate].
  injection Hfetch as ->.
  destruct (load_frame (now env) w) as [Hsw Hposted].
  rewrite cycle_run.
  destruct (loadLastSeenTime (now env) w) as [r w0]. cbn [fst snd] in *. subst r.
  rewrite Hbatch.
  destruct lifelogs as [|l rest]; [contradiction |].
  cbv zeta.
  destruct (after_loop_frame env s loaded (l :: rest) w0) as (Hf3 & Hw3 & Hs3 & Hp3).
  set (w3 := after_loop env s loaded (l :: rest) w0) in *.
  destruct (succeeded (pages env) 0 (l :: rest)) as [|l' written'] eqn:Hwritten.
  - cbn [fst snd]. split; [reflexivity |]. split; [| split].
    + cbn [trace add_events]. rewrite posted_app, Hp3, Hposted. simpl.
      now rewrite app_nil_r.
    + intros []. reflexivity.
    + intros _. cbn [state_file trace add_events]. rewrite state_writes_app, Hs3.
      simpl. rewrite app_nil_r, last_snoc. auto.
  - pose proof (fold_advance_max (l' :: written') loaded) as Hmax.
    set (m := fold_left advance (l' :: written') loaded) in *.
    destruct (state_write w3) as [e|] eqn:Hwrite; cbn [fst snd].
    + split; [reflexivity |]. split; [| split].
      * cbn [trace add_events]. rewrite posted_app, Hp3, Hposted. simpl.
        now rewrite app_nil_r.
      * intros _. exists m. split; [exact Hmax |]. split.
        -- cbn [trace add_events]. rewrite state_writes_app, Hs3. reflexivity.
        -- intros Hnone. congruence.
      * discriminate.
    + split; [reflexivity |]. split; [| split].
      * cbn [trace add_events set_state_file]. rewrite !posted_app, Hp3, Hposted. simpl.
        now rewrite !app_nil_r.
      * intros _. exists m. split; [exact Hmax |]. split.
        -- cbn [trace add_events set_state_file]. rewrite !state_writes_app, Hs3. simpl.
           now rewrite app_nil_r.
        -- intros _. reflexivity.
      * discriminate.
Qed.

(** The values the code orders as strings are two that denote instants. *)
Lemma instant_samples :
  instant "1970-01-01T00:00:00Z" = Some 0%Z /\
  instant "2025-01-01T00:00:05Z" = Some 1735689605000%Z /\
  instant "2025-01-01T00:00:05.500Z" = Some 1735689605500%Z.
Proof. repeat split; reflexivity. Qed.



(** ** The effects of a cycle *)

Lemma emits_emit (P : event -> Prop) e : P e -> respects (emits P) (emit e).
Proof.
  intros HP w. exists [e]. split; [reflexivity |]. now constructor.
Qed.

Lemma emits_update (P : event -> Prop) f :
  (forall w, trace (f w) = trace w) -> respects (emits P) (update f).
Proof.
  intros Hf w. exists []. split; [simpl; now rewrite Hf, app_nil_r | constructor].
Qed.

(** Closes the primitive steps of a computation whose effects satisfy
    [cycle_event]. *)
Ltac emits_primitives :=
  solve [ apply emits_emit; exact I
        | apply emits_emit; reflexivity
        | apply emits_update; reflexivity ].

Create HintDb emits discriminated.

(** Takes a computation apart and closes its steps with the primitives and
    the lemmas of the [emits] database. *)
Ltac emits_steps s :=
  respects_with (emits_refl (cycle_event s)) (emits_trans (cycle_event s))
    ltac:(first [ emits_primitives | solve [auto with emits nocore] ]).

Lemma load_emits s now : respects (emits (cycle_event s)) (loadLastSeenTime now).
Proof.
  unfold loadLastSeenTime, saveLastSeenTime, readFile_state, writeFile_state.
  emits_steps s.
Qed.

Lemma save_emits s ts : respects (emits (cycle_event s)) (saveLastSeenTime ts).
Proof. unfold saveLastSeenTime, writeFile_state. emits_steps s. Qed.

Lemma fetch_emits {A} s (r : http (json A)) start :
  respects (emits (cycle_event s)) (fetchStarredLifelogs r start).
Proof. unfold fetchStarredLifelogs, fetch_json, console. emits_steps s. Qed.

Lemma page_emits s env l : respects (emits (cycle_event s)) (createNotionPage env l s).
Proof.
  unfold createNotionPage, generatePropertyMapping, fetch_json, console.
  emits_steps s.
Qed.

#[local] Hint Resolve load_emits save_emits fetch_emits page_emits : emits.

Lemma process_lifelog_emits s env l locals :
  respects (emits (cycle_event s)) (process_lifelog env s l locals).
Proof.
  unfold process_lifelog, console. destruct locals as [m n]. emits_steps s.
Qed.

#[local] Hint Resolve process_lifelog_emits : emits.

Lemma for_of_emits s envs lifelogs : forall i locals,
  respects (emits (cycle_event s)) (for_of envs s i lifelogs locals).
Proof.
  induction lifelogs as [|l rest IH]; intros i locals; cbn [for_of]; emits_steps s.
Qed.

#[local] Hint Resolve for_of_emits : emits.

Lemma cycle_emits s env : respects (emits (cycle_event s)) (processNewLifelogs env s).
Proof. unfold processNewLifelogs, console. emits_steps s. Qed.

(** ** Records without a timestamp *)

Lemma effective_absent r :
  updatedAt r = None -> endTime r = None -> startTime r = None -> effective r = None.
Proof.
  intros Hu He Hs. unfold effective, lifelogTimestamp, js_or. now rewrite Hu, He, Hs.
Qed.

Lemma advance_untimed m r : effective r = None -> advance m r = m.
Proof. intros H. unfold advance. now rewrite H. Qed.

Lemma succeeded_app envs before : forall i rest,
  succeeded envs i (before ++ rest) =
    succeeded envs i before ++ succeeded envs (i + length before) rest.
Proof.
  induction before as [|l before IH]; intros i rest; simpl.
  - now rewrite Nat.add_0_r.
  - rewrite IH, <- app_assoc. do 3 f_equal. lia.
Qed.

Lemma succeeded_ext envs envs' lifelogs : forall i,
  (forall j, (i <= j < i + length lifelogs)%nat -> envs j = envs' j) ->
  succeeded envs i lifelogs = succeeded envs' i lifelogs.
Proof.
  induction lifelogs as [|l rest IH]; intros i Hext; simpl; [reflexivity |].
  rewrite (Hext i) by (simpl; lia). f_equal.
  apply IH. intros j Hj. apply Hext. simpl. lia.
Qed.

Lemma succeeded_shift envs k lifelogs : forall i,
  (k <= i)%nat ->
  succeeded (without k envs) i lifelogs = succeeded envs (S i) lifelogs.
Proof.
  induction lifelogs as [|l rest IH]; intros i Hi; simpl; [reflexivity |].
  rewrite IH by lia. unfold without at 1.
  destruct (Nat.ltb_spec i k); [lia | reflexivity].
Qed.

Lemma succeeded_without envs before rest :
  succeeded (without (length before) envs) 0 (before ++ rest) =
    succeeded envs 0 before ++ succeeded envs (S (length before)) rest.
Proof.
  rewrite succeeded_app. simpl. f_equal.
  - apply succeeded_ext. intros j Hj. unfold without.
    destruct (Nat.ltb_spec j (length before)); [reflexivity | lia].
  - now apply succeeded_shift.
Qed.

Lemma max_without envs before r rest m :
  effective r = None ->
  fold_left advance (succeeded envs 0 (before ++ r :: rest)) m =
    fold_left advance (succeeded (without (length before) envs) 0 (before ++ rest)) m.
Proof.
  intros Hr. rewrite succeeded_app, (succeeded_without envs before rest).
  rewrite !fold_left_app. simpl. rewrite fold_left_app. f_equal.
  destruct (accepted (envs (length before))); simpl; [now rewrite advance_untimed | reflexivity].
Qed.

Lemma posted_new w w' evs :
  trace w' = trace w ++ evs -> posted (trace w') = posted (trace w) -> posted evs = [].
Proof.
  intros Ht Hp. rewrite Ht, posted_app in Hp.
  rewrite <- (app_nil_r (posted (trace w))) in Hp at 2.
  now apply app_inv_head in Hp.
Qed.

(** The effects of a cycle over a non-empty batch: those of the loop, with
    no page posted before or after. *)
Lemma cycle_trace_batch env s w loaded lifelogs :
  fst (loadLastSeenTime (now env) w) = Ok loaded ->
  batch_of (lifelogs_response env) = Some lifelogs ->
  lifelogs <> [] ->
  exists evs1 evs2,
    trace (snd (processNewLifelogs env s w)) =
      trace w ++ evs1 ++ loop_events (pages env) s 0 lifelogs ++ evs2 /\
    posted evs1 = [] /\ posted evs2 = [].
Proof.
  intros Hload Hbatch Hne.
  destruct (load_emits s (now env) w) as (el & Hel & _).
  destruct (load_frame (now env) w) as [_ Hpl].
  rewrite cycle_run.
  destruct (loadLastSeenTime (now env) w) as [r w0]. cbn [fst snd] in *. subst r.
  rewrite Hbatch. destruct lifelogs as [|l rest]; [contradiction |]. cbv zeta.
  destruct (fetch_emits s (lifelogs_response env) loaded
              (add_events [Console log (PollingSince loaded)] w0)) as (ef & Hef & _).
  destruct (fetch_quiet (lifelogs_response env) loaded
              (add_events [Console log (PollingSince loaded)] w0)) as (_ & _ & _ & Hpf).
  fold (after_fetch env loaded w0) in Hef, Hpf.
  assert (Htrace3 : trace (after_loop env s loaded (l :: rest) w0) =
                    trace w ++ (el ++ [Console log (PollingSince loaded)] ++ ef
                                ++ [Console log (Found (length (l :: rest)))])
                    ++ loop_events (pages env) s 0 (l :: rest)).
  { unfold after_loop. cbn [trace add_events]. rewrite Hef. cbn [trace add_events].
    rewrite Hel. rewrite <- !app_assoc. reflexivity. }
  assert (Hp1 : posted (el ++ [Console log (PollingSince loaded)] ++ ef
                        ++ [Console log (Found (length (l :: rest)))]) = []).
  { rewrite !posted_app. rewrite (posted_new _ _ _ Hel Hpl), (posted_new _ _ _ Hef Hpf).
    reflexivity. }
  set (w3 := after_loop env s loaded (l :: rest) w0) in *.
  exists (el ++ [Console log (PollingSince loaded)] ++ ef
          ++ [Console log (Found (length (l :: rest)))]).
  destruct (succeeded (pages env) 0 (l :: rest)) as [|l' written'].
  - exists [Console warn (NoneProcessed (length (l :: rest)))].
    cbn [snd trace add_events]. rewrite Htrace3, <- !app_assoc.
    split; [reflexivity | split; [exact Hp1 | reflexivity]].
  - set (m := fold_left advance (l' :: written') loaded).
    destruct (state_write w3) as [e|].
    + exists [WriteState {| lastSeenTime := Some m |};
              Console error (ErrorProcessing (message e))].
      cbn [snd trace add_events]. rewrite Htrace3, <- !app_assoc.
      split; [reflexivity | split; [exact Hp1 | reflexivity]].
    + exists [WriteState {| lastSeenTime := Some m |};
              Console log (UpdatedLastSeen m)].
      cbn [snd trace add_events set_state_file]. rewrite Htrace3, <- !app_assoc.
      split; [reflexivity | split; [exact Hp1 | reflexivity]].
Qed.

Lemma loop_events_app envs s before : forall i rest,
  loop_events envs s i (before ++ rest) =
    loop_events envs s i before ++ loop_events envs s (i + length before) rest.
Proof.
  induction before as [|l before IH]; intros i rest; cbn [loop_events app length].
  - now rewrite Nat.add_0_r.
  - rewrite IH, <- app_assoc. do 3 f_equal. lia.
Qed.

Lemma lifelog_events_mapped env s l :
  openai env = true -> In (Completion l s) (lifelog_events env s l).
Proof.
  intros Hopenai. unfold lifelog_events. cbv zeta.
  apply in_or_app. right. apply in_or_app. left.
  unfold page_events. revert Hopenai.
  page_cases env; simpl; intros Hopenai; try discriminate Hopenai; now left.
Qed.

(** C7 (records without a timestamp): a record whose [updatedAt], [endTime]
    and [startTime] are all absent is still posted in its turn (and sent to
    the mapper when the client exists); handling it leaves [maxTimestamp]
    as it was, and the loop ends on the same [maxTimestamp] as for the
    batch without that record. *)
Theorem untimed_record_written_not_counted (env : cycle_env) (s : Schema) (w : world)
    (loaded : string) (before : list lifelog) (r : lifelog) (rest : list lifelog) :
  updatedAt r = None -> endTime r = None -> startTime r = None ->
  fst (loadLastSeenTime (now env) w) = Ok loaded ->
  fst (fetchStarredLifelogs (lifelogs_response env) loaded w) = Ok (before ++ r :: rest) ->
  (exists evs,
     trace (snd (processNewLifelogs env s w)) = trace w ++ evs /\
     posted evs = before ++ r :: rest /\
     (openai (pages env (length before)) = true -> In (Completion r s) evs)) /\
  (forall penv m n w1,
     exists n', fst (process_lifelog penv s r (m, n) w1) = Ok (m, n')) /\
  (forall w1 w2,
     maxTimestamp_of (for_of (pages env) s 0 (before ++ r :: rest) (loaded, 0%nat) w1) =
     maxTimestamp_of (for_of (without (length before) (pages env)) s 0 (before ++ rest)
                        (loaded, 0%nat) w2)).
Proof.
  intros Hu He Hs Hload Hfetch.
  pose proof (effective_absent r Hu He Hs) as Heff.
  rewrite fetch_result in Hfetch.
  destruct (batch_of (lifelogs_response env)) as [b|] eqn:Hbatch; [| discriminate].
  injection Hfetch as ->.
  split; [| split].
  - destruct (cycle_trace_batch env s w loaded (before ++ r :: rest) Hload Hbatch)
      as (evs1 & evs2 & Htrace & Hp1 & Hp2); [now destruct before |].
    exists (evs1 ++ loop_events (pages env) s 0 (before ++ r :: rest) ++ evs2).
    split; [exact Htrace |]. split.
    + rewrite !posted_app, Hp1, Hp2, loop_events_posted. simpl. apply app_nil_r.
    + intros Hopenai. apply in_or_app. right. apply in_or_app. left.
      rewrite loop_events_app. apply in_or_app. right.
      cbn [loop_events]. apply in_or_app. left.
      now apply lifelog_events_mapped.
  - intros penv m n w1. rewrite process_lifelog_step. cbn [fst].
    destruct (accepted penv); eexists; [rewrite (advance_untimed m r Heff) |]; reflexivity.
  - intros w1 w2. unfold maxTimestamp_of. rewrite !for_of_run. cbn [fst].
    now rewrite (max_without (pages env) before r rest loaded Heff).
Qed.

(** ** A cycle whose fetch fails *)

Lemma load_returns_persisted now v w :
  persisted w = Some v -> fst (loadLastSeenTime now w) = Ok v.
Proof.
  unfold persisted. destruct (state_file w) as [c|[|st]] eqn:Hf; try discriminate.
  destruct (truthy (lastSeenTime st)) eqn:Htruthy; [| discriminate].
  intros Hv. rewrite (load_found now st w Hf). simpl. f_equal.
  pose proof (js_or_default_truthy _ now Htruthy) as Hd. congruence.
Qed.






(** ** Monotonicity of the watermark *)

Lemma cycle_returns env s w : fst (processNewLifelogs env s w) = Ok tt.
Proof.
  rewrite cycle_run.
  destruct (loadLastSeenTime (now env) w) as [[loaded|e] w0]; [| reflexivity].
  destruct (batch_of (lifelogs_response env)) as [[|l rest]|]; try reflexivity.
  cbv zeta. destruct (succeeded _ _ _); [reflexivity |].
  now destruct (state_write _).
Qed.

(** A cycle leaves the state file as the load left it, or holding a
    watermark that is not below the loaded one. *)
Lemma cycle_state_file env s w :
  state_file (snd (processNewLifelogs env s w)) = state_file (snd (loadLastSeenTime (now env) w)) \/
  exists loaded m,
    fst (loadLastSeenTime (now env) w) = Ok loaded /\
    state_file (snd (processNewLifelogs env s w)) = Stored (Json {| lastSeenTime := Some m |}) /\
    ts_le loaded m.
Proof.
  rewrite cycle_run.
  destruct (loadLastSeenTime (now env) w) as [[loaded|e] w0]; [| now left].
  cbn [fst snd].
  destruct (batch_of (lifelogs_response env)) as [[|l rest]|].
  - left. cbn [snd state_file add_events]. apply after_fetch_quiet.
  - cbv zeta.
    destruct (after_loop_frame env s loaded (l :: rest) w0) as (Hf3 & _).
    destruct (succeeded _ _ _) as [|l' written']; [now left |].
    destruct (state_write _); [now left |].
    right. exists loaded, (fold_left advance (l' :: written') loaded).
    split; [reflexivity |]. split; [reflexivity |]. apply fold_advance_ge.
  - left. cbn [snd state_file add_events]. apply after_fetch_quiet.
Qed.

Lemma ts_le_empty v : ts_le v "" -> v = "".
Proof. unfold ts_le, js_gt. destruct v; [reflexivity | discriminate]. Qed.

Lemma persisted_stored m :
  forall w, state_file w = Stored (Json {| lastSeenTime := Some m |}) ->
            m <> "" -> persisted w = Some m.
Proof.
  intros w Hf Hm. unfold persisted. rewrite Hf. cbn [lastSeenTime].
  now rewrite (proj2 (truthy_Some m) Hm).
Qed.

Lemma persisted_truthy w v : persisted w = Some v -> v <> "".
Proof.
  unfold persisted. destruct (state_file w) as [c|[|st]]; try discriminate.
  destruct (truthy (lastSeenTime st)) eqn:Htruthy; [| discriminate].
  intros Hv. rewrite Hv in Htruthy. now apply truthy_Some.
Qed.

Lemma persisted_same_file w w' : state_file w' = state_file w -> persisted w' = persisted w.
Proof. unfold persisted. now intros ->. Qed.

Lemma load_keeps_persisted now v w :
  persisted w = Some v -> persisted (snd (loadLastSeenTime now w)) = Some v.
Proof.
  intros Hv. rewrite <- Hv. apply persisted_same_file.
  unfold persisted in Hv. destruct (state_file w) as [c|[|st]] eqn:Hf; try discriminate.
  now rewrite (load_found now st w Hf).
Qed.

Lemma cycle_keeps_watermark env s w v :
  persisted w = Some v ->
  exists v', persisted (snd (processNewLifelogs env s w)) = Some v' /\ ts_le v v'.
Proof.
  intros Hv.
  pose proof (load_returns_persisted (now env) v w Hv) as Hload.
  pose proof (load_keeps_persisted (now env) v w Hv) as Hv0.
  destruct (cycle_state_file env s w) as [Hsame | (loaded & m & Hload' & Hfile & Hle)].
  - exists v. split; [| apply ts_le_refl].
    rewrite <- Hv0. now apply persisted_same_file.
  - assert (loaded = v) as -> by congruence.
    exists m. split; [| exact Hle].
    apply persisted_stored; [exact Hfile |].
    intros ->. apply (persisted_truthy w v Hv). now apply ts_le_empty.
Qed.

Lemma ticks_cons s env rest w :
  snd (ticks s (env :: rest) w) = snd (ticks s rest (snd (processNewLifelogs env s w))).
Proof.
  cbn [ticks]. unfold bind. pose proof (cycle_returns env s w) as Hret.
  destruct (processNewLifelogs env s w) as [r w1]. cbn [fst snd] in *. now subst r.
Qed.




(** ** The schema over a process run *)

Lemma getter_runs_app evs1 evs2 :
  getter_runs (evs1 ++ evs2) = (getter_runs evs1 + getter_runs evs2)%nat.
Proof. unfold getter_runs. now rewrite List.filter_app, length_app. Qed.

Lemma getter_runs_cycle_events s evs : Forall (cycle_event s) evs -> getter_runs evs = 0%nat.
Proof.
  induction 1 as [|e evs He _ IH]; [reflexivity |].
  change (e :: evs) with ([e] ++ evs). rewrite getter_runs_app, IH.
  destruct e as [[]| | | | | | |]; simpl in He; try contradiction; reflexivity.
Qed.

Lemma getter_reads_once senv w :
  getter_runs (trace (snd (fetchNotionDatabaseSchema senv w)))
  = (getter_runs (trace w) + 1)%nat.
Proof.
  destruct (cache_file w) as [c|[|c]] eqn:Hf.
  - rewrite schema_miss by (now rewrite Hf). cbv zeta.
    destruct (database_response senv) as [e|[|] status errorText [|db]];
      try destruct (cache_write w);
      cbn [snd trace add_events set_cache_file]; rewrite ?getter_runs_app;
      unfold getter_runs; simpl; lia.
  - rewrite schema_miss by (now rewrite Hf). cbv zeta.
    destruct (database_response senv) as [e|[|] status errorText [|db]];
      try destruct (cache_write w);
      cbn [snd trace add_events set_cache_file]; rewrite ?getter_runs_app;
      unfold getter_runs; simpl; lia.
  - destruct (fresh (check_clock senv) c) eqn:Hfresh.
    + rewrite (schema_hit senv c w Hf Hfresh).
      cbn [snd trace add_events]. rewrite getter_runs_app. reflexivity.
    + rewrite schema_miss by (now rewrite Hf). cbv zeta.
      destruct (database_response senv) as [e|[|] status errorText [|db]];
        try destruct (cache_write w);
        cbn [snd trace add_events set_cache_file]; rewrite ?getter_runs_app;
        unfold getter_runs; simpl; lia.
Qed.

Lemma ticks_emits s envs : respects (emits (cycle_event s)) (ticks s envs).
Proof.
  induction envs as [|env rest IH]; cbn [ticks].
  - apply (respects_ret _ (emits_refl (cycle_event s))).
  - apply (respects_bind _ (emits_trans (cycle_event s)));
      [apply cycle_emits | intros ?; exact IH].
Qed.

Lemma ticks_returns s envs : forall w, fst (ticks s envs w) = Ok tt.
Proof.
  induction envs as [|env rest IH]; intros w; cbn [ticks]; [reflexivity |].
  unfold bind. pose proof (cycle_returns env s w) as Hret.
  destruct (processNewLifelogs env s w) as [r w1]. cbn [fst] in Hret. subst r. apply IH.
Qed.

(** C9 (the schema over one process run): [startPolling] runs the schema
    getter once; if it throws, the process exits with status 1; otherwise
    the first cycle and every timer tick run with the schema it returned,
    and none of them, whatever its clock and responses, reads or writes the
    cache file, requests the database, or hands another schema to the
    mapper: over the whole run the getter has run exactly once. *)
Theorem schema_fetched_once_per_run (senv : schema_env) (first : cycle_env)
    (later : list cycle_env) (w : world) :
  let getter := fetchNotionDatabaseSchema senv (announced w) in
  let run := startPolling senv first later w in
  getter_runs (trace (snd getter)) = (getter_runs (trace w) + 1)%nat /\
  getter_runs (trace (snd run)) = (getter_runs (trace w) + 1)%nat /\
  match fst getter with
  | Ok databaseSchema =>
      fst run = Running /\
      exists evs,
        trace (snd run) = trace (snd getter) ++ evs /\
        Forall (cycle_event databaseSchema) evs /\
        snd run =
          snd (ticks databaseSchema (first :: later)
                 (add_events [Console log (SchemaLoaded (length databaseSchema))]
                    (snd getter)))
  | Throw e => fst run = Exited 1
  end.
Proof.
  cbv zeta.
  assert (Honce :
    getter_runs (trace (snd (fetchNotionDatabaseSchema senv (announced w))))
    = (getter_runs (trace w) + 1)%nat).
  { rewrite getter_reads_once. unfold announced. cbn [trace add_events].
    rewrite getter_runs_app. unfold getter_runs. simpl. lia. }
  split; [exact Honce |].
  unfold startPolling.
  assert (Hstart :
    (console log Starting ;; console log PollInterval ;; console log DatabaseId ;;
     console log FetchingSchema ;; fetchNotionDatabaseSchema senv) w
    = fetchNotionDatabaseSchema senv (announced w)).
  { unfold bind, console, emit, announced. cbn. unfold add_event, add_events. cbn.
    now rewrite <- !app_assoc. }
  rewrite Hstart.
  destruct (fetchNotionDatabaseSchema senv (announced w))
    as [[databaseSchema|e] w1]; cbn [fst snd] in *.
  - assert (Hrest :
      (console log (SchemaLoaded (length databaseSchema)) ;;
       processNewLifelogs first databaseSchema ;; ticks databaseSchema later) w1
      = ticks databaseSchema (first :: later)
          (add_events [Console log (SchemaLoaded (length databaseSchema))] w1)).
    { reflexivity. }
    rewrite Hrest.
    pose proof (ticks_returns databaseSchema (first :: later)
                  (add_events [Console log (SchemaLoaded (length databaseSchema))] w1)) as Hret.
    destruct (ticks_emits databaseSchema (first :: later)
                (add_events [Console log (SchemaLoaded (length databaseSchema))] w1))
      as (evs & Htrace & Hall).
    destruct (ticks databaseSchema (first :: later) _) as [r w2].
    cbn [fst snd] in *. subst r. cbn [fst snd].
    assert (Hevs : Forall (cycle_event databaseSchema)
                     (Console log (SchemaLoaded (length databaseSchema)) :: evs)).
    { constructor; [exact I | exact Hall]. }
    assert (Htrace' : trace w2 = trace w1
                      ++ Console log (SchemaLoaded (length databaseSchema)) :: evs).
    { rewrite Htrace. cbn [trace add_events]. now rewrite <- app_assoc. }
    split; [| split; [reflexivity |]].
    + rewrite Htrace', getter_runs_app, (getter_runs_cycle_events _ _ Hevs). lia.
    + eexists. split; [exact Htrace' |]. split; [exact Hevs | reflexivity].
  - split; [| reflexivity].
    cbn [trace add_event]. rewrite !getter_runs_app.
    change (getter_runs [Console error (FailedSchema (message e))]) with 0%nat.
    change (getter_runs [Console error CannotContinue]) with 0%nat. lia.
Qed.

(** ** The theorems at sample inputs *)



(** C3 at a cache written 1,000 ms ago, and at one written 3,600,000 ms
    ago. *)
Lemma schema_cache_getter_sample :
  fetchNotionDatabaseSchema sample_schema_env (with_cache 1699999999000) =
    (Ok schema_Name_Notes,
     add_events [ReadFile SCHEMA_CACHE_FILE; Console log UsingCachedSchema]
       (with_cache 1699999999000)) /\
  cache_file (snd (fetchNotionDatabaseSchema sample_schema_env (with_cache 1699996400000)))
    = Stored (Json {| schema := schema_Name_Notes; timestamp := Some 1700000000250%Z |}).
Proof.
  split.
  - apply (proj1 (schema_cache_getter sample_schema_env (with_cache 1699999999000))
             {| schema := schema_Name_Notes; timestamp := Some 1699999999000%Z |}
             1699999999000%Z); [reflexivity | reflexivity | vm_compute; reflexivity].
  - destruct (proj2 (schema_cache_getter sample_schema_env (with_cache 1699996400000)))
      as [_ Hlive].
    + right. right.
      exists {| schema := schema_Name_Notes; timestamp := Some 1699996400000%Z |},
             1699996400000%Z.
      split; [reflexivity |]. split; [reflexivity |]. vm_compute. discriminate.
    + apply (Hlive "200 OK" "" {| db_properties := Some schema_Name_Notes |});
        reflexivity.
Defined.

Lemma sample_schema_names : List.NoDup (map fst schema_Name_Notes).
Proof.
  repeat constructor; simpl; intros H;
    repeat (destruct H as [H | H]; [discriminate H |]); exact H.
Defined.

(** C4 at a record with title [X] and body [hello], for a schema whose
    first rich-text property is [Notes]: the fallback holds [Title] = [X]
    and [Notes] = [hello]. *)
Lemma fallback_mapping_sample :
  fallback record_X schema_Name_Notes !! "Title" = Some (title_value "X") /\
  fallback record_X schema_Name_Notes !! "Notes" = Some (rich_text_value "hello").
Proof.
  destruct (fallback_mapping page_taken record_X schema_Name_Notes clean_start
              sample_schema_names)
    as (_ & Htitle & _ & _ & Hbody & _).
  split.
  - apply Htitle. intros [_ Hfirst]. discriminate Hfirst.
  - apply Hbody; [reflexivity | discriminate | reflexivity | discriminate].
Defined.

(** C5 at an object of no known shape and at [null]. *)
Lemma response_normalisation_sample :
  one_time_diagnostic (@JObj lifelog [("error", JStr "maintenance")]) /\
  diagnostics
    (trace (snd (fetchStarredLifelogs (Reply true "200 OK" "" (Json (@JNull lifelog)))
                   "2025-01-01T00:00:00.000Z" clean_start)))
  = [UnexpectedType].
Proof.
  destruct (@response_normalisation lifelog "200 OK" "" "2025-01-01T00:00:00.000Z"
              clean_start)
    as (_ & _ & _ & _ & _ & _ & _ & _ & Hobject & Hprimitive).
  split.
  - apply (Hobject [("error", JStr "maintenance")]). reflexivity.
  - apply (Hprimitive JNull). reflexivity.
Defined.

(** C6 at a first start, and at a state file that cannot be read. *)
Lemma load_initialises_and_propagates_sample :
  fst (loadLastSeenTime "2025-01-01T00:00:00.000Z" clean_start)
    = Ok "2025-01-01T00:00:00.000Z" /\
  fst (loadLastSeenTime "2025-01-01T00:00:00.000Z"
         (set_state_file (NoAccess "EACCES") clean_start))
    = Throw (fs_error "EACCES").
Proof.
  split.
  - apply (proj1 (load_initialises_and_propagates "2025-01-01T00:00:00.000Z" clean_start));
      reflexivity.
  - apply (proj1 (proj2 (load_initialises_and_propagates "2025-01-01T00:00:00.000Z"
                           (set_state_file (NoAccess "EACCES") clean_start))));
      [reflexivity | discriminate].
Defined.

(** C7 at [sample_cycle], whose second record has no timestamp. *)
Lemma untimed_record_sample :
  exists evs,
    trace (snd (processNewLifelogs sample_cycle schema_Name_Notes clean_start)) = evs /\
    posted evs = sample_batch /\
    In (Completion record_untimed schema_Name_Notes) evs.
Proof.
  destruct (untimed_record_written_not_counted sample_cycle schema_Name_Notes clean_start
              "2025-01-01T00:00:00.000Z" [record_X] record_untimed [record_late])
    as ((evs & Htrace & Hposted & Hmapped) & _);
    [reflexivity | reflexivity | reflexivity | reflexivity | reflexivity |].
  exists evs. split; [exact Htrace |]. split; [exact Hposted |].
  apply Hmapped. reflexivity.
Defined.


(** C10 at a state file without [lastSeenTime]: two loads, two clock
    readings. *)
Lemma load_falsy_sample :
  fst (loadLastSeenTime "2025-01-01T00:00:00.000Z" without_watermark)
    = Ok "2025-01-01T00:00:00.000Z" /\
  fst (loadLastSeenTime "2025-01-01T00:00:30.000Z"
         (snd (loadLastSeenTime "2025-01-01T00:00:00.000Z" without_watermark)))
    = Ok "2025-01-01T00:00:30.000Z".
Proof.
  destruct (load_falsy_reads_clock "2025-01-01T00:00:00.000Z" "2025-01-01T00:00:30.000Z"
              {| lastSeenTime := None |} without_watermark)
    as (Hfirst & _ & _ & Hsecond); [reflexivity | reflexivity |].
  split; [exact Hfirst | exact Hsecond].
Defined.

(** * Further properties of the service *)

(** ** Round trips through the two files *)

(** X1 (watermark round trip): once the disk has taken the save of a
    non-empty timestamp, the next load returns that timestamp, whatever the
    clock reads and whatever the file held before, and writes nothing. *)
Theorem saved_watermark_is_loaded (ts now : string) (w : world) :
  state_write w = None ->
  ts <> "" ->
  fst (saveLastSeenTime ts w) = Ok tt /\
  persisted (snd (saveLastSeenTime ts w)) = Some ts /\
  loadLastSeenTime now (snd (saveLastSeenTime ts w)) =
    (Ok ts, add_events [ReadFile STATE_FILE] (snd (saveLastSeenTime ts w))).
Proof.
  intros Hwrite Hts. rewrite (save_accepted ts w Hwrite). cbn [fst snd].
  split; [reflexivity |]. split.
  - apply persisted_stored; [reflexivity | exact Hts].
  - rewrite (load_found now {| lastSeenTime := Some ts |}); [| reflexivity].
    cbn [lastSeenTime js_or_default].
    destruct (String.eqb_spec ts ""); [contradiction | reflexivity].
Qed.

(** X2 (schema cache round trip): a schema fetched from the destination
    and stored is what the next getter call returns, without a request,
    when that call comes less than 3,600,000 ms after the clock reading of
    the write, whatever the destination would answer then; from
    3,600,000 ms on, the database is requested again. *)
Theorem cached_schema_is_reused (env1 env2 : schema_env) (w : world)
    (status errorText : string) (db : database) :
  cache_miss (check_clock env1) (cache_file w) ->
  database_response env1 = Reply true status errorText (Json db) ->
  cache_write w = None ->
  let w1 := snd (fetchNotionDatabaseSchema env1 w) in
  let live := match db_properties db with Some p => p | None => [] end in
  fst (fetchNotionDatabaseSchema env1 w) = Ok live /\
  ((check_clock env2 - store_clock env1 < 3600000)%Z ->
   fetchNotionDatabaseSchema env2 w1 =
     (Ok live, add_events [ReadFile SCHEMA_CACHE_FILE; Console log UsingCachedSchema] w1)) /\
  ((3600000 <= check_clock env2 - store_clock env1)%Z ->
   exists rest,
     trace (snd (fetchNotionDatabaseSchema env2 w1)) =
       trace w1 ++ [ReadFile SCHEMA_CACHE_FILE; GetDatabase] ++ rest).
Proof.
  intros Hmiss Hresp Hwrite. cbv zeta.
  rewrite (schema_miss env1 w Hmiss), Hresp, Hwrite. cbv zeta. cbn [fst snd].
  set (c := {| schema := match db_properties db with Some p => p | None => [] end;
               timestamp := Some (store_clock env1) |}).
  set (w1 := set_cache_file (Stored (Json c)) _).
  assert (Hfile : cache_file w1 = Stored (Json c)) by reflexivity.
  split; [reflexivity |]. split.
  - intros Hage. rewrite (schema_hit env2 c w1 Hfile); [reflexivity |].
    unfold fresh. cbn [timestamp c]. now apply Z.ltb_lt.
  - intros Hage.
    assert (Hmiss2 : cache_miss (check_clock env2) (cache_file w1)).
    { rewrite Hfile. cbn [cache_miss]. unfold fresh. cbn [timestamp c].
      now apply Z.ltb_ge. }
    rewrite (schema_miss env2 w1 Hmiss2). cbv zeta.
    destruct (database_response env2) as [e|[|] status2 errorText2 [|db2]];
      try destruct (cache_write w1);
      cbn [snd trace add_events set_cache_file]; eexists; rewrite <- !app_assoc;
      reflexivity.
Qed.

Lemma cache_writes_app evs1 evs2 :
  cache_writes (evs1 ++ evs2) = cache_writes evs1 ++ cache_writes evs2.
Proof. apply omap_app. Qed.

(** X3 (failed schema fetch): when the cache cannot be used and the
    database request is rejected, refused or unparsable, the getter throws
    that error, ends on its log line, hands nothing to the cache file and
    leaves it as it was: an old cached schema is not returned in place of
    the live one.  When the request succeeds and the disk rejects the
    write, the getter throws the disk's error and the fetched schema is
    lost to the caller. *)
Theorem failed_schema_fetch_keeps_cache (env : schema_env) (w : world) :
  cache_miss (check_clock env) (cache_file w) ->
  ((forall status errorText db,
      database_response env <> Reply true status errorText (Json db)) ->
   exists e,
     fst (fetchNotionDatabaseSchema env w) = Throw e /\
     cache_file (snd (fetchNotionDatabaseSchema env w)) = cache_file w /\
     cache_writes (trace (snd (fetchNotionDatabaseSchema env w))) = cache_writes (trace w) /\
     last (trace (snd (fetchNotionDatabaseSchema env w)))
       = Some (Console error (ErrorFetchingSchema (message e)))) /\
  (forall status errorText db e,
     database_response env = Reply true status errorText (Json db) ->
     cache_write w = Some e ->
     fst (fetchNotionDatabaseSchema env w) = Throw e /\
     cache_file (snd (fetchNotionDatabaseSchema env w)) = cache_file w /\
     last (trace (snd (fetchNotionDatabaseSchema env w)))
       = Some (Console error (ErrorFetchingSchema (message e)))).
Proof.
  intros Hmiss. rewrite (schema_miss env w Hmiss). cbv zeta. split.
  - intros Hfailed.
    destruct (database_response env) as [e|[|] status errorText [|db]];
      try (exfalso; eapply Hfailed; reflexivity);
      eexists; (split; [reflexivity |]); (split; [reflexivity |]);
      cbn [snd trace add_events];
      (split; [rewrite !cache_writes_app; cbn; now rewrite !app_nil_r | apply last_snoc]).
  - intros status errorText db e Hresp Hwrite. rewrite Hresp, Hwrite.
    split; [reflexivity |]. split; [reflexivity |].
    cbn [snd trace add_events].
    change [WriteCache {| schema := match db_properties db with Some p => p | None => [] end;
                          timestamp := Some (store_clock env) |};
            Console error (ErrorFetchingSchema (message e))]
      with ([WriteCache {| schema := match db_properties db with Some p => p | None => [] end;
                           timestamp := Some (store_clock env) |}]
            ++ [Console error (ErrorFetchingSchema (message e))]).
    rewrite app_assoc. apply last_snoc.
Qed.

(** ** Steps that start no cycle work *)

Lemma requests_app evs1 evs2 : requests (evs1 ++ evs2) = requests evs1 ++ requests evs2.
Proof. apply omap_app. Qed.

Lemma mapped_app evs1 evs2 : mapped (evs1 ++ evs2) = mapped evs1 ++ mapped evs2.
Proof. apply omap_app. Qed.

Lemma lines_logged_app is_line evs1 evs2 :
  lines_logged is_line (evs1 ++ evs2)
  = (lines_logged is_line evs1 + lines_logged is_line evs2)%nat.
Proof. unfold lines_logged. now rewrite List.filter_app, length_app. Qed.

Lemma idle_refl w : idle w w.
Proof. split; [apply quiet_refl | reflexivity]. Qed.

Lemma idle_trans w1 w2 w3 : idle w1 w2 -> idle w2 w3 -> idle w1 w3.
Proof.
  intros [Hq1 Hr1] [Hq2 Hr2]. split; [eapply quiet_trans; eauto | congruence].
Qed.

Lemma idle_emit e :
  state_writes [e] = [] -> posted [e] = [] -> requests [e] = [] ->
  respects idle (emit e).
Proof.
  intros Hw Hp Hr w. split; [now apply (quiet_add_events [e]) |].
  simpl. rewrite requests_app, Hr. apply app_nil_r.
Qed.

Lemma idle_update f :
  (forall w, state_file (f w) = state_file w) ->
  (forall w, state_write (f w) = state_write w) ->
  (forall w, trace (f w) = trace w) ->
  respects idle (update f).
Proof.
  intros Hf Hw Ht w. unfold idle, quiet. simpl. rewrite Hf, Hw, Ht. auto.
Qed.

(** Closes the primitive steps of a computation that is [idle]. *)
Ltac idle_primitives :=
  solve [ apply idle_emit; reflexivity
        | apply idle_update; reflexivity ].

Lemma getter_idle senv : respects idle (fetchNotionDatabaseSchema senv).
Proof.
  unfold fetchNotionDatabaseSchema, readFile_cache, writeFile_cache, fetch_json, console.
  respects_with idle_refl idle_trans ltac:(idle_primitives).
Qed.

Lemma getter_emits_startup senv :
  respects (emits startup_event) (fetchNotionDatabaseSchema senv).
Proof.
  unfold fetchNotionDatabaseSchema, readFile_cache, writeFile_cache, fetch_json, console.
  respects_with (emits_refl startup_event) (emits_trans startup_event)
    ltac:(solve [ apply emits_emit; exact I | apply emits_update; reflexivity ]).
Qed.

Lemma announced_run senv w :
  (console log Starting ;; console log PollInterval ;; console log DatabaseId ;;
   console log FetchingSchema ;; fetchNotionDatabaseSchema senv) w
  = fetchNotionDatabaseSchema senv (announced w).
Proof.
  unfold bind, console, emit, announced. cbn. unfold add_event, add_events. cbn.
  now rewrite <- !app_assoc.
Qed.

(** X4 (start-up without a schema): when the schema getter throws,
    [startPolling] exits with status 1 having done nothing but console
    lines and the getter's own reads, writes and request: no lifelogs are
    requested, no page is posted, and the state file is neither read nor
    written. *)
Theorem failed_start_runs_no_cycle (senv : schema_env) (first : cycle_env)
    (later : list cycle_env) (w : world) (e : js_error) :
  fst (fetchNotionDatabaseSchema senv (announced w)) = Throw e ->
  let run := startPolling senv first later w in
  fst run = Exited 1 /\
  state_file (snd run) = state_file w /\
  requests (trace (snd run)) = requests (trace w) /\
  posted (trace (snd run)) = posted (trace w) /\
  exists evs,
    trace (snd run) = trace w ++ evs /\
    Forall startup_event evs /\
    last evs = Some (Console error CannotContinue).
Proof.
  intros Hthrow. cbv zeta. unfold startPolling. rewrite announced_run.
  destruct (getter_idle senv (announced w)) as ((Hfile & _ & _ & Hposted) & Hrequests).
  destruct (getter_emits_startup senv (announced w)) as (evs & Htrace & Hall).
  destruct (fetchNotionDatabaseSchema senv (announced w)) as [r w1].
  cbn [fst snd] in *. subst r. cbn [fst snd].
  split; [reflexivity |]. split; [exact Hfile |].
  cbn [trace add_event]. rewrite !requests_app, !posted_app, Hrequests, Hposted.
  unfold announced. cbn [trace add_events]. rewrite requests_app, posted_app.
  split; [cbn; now rewrite !app_nil_r |]. split; [cbn; now rewrite !app_nil_r |].
  exists ([Console log Starting; Console log PollInterval; Console log DatabaseId;
           Console log FetchingSchema] ++ evs
          ++ [Console error (FailedSchema (message e))]
          ++ [Console error CannotContinue]).
  split; [| split].
  - rewrite Htrace. unfold announced. cbn [trace add_events].
    now rewrite <- !app_assoc.
  - repeat (apply Forall_app; split); try exact Hall; repeat constructor.
  - rewrite !app_assoc. apply last_snoc.
Qed.

(** ** Cycles that write no record *)

Lemma cycle_load_failure env s w e :
  fst (loadLastSeenTime (now env) w) = Throw e ->
  processNewLifelogs env s w =
    (Ok tt, add_events [Console error (ErrorProcessing (message e))]
              (snd (loadLastSeenTime (now env) w))).
Proof.
  intros Hload. rewrite cycle_run.
  destruct (loadLastSeenTime (now env) w) as [r w0]. cbn [fst snd] in *. now subst r.
Qed.

Lemma unusable_state_load now w :
  unusable_state w ->
  exists e, loadLastSeenTime now w = (Throw e, add_events [ReadFile STATE_FILE] w).
Proof.
  intros [Hf | (c & Hf & Hc)].
  - exists SyntaxError. now apply load_malformed.
  - exists (fs_error c). now apply load_unreadable.
Qed.

Lemma unusable_state_cycle env s w :
  unusable_state w ->
  exists e,
    processNewLifelogs env s w =
      (Ok tt, add_events [ReadFile STATE_FILE;
                          Console error (ErrorProcessing (message e))] w).
Proof.
  intros Hbad. destruct (unusable_state_load (now env) w Hbad) as (e & Hload).
  exists e. rewrite (cycle_load_failure env s w e) by now rewrite Hload.
  rewrite Hload. cbn [snd]. now rewrite add_events_app.
Qed.

(** X5 (a state file that cannot be used): when the load throws, the cycle
    logs the error and returns normally without requesting lifelogs or
    posting; and when the state file does not parse, or its read fails with
    a code other than [ENOENT], every cycle of any sequence does just that:
    the run only adds reads of the state file and one error line per cycle,
    and the file is never repaired. *)
Theorem unusable_state_stalls_sync (s : Schema) :
  (forall env w e,
     fst (loadLastSeenTime (now env) w) = Throw e ->
     processNewLifelogs env s w =
       (Ok tt, add_events [Console error (ErrorProcessing (message e))]
                 (snd (loadLastSeenTime (now env) w)))) /\
  (forall envs w,
     unusable_state w ->
     exists evs,
       snd (ticks s envs w) = add_events evs w /\
       requests evs = [] /\ posted evs = [] /\ state_writes evs = [] /\
       lines_logged is_error_processing evs = length envs).
Proof.
  split; [intros env w e; apply cycle_load_failure |].
  induction envs as [|env rest IH]; intros w Hbad.
  - exists []. cbn [ticks]. unfold ret. cbn [snd]. rewrite add_events_nil. auto.
  - rewrite ticks_cons.
    destruct (unusable_state_cycle env s w Hbad) as (e & Hcycle). rewrite Hcycle. cbn [snd].
    destruct (IH (add_events [ReadFile STATE_FILE;
                              Console error (ErrorProcessing (message e))] w))
      as (evs & Hrun & Hr & Hp & Hs & Hn).
    { destruct Hbad as [Hf | (c & Hf & Hc)]; [left | right; exists c]; auto. }
    exists ([ReadFile STATE_FILE; Console error (ErrorProcessing (message e))] ++ evs).
    rewrite Hrun, add_events_app, requests_app, posted_app, state_writes_app,
      lines_logged_app, Hr, Hp, Hs, Hn.
    repeat split; reflexivity.
Qed.

Lemma omap_none {A B} (f : A -> option B) (l : list A) :
  Forall (fun x => f x = None) l -> omap f l = [].
Proof. induction 1 as [|x l Hx _ IH]; simpl; [reflexivity | now rewrite Hx]. Qed.

(** The effects of the watermark store, of the lifelog fetch and of the
    page creation satisfy any predicate their events satisfy. *)
Lemma load_emits_any (P : event -> Prop) now :
  P (ReadFile STATE_FILE) -> (forall st, P (WriteState st)) ->
  respects (emits P) (loadLastSeenTime now).
Proof.
  intros Hread Hwrite.
  unfold loadLastSeenTime, saveLastSeenTime, readFile_state, writeFile_state.
  respects_with (emits_refl P) (emits_trans P)
    ltac:(solve [ apply emits_emit; auto | apply emits_update; reflexivity ]).
Qed.

Lemma fetch_emits_any {A} (P : event -> Prop) (r : http (json A)) start :
  P (GetLifelogs start) -> (forall lvl ln, P (Console lvl ln)) ->
  respects (emits P) (fetchStarredLifelogs r start).
Proof.
  intros Hget Hconsole.
  unfold fetchStarredLifelogs, fetch_json, console.
  respects_with (emits_refl P) (emits_trans P)
    ltac:(solve [ apply emits_emit; auto | apply emits_update; reflexivity ]).
Qed.

Lemma emits_projection {B} (f : event -> option B) (w w' : world) :
  emits (fun e => f e = None) w w' -> omap f (trace w') = omap f (trace w).
Proof.
  intros (evs & Htrace & Hall). rewrite Htrace, omap_app, (omap_none f evs Hall).
  apply app_nil_r.
Qed.

Lemma load_mapped now w :
  mapped (trace (snd (loadLastSeenTime now w))) = mapped (trace w).
Proof. apply emits_projection, load_emits_any; reflexivity. Qed.

Lemma load_requests now w :
  requests (trace (snd (loadLastSeenTime now w))) = requests (trace w).
Proof. apply emits_projection, load_emits_any; reflexivity. Qed.

Lemma fetch_mapped {A} (r : http (json A)) start w :
  mapped (trace (snd (fetchStarredLifelogs r start w))) = mapped (trace w).
Proof. apply emits_projection, fetch_emits_any; reflexivity. Qed.

(** X6 (empty batch): when the fetch brings no lifelog, the cycle returns
    normally and ends on ['No new starred lifelogs found']; it posts
    nothing, sends nothing to the mapper and leaves the state file as the
    load left it. *)
Theorem empty_batch_is_no_op (env : cycle_env) (s : Schema) (w : world)
    (loaded : string) :
  fst (loadLastSeenTime (now env) w) = Ok loaded ->
  fst (fetchStarredLifelogs (lifelogs_response env) loaded w) = Ok [] ->
  let w0 := snd (loadLastSeenTime (now env) w) in
  let w' := snd (processNewLifelogs env s w) in
  fst (processNewLifelogs env s w) = Ok tt /\
  last (trace w') = Some (Console log NoNewLifelogs) /\
  state_file w' = state_file w0 /\
  state_writes (trace w') = state_writes (trace w0) /\
  posted (trace w') = posted (trace w) /\
  mapped (trace w') = mapped (trace w).
Proof.
  intros Hload Hfetch. cbv zeta.
  rewrite fetch_result in Hfetch.
  destruct (batch_of (lifelogs_response env)) as [b|] eqn:Hbatch; [| discriminate].
  injection Hfetch as ->.
  destruct (load_frame (now env) w) as [_ Hposted].
  pose proof (load_mapped (now env) w) as Hmapped.
  rewrite cycle_run.
  destruct (loadLastSeenTime (now env) w) as [r w0]. cbn [fst snd] in *. subst r.
  rewrite Hbatch. cbn [fst snd].
  destruct (after_fetch_quiet env loaded w0) as (Hf & _ & Hs & Hp).
  split; [reflexivity |]. cbn [trace state_file add_events].
  split; [apply last_snoc |]. split; [exact Hf |].
  rewrite state_writes_app, posted_app, mapped_app, Hs, Hp, Hposted.
  unfold after_fetch. rewrite fetch_mapped. cbn [trace add_events].
  rewrite mapped_app, Hmapped. cbn. now rewrite !app_nil_r.
Qed.

(** ** The request of a cycle *)

Lemma fetch_requests {A} (r : http (json A)) start w :
  requests (trace (snd (fetchStarredLifelogs r start w))) = requests (trace w) ++ [start].
Proof.
  destruct r as [e|[|] status errorText [|data]];
    try (cbn; rewrite <- ?app_assoc, !requests_app; cbn; now rewrite ?app_nil_r).
  rewrite fetch_parsed. cbv zeta.
  assert (Hbase : requests (trace (describe_response (add_events [GetLifelogs start] w)))
                  = requests (trace w) ++ [start]).
  { unfold describe_response. cbn [_limitlessApiResponseLogged add_events].
    destruct (_limitlessApiResponseLogged w);
      cbn [trace add_events set_response_logged]; rewrite !requests_app; cbn;
      now rewrite ?app_nil_r. }
  destruct data; cbn [snd trace add_events]; rewrite ?requests_app, ?Hbase; cbn;
    rewrite ?app_nil_r; try reflexivity.
  destruct (select_array (JObj fields)); cbn [snd]; [exact Hbase |].
  unfold warn_structure.
  destruct (_limitlessApiWarningShown _); [exact Hbase |].
  cbn [trace add_events set_warning_shown]. rewrite requests_app, Hbase.
  destruct (json_truthy _); cbn; now rewrite app_nil_r.
Qed.

Lemma page_requests env l s : requests (page_events env s l) = [].
Proof. unfold page_events. page_cases env; reflexivity. Qed.

Lemma lifelog_events_requests env s l : requests (lifelog_events env s l) = [].
Proof.
  unfold lifelog_events. cbv zeta. rewrite !requests_app, page_requests.
  now destruct (accepted env).
Qed.

Lemma loop_events_requests envs s ls : forall i, requests (loop_events envs s i ls) = [].
Proof.
  induction ls as [|l rest IH]; intros i; cbn [loop_events]; [reflexivity |].
  now rewrite requests_app, lifelog_events_requests, IH.
Qed.

Lemma after_fetch_requests env loaded w0 :
  requests (trace (after_fetch env loaded w0)) = requests (trace w0) ++ [loaded].
Proof.
  unfold after_fetch. rewrite fetch_requests. cbn [trace add_events].
  rewrite requests_app. cbn. now rewrite app_nil_r.
Qed.

Lemma after_loop_requests env s loaded lifelogs w0 :
  requests (trace (after_loop env s loaded lifelogs w0)) = requests (trace w0) ++ [loaded].
Proof.
  unfold after_loop. cbn [trace add_events].
  change (Console log (Found (length lifelogs)) :: loop_events (pages env) s 0 lifelogs)
    with ([Console log (Found (length lifelogs))] ++ loop_events (pages env) s 0 lifelogs).
  rewrite !requests_app, loop_events_requests, after_fetch_requests. cbn.
  now rewrite !app_nil_r.
Qed.

Lemma cycle_requests env s w loaded :
  fst (loadLastSeenTime (now env) w) = Ok loaded ->
  requests (trace (snd (processNewLifelogs env s w))) = requests (trace w) ++ [loaded].
Proof.
  intros Hload. pose proof (load_requests (now env) w) as Hr0.
  rewrite cycle_run.
  destruct (loadLastSeenTime (now env) w) as [r w0]. cbn [fst snd] in *. subst r.
  destruct (batch_of (lifelogs_response env)) as [[|l rest]|].
  - cbn [snd trace add_events]. rewrite requests_app, after_fetch_requests, Hr0. cbn.
    now rewrite app_nil_r.
  - cbv zeta.
    pose proof (after_loop_requests env s loaded (l :: rest) w0) as Hr3.
    destruct (succeeded _ _ _) as [|l' written'].
    + cbn [snd trace add_events]. rewrite requests_app, Hr3, Hr0. cbn.
      now rewrite app_nil_r.
    + destruct (state_write _); cbn [snd trace add_events set_state_file];
        rewrite !requests_app, Hr3, Hr0; cbn; now rewrite ?app_nil_r.
  - cbn [snd trace add_events]. rewrite requests_app, after_fetch_requests, Hr0. cbn.
    now rewrite app_nil_r.
Qed.

(** X7 (the request of a cycle): a cycle whose load returns sends exactly
    one lifelog request, and its [start] parameter is the watermark the
    load returned: the stored one when the state file holds one, the
    clock reading when the file holds none; a cycle whose load throws
    sends no request. *)
Theorem cycle_requests_from_watermark (env : cycle_env) (s : Schema) (w : world) :
  let w' := snd (processNewLifelogs env s w) in
  (forall loaded,
     fst (loadLastSeenTime (now env) w) = Ok loaded ->
     requests (trace w') = requests (trace w) ++ [loaded]) /\
  (forall v, persisted w = Some v -> requests (trace w') = requests (trace w) ++ [v]) /\
  (forall st,
     state_file w = Stored (Json st) -> truthy (lastSeenTime st) = false ->
     requests (trace w') = requests (trace w) ++ [now env]) /\
  (forall e,
     fst (loadLastSeenTime (now env) w) = Throw e ->
     requests (trace w') = requests (trace w)).
Proof.
  cbv zeta. split; [| split; [| split]].
  - intros loaded. apply cycle_requests.
  - intros v Hv. apply cycle_requests. now apply load_returns_persisted.
  - intros st Hf Hfalsy. apply cycle_requests.
    rewrite (load_found (now env) st w Hf). cbn [fst].
    now rewrite js_or_default_falsy.
  - intros e Hload. rewrite (cycle_load_failure env s w e Hload).
    cbn [snd trace add_events]. rewrite requests_app, load_requests. cbn.
    apply app_nil_r.
Qed.

(** ** Cycles and the watermark of the next request *)

Lemma cycle_without_record env s w loaded :
  fst (loadLastSeenTime (now env) w) = Ok loaded ->
  no_record_written env ->
  state_file (snd (processNewLifelogs env s w))
    = state_file (snd (loadLastSeenTime (now env) w)) /\
  state_writes (trace (snd (processNewLifelogs env s w)))
    = state_writes (trace (snd (loadLastSeenTime (now env) w))).
Proof.
  intros Hload Hnone. unfold no_record_written in Hnone. rewrite cycle_run.
  destruct (loadLastSeenTime (now env) w) as [r w0]. cbn [fst snd] in *. subst r.
  destruct (after_fetch_quiet env loaded w0) as (Hf & _ & Hs & _).
  destruct (batch_of (lifelogs_response env)) as [[|l rest]|].
  - cbn [snd state_file trace add_events]. rewrite state_writes_app, Hs. cbn.
    now rewrite app_nil_r.
  - cbv zeta. rewrite Hnone.
    destruct (after_loop_frame env s loaded (l :: rest) w0) as (Hf3 & _ & Hs3 & _).
    cbn [snd state_file trace add_events]. rewrite state_writes_app, Hs3. cbn.
    now rewrite app_nil_r.
  - cbn [snd state_file trace add_events]. rewrite state_writes_app, Hs. cbn.
    now rewrite app_nil_r.
Qed.

(** X8 (a cycle without progress): when the state file holds a watermark
    and a cycle writes no record (its fetch fails, or brings nothing, or
    every page is refused), the cycle leaves the state file as it found it
    and hands nothing to it, and the next cycle, whatever it reads, sends
    its request with the same watermark again. *)
Theorem stalled_cycle_repeats_request (env next : cycle_env) (s : Schema) (w : world)
    (v : string) :
  persisted w = Some v ->
  no_record_written env ->
  let w1 := snd (processNewLifelogs env s w) in
  state_file w1 = state_file w /\
  state_writes (trace w1) = state_writes (trace w) /\
  persisted w1 = Some v /\
  requests (trace (snd (processNewLifelogs next s w1))) = requests (trace w) ++ [v; v].
Proof.
  intros Hv Hnone. cbv zeta.
  pose proof (load_returns_persisted (now env) v w Hv) as Hload.
  destruct (cycle_without_record env s w v Hload Hnone) as [Hf Hs].
  assert (Hfound : exists st, state_file w = Stored (Json st)).
  { unfold persisted in Hv. destruct (state_file w) as [c|[|st]]; try discriminate.
    now exists st. }
  destruct Hfound as (st & Hst).
  rewrite (load_found (now env) st w Hst) in Hf, Hs. cbn [snd state_file trace add_events] in Hf, Hs.
  rewrite state_writes_app in Hs. cbn in Hs. rewrite app_nil_r in Hs.
  assert (Hv1 : persisted (snd (processNewLifelogs env s w)) = Some v).
  { rewrite <- Hv. now apply persisted_same_file. }
  split; [exact Hf |]. split; [exact Hs |]. split; [exact Hv1 |].
  rewrite (cycle_requests next s _ v (load_returns_persisted (now next) v _ Hv1)).
  rewrite (cycle_requests env s w v Hload), <- app_assoc. reflexivity.
Qed.

Lemma succeeded_nth envs ls : forall i j g,
  nth_error ls j = Some g -> accepted (envs (i + j)%nat) = true ->
  In g (succeeded envs i ls).
Proof.
  induction ls as [|l rest IH]; intros i [|j] g Hnth Hacc; cbn in Hnth; try discriminate.
  - injection Hnth as ->. rewrite Nat.add_0_r in Hacc. cbn [succeeded]. rewrite Hacc.
    now left.
  - cbn [succeeded]. apply in_or_app. right. apply (IH (S i) j); [exact Hnth |].
    now replace (S i + j)%nat with (i + S j)%nat by lia.
Qed.

Lemma effective_written (written : list lifelog) g tg :
  In g written -> effective g = Some tg -> In tg (omap effective written).
Proof.
  intros Hin Heff. induction written as [|l rest IH]; [destruct Hin |].
  cbn [omap list_omap]. destruct Hin as [-> | Hin].
  - rewrite Heff. now left.
  - destruct (effective l); [right |]; now apply IH.
Qed.

Lemma js_gt_above a b c : js_gt a b = true -> ts_le a c -> js_gt c b = true.
Proof.
  intros Hab Hac. destruct (js_gt c b) eqn:Hcb; [reflexivity |].
  pose proof (ts_le_trans a c b Hac Hcb) as Hle. unfold ts_le in Hle. congruence.
Qed.

(** X9 (the watermark passes a refused record): when a record of the batch
    is refused and a record of the same batch with a greater effective
    timestamp is written, and the disk takes the write, the cycle leaves
    in the state file a watermark strictly above the timestamp of the
    refused record, and the next cycle requests lifelogs from that
    watermark on. *)
Theorem watermark_passes_refused_record (env next : cycle_env) (s : Schema) (w : world)
    (loaded : string) (lifelogs : list lifelog) (i j : nat) (f g : lifelog)
    (tf tg : string) :
  fst (loadLastSeenTime (now env) w) = Ok loaded ->
  fst (fetchStarredLifelogs (lifelogs_response env) loaded w) = Ok lifelogs ->
  nth_error lifelogs i = Some f -> accepted (pages env i) = false ->
  nth_error lifelogs j = Some g -> accepted (pages env j) = true ->
  effective f = Some tf -> effective g = Some tg ->
  js_gt tg tf = true ->
  state_write w = None ->
  let w' := snd (processNewLifelogs env s w) in
  exists m,
    persisted w' = Some m /\
    js_gt m tf = true /\
    posted (trace w') = posted (trace w) ++ lifelogs /\
    requests (trace (snd (processNewLifelogs next s w'))) = requests (trace w') ++ [m].
Proof.
  intros Hload Hfetch Hf Hrefused Hg Haccepted Htf Htg Hgt Hwrite. cbv zeta.
  assert (Hne : lifelogs <> []) by (intros ->; destruct j; discriminate).
  pose proof (succeeded_nth (pages env) lifelogs 0 j g Hg Haccepted) as Hin.
  destruct (cycle_over_batch env s w loaded lifelogs Hload Hfetch Hne)
    as (_ & Hposted & Hsome & _).
  destruct Hsome as (m & [_ Hmax] & _ & Hfile).
  { intros Hnil. rewrite Hnil in Hin. destruct Hin. }
  specialize (Hfile Hwrite).
  assert (Hm : js_gt m tf = true).
  { apply (js_gt_above tg tf m Hgt). apply Hmax. right.
    now apply (effective_written _ g). }
  assert (Hv : persisted (snd (processNewLifelogs env s w)) = Some m).
  { apply persisted_stored; [exact Hfile |]. intros ->. unfold js_gt in Hm. destruct tf; discriminate Hm. }
  exists m. split; [exact Hv |]. split; [exact Hm |]. split; [exact Hposted |].
  apply cycle_requests. now apply load_returns_persisted.
Qed.

(** ** The page of a lifelog *)

(** X10 (one page per lifelog): whatever the mapper and the destination
    answer, [createNotionPage] changes nothing but the trace, to which it
    adds exactly one POST and at most one call of the mapper.  The lifelog
    is sent to the mapper
    exactly when the client exists; the page posted carries the answer of
    the mapper as it is, also when it names a property the schema does not
    have, and the basic mapping when the mapper gives no parsed answer; its
    children are one paragraph with the markdown, if there is some, and
    never the plain text. *)
Theorem page_is_posted_once (env : page_env) (l : lifelog) (s : Schema) (w : world) :
  let evs := page_events env s l in
  snd (createNotionPage env l s w) = add_events evs w /\
  pages_posted evs =
    [{| properties := mapping_of env l s; children := markdown_blocks l |}] /\
  posted evs = [l] /\
  mapped evs = (if openai env then [l] else []) /\
  (forall p,
     openai env = true -> mapper env = Content (Json p) ->
     map properties (pages_posted evs) = [p]) /\
  (markdown l = None -> map children (pages_posted evs) = [[]]).
Proof.
  cbv zeta. rewrite page_run. cbn [snd].
  assert (Hpage : pages_posted (page_events env s l) =
                  [{| properties := mapping_of env l s; children := markdown_blocks l |}]).
  { unfold page_events, mapping_of, markdown_blocks. page_cases env; reflexivity. }
  split; [reflexivity |]. split; [exact Hpage |].
  split; [apply page_posted |].
  split; [unfold page_events; page_cases env; reflexivity |].
  rewrite Hpage. unfold mapping_of, markdown_blocks. split.
  - intros p -> ->. reflexivity.
  - intros ->. reflexivity.
Qed.

(** ** A watermark the disk refuses *)

(** X11 (the watermark write is refused): when records of the batch have
    been written but the disk refuses the new watermark, the cycle still
    returns normally and every record of the batch stays posted; it ends
    on the ['Error processing lifelogs'] line, the state file is as the
    load left it, and the next cycle requests lifelogs from the old
    watermark again. *)
Theorem refused_watermark_write (env next : cycle_env) (s : Schema) (w : world)
    (loaded : string) (lifelogs : list lifelog) (e : js_error) :
  fst (loadLastSeenTime (now env) w) = Ok loaded ->
  fst (fetchStarredLifelogs (lifelogs_response env) loaded w) = Ok lifelogs ->
  succeeded (pages env) 0 lifelogs <> [] ->
  state_write w = Some e ->
  let w0 := snd (loadLastSeenTime (now env) w) in
  let w' := snd (processNewLifelogs env s w) in
  fst (processNewLifelogs env s w) = Ok tt /\
  posted (trace w') = posted (trace w) ++ lifelogs /\
  state_file w' = state_file w0 /\
  last (trace w') = Some (Console error (ErrorProcessing (message e))) /\
  (forall v,
     persisted w = Some v ->
     requests (trace (snd (processNewLifelogs next s w'))) = requests (trace w') ++ [v]).
Proof.
  intros Hload Hfetch Hwritten Hwrite. cbv zeta.
  rewrite fetch_result in Hfetch.
  destruct (batch_of (lifelogs_response env)) as [b|] eqn:Hbatch; [| discriminate].
  injection Hfetch as ->.
  destruct (load_frame (now env) w) as [Hsw Hposted].
  assert (Hkeep : forall v, persisted w = Some v ->
                            persisted (snd (loadLastSeenTime (now env) w)) = Some v)
    by (intros v; apply load_keeps_persisted).
  assert (Hfile : state_file (snd (processNewLifelogs env s w))
                  = state_file (snd (loadLastSeenTime (now env) w)) /\
                  fst (processNewLifelogs env s w) = Ok tt /\
                  posted (trace (snd (processNewLifelogs env s w)))
                  = posted (trace w) ++ lifelogs /\
                  last (trace (snd (processNewLifelogs env s w)))
                  = Some (Console error (ErrorProcessing (message e)))).
  { rewrite cycle_run.
    destruct (loadLastSeenTime (now env) w) as [r w0]. cbn [fst snd] in *. subst r.
    rewrite Hbatch.
    destruct lifelogs as [|l rest]; [now contradiction Hwritten |]. cbv zeta.
    destruct (after_loop_frame env s loaded (l :: rest) w0) as (Hf3 & Hw3 & _ & Hp3).
    destruct (succeeded (pages env) 0 (l :: rest)) as [|l' written'];
      [now contradiction Hwritten |].
    rewrite Hw3, Hsw, Hwrite. cbn [fst snd state_file trace add_events].
    split; [exact Hf3 |]. split; [reflexivity |]. split.
    - rewrite posted_app, Hp3, Hposted. cbn. now rewrite app_nil_r.
    - change [WriteState {| lastSeenTime := Some (fold_left advance (l' :: written') loaded) |};
              Console error (ErrorProcessing (message e))]
        with ([WriteState {| lastSeenTime := Some (fold_left advance (l' :: written') loaded) |}]
              ++ [Console error (ErrorProcessing (message e))]).
      rewrite app_assoc. apply last_snoc. }
  destruct Hfile as (Hfile & Hret & Hp & Hlast).
  split; [exact Hret |]. split; [exact Hp |]. split; [exact Hfile |].
  split; [exact Hlast |].
  intros v Hv. apply cycle_requests, load_returns_persisted.
  rewrite <- (Hkeep v Hv). now apply persisted_same_file.
Qed.

(** ** The requests of a run *)

Lemma ticks_requests s envs : forall w v,
  persisted w = Some v ->
  exists starts,
    requests (trace (snd (ticks s envs w))) = requests (trace w) ++ starts /\
    length starts = length envs /\
    StronglySorted ts_le (v :: starts).
Proof.
  induction envs as [|env rest IH]; intros w v Hv.
  - exists []. cbn [ticks]. unfold ret. cbn [snd]. rewrite app_nil_r.
    split; [reflexivity |]. split; [reflexivity |]. repeat constructor.
  - rewrite ticks_cons.
    destruct (cycle_keeps_watermark env s w v Hv) as (v' & Hv' & Hle).
    destruct (IH _ v' Hv') as (starts & Hreq & Hlen & Hsorted).
    exists (v :: starts). rewrite Hreq.
    rewrite (cycle_requests env s w v (load_returns_persisted (now env) v w Hv)).
    rewrite <- app_assoc. split; [reflexivity |]. split; [cbn; now rewrite Hlen |].
    apply StronglySorted_inv in Hsorted. destruct Hsorted as [Hrest Hall].
    assert (Hfrom : Forall (ts_le v) starts).
    { eapply List.Forall_impl; [| exact Hall]. intros x Hx. now apply (ts_le_trans v v' x). }
    constructor; [constructor; assumption |].
    constructor; [apply ts_le_refl | exact Hfrom].
Qed.

(** X12 (requests never go back): in any sequence of cycles that starts
    with a watermark in the state file, every cycle sends one lifelog
    request, the first one from the stored watermark, and the [start]
    parameters of the requests never decrease in the order of JavaScript
    strings, whatever the responses, the page creations and the disk
    do. *)
Theorem requests_never_go_back (s : Schema) (envs : list cycle_env) (w : world)
    (v : string) :
  persisted w = Some v ->
  exists starts,
    requests (trace (snd (ticks s envs w))) = requests (trace w) ++ starts /\
    length starts = length envs /\
    head starts = match envs with [] => None | _ :: _ => Some v end /\
    StronglySorted ts_le starts.
Proof.
  intros Hv. destruct envs as [|env rest].
  - exists []. cbn [ticks]. unfold ret. cbn [snd]. rewrite app_nil_r.
    repeat split; constructor.
  - rewrite ticks_cons.
    destruct (cycle_keeps_watermark env s w v Hv) as (v' & Hv' & Hle).
    destruct (ticks_requests s rest _ v' Hv') as (starts & Hreq & Hlen & Hsorted).
    exists (v :: starts). rewrite Hreq.
    rewrite (cycle_requests env s w v (load_returns_persisted (now env) v w Hv)).
    rewrite <- app_assoc. split; [reflexivity |]. split; [cbn; now rewrite Hlen |].
    split; [reflexivity |].
    apply StronglySorted_inv in Hsorted. destruct Hsorted as [Hrest Hall].
    constructor; [exact Hrest |].
    eapply List.Forall_impl; [| exact Hall]. intros x Hx. now apply (ts_le_trans v v' x).
Qed.

(** ** Edge cases of the schema getter *)

(** X13 (schema edge cases): a cache file without a timestamp is never
    used, whatever the clock reads: the database is requested; and a
    database response without [properties] makes the getter return and
    cache the empty schema, for which the basic mapping of every lifelog
    is the [Title] property alone. *)
Theorem getter_edge_cases (senv : schema_env) (w : world) :
  (forall c,
     cache_file w = Stored (Json c) -> timestamp c = None ->
     exists rest,
       trace (snd (fetchNotionDatabaseSchema senv w)) =
         trace w ++ [ReadFile SCHEMA_CACHE_FILE; GetDatabase] ++ rest) /\
  (forall status errorText db,
     cache_miss (check_clock senv) (cache_file w) ->
     database_response senv = Reply true status errorText (Json db) ->
     db_properties db = None ->
     cache_write w = None ->
     fst (fetchNotionDatabaseSchema senv w) = Ok [] /\
     cache_file (snd (fetchNotionDatabaseSchema senv w)) =
       Stored (Json {| schema := []; timestamp := Some (store_clock senv) |}) /\
     forall l : lifelog,
       fallback l [] = {[ "Title" := title_value (js_or_default (title l) "Untitled") ]}).
Proof.
  split.
  - intros c Hf Ht.
    assert (Hmiss : cache_miss (check_clock senv) (cache_file w)).
    { rewrite Hf. unfold cache_miss, fresh. now rewrite Ht. }
    rewrite (schema_miss senv w Hmiss). cbv zeta.
    destruct (database_response senv) as [e|[|] status errorText [|db]];
      cbn [snd trace add_events];
      try (eexists; rewrite <- app_assoc; reflexivity).
    destruct (cache_write w); cbn [snd trace add_events set_cache_file];
      eexists; rewrite <- !app_assoc; reflexivity.
  - intros status errorText db Hmiss Hresp Hnone Hwrite.
    rewrite (schema_miss senv w Hmiss). cbv zeta. rewrite Hresp, Hwrite, Hnone.
    split; [reflexivity |]. split; [reflexivity |].
    intros l. unfold fallback. cbn [find_rich_text map find].
    now destruct (truthy (markdown l) || truthy (text l)).
Qed.

(** ** Configuration *)

Lemma maps_refl w : maps_what_it_posts w w.
Proof. exists []. split; [now rewrite app_nil_r | reflexivity]. Qed.

Lemma maps_trans w1 w2 w3 :
  maps_what_it_posts w1 w2 -> maps_what_it_posts w2 w3 -> maps_what_it_posts w1 w3.
Proof.
  intros (evs1 & H1 & Hm1) (evs2 & H2 & Hm2). exists (evs1 ++ evs2).
  split; [now rewrite H2, H1, app_assoc |].
  now rewrite mapped_app, posted_app, Hm1, Hm2.
Qed.

Lemma maps_add_events evs w :
  mapped evs = posted evs -> maps_what_it_posts w (add_events evs w).
Proof. intros Hevs. now exists evs. Qed.

Lemma maps_emit e : mapped [e] = posted [e] -> respects maps_what_it_posts (emit e).
Proof. intros He w. now apply (maps_add_events [e]). Qed.

Lemma maps_update f :
  (forall w, trace (f w) = trace w) -> respects maps_what_it_posts (update f).
Proof. intros Hf w. exists []. split; [cbn; now rewrite Hf, app_nil_r | reflexivity]. Qed.

(** Takes a computation apart and closes its steps with the primitives and
    the hypotheses at hand. *)
Ltac maps_steps :=
  respects_with maps_refl maps_trans
    ltac:(solve [ apply maps_emit; reflexivity
                | apply maps_update; reflexivity
                | auto ]).

Lemma load_maps now : respects maps_what_it_posts (loadLastSeenTime now).
Proof.
  unfold loadLastSeenTime, saveLastSeenTime, readFile_state, writeFile_state. maps_steps.
Qed.

Lemma save_maps ts : respects maps_what_it_posts (saveLastSeenTime ts).
Proof. unfold saveLastSeenTime, writeFile_state. maps_steps. Qed.

Lemma fetch_maps {A} (r : http (json A)) start :
  respects maps_what_it_posts (fetchStarredLifelogs r start).
Proof. unfold fetchStarredLifelogs, fetch_json, console. maps_steps. Qed.

Lemma getter_maps senv : respects maps_what_it_posts (fetchNotionDatabaseSchema senv).
Proof.
  unfold fetchNotionDatabaseSchema, readFile_cache, writeFile_cache, fetch_json, console.
  maps_steps.
Qed.

Lemma page_maps env l s :
  openai env = true -> respects maps_what_it_posts (createNotionPage env l s).
Proof.
  intros Hclient w. rewrite page_run. apply maps_add_events.
  unfold page_events. revert Hclient.
  page_cases env; intros Hclient; try discriminate Hclient; reflexivity.
Qed.

Lemma process_lifelog_maps env s l locals :
  openai env = true -> respects maps_what_it_posts (process_lifelog env s l locals).
Proof.
  intros Hclient. pose proof (page_maps env l s Hclient) as Hpage.
  unfold process_lifelog, console. destruct locals as [m n]. maps_steps.
Qed.

Lemma for_of_maps envs s lifelogs :
  (forall i, openai (envs i) = true) ->
  forall i locals, respects maps_what_it_posts (for_of envs s i lifelogs locals).
Proof.
  intros Hclient.
  induction lifelogs as [|l rest IH]; intros i locals; cbn [for_of].
  - apply (respects_ret _ maps_refl).
  - apply (respects_bind _ maps_trans); [now apply process_lifelog_maps | intros ?; apply IH].
Qed.

Lemma cycle_maps env s :
  (forall i, openai (pages env i) = true) ->
  respects maps_what_it_posts (processNewLifelogs env s).
Proof.
  intros Hclient.
  pose proof (for_of_maps (pages env) s) as Hloop.
  pose proof load_maps as Hload. pose proof save_maps as Hsave.
  pose proof (@fetch_maps lifelog) as Hfetch.
  unfold processNewLifelogs, console. maps_steps.
Qed.

Lemma ticks_maps s envs :
  Forall (fun env => forall i, openai (pages env i) = true) envs ->
  respects maps_what_it_posts (ticks s envs).
Proof.
  induction 1 as [|env rest Hclient _ IH]; cbn [ticks].
  - apply (respects_ret _ maps_refl).
  - apply (respects_bind _ maps_trans); [now apply cycle_maps | intros ?; exact IH].
Qed.

Lemma truthy_missing vars :
  missing_variable vars = None ->
  truthy (LIMITLESS_API_KEY vars) = true /\ truthy (NOTION_API_KEY vars) = true /\
  truthy (NOTION_DATABASE_ID vars) = true /\ truthy (OPENAI_API_KEY vars) = true.
Proof.
  unfold missing_variable.
  destruct (truthy (LIMITLESS_API_KEY vars)), (truthy (NOTION_API_KEY vars)),
    (truthy (NOTION_DATABASE_ID vars)), (truthy (OPENAI_API_KEY vars));
    cbn; intros H; try discriminate H; auto.
Qed.

(** X14 (configuration): the module stops before [startPolling] at the
    first of [LIMITLESS_API_KEY], [NOTION_API_KEY], [NOTION_DATABASE_ID]
    and [OPENAI_API_KEY], in this order, that is absent or empty; a
    process that reaches [startPolling] has all four, so its OpenAI client
    exists, and over its whole run every lifelog it posts has been sent to
    the mapper first, in the same order. *)
Theorem configuration_is_required (vars : environment) (senv : schema_env)
    (first : cycle_env) (later : list cycle_env) (w : world) :
  (truthy (LIMITLESS_API_KEY vars) = false ->
   main vars senv first later w = ConfigError "LIMITLESS_API_KEY") /\
  (truthy (LIMITLESS_API_KEY vars) = true -> truthy (NOTION_API_KEY vars) = false ->
   main vars senv first later w = ConfigError "NOTION_API_KEY") /\
  (truthy (LIMITLESS_API_KEY vars) = true -> truthy (NOTION_API_KEY vars) = true ->
   truthy (NOTION_DATABASE_ID vars) = false ->
   main vars senv first later w = ConfigError "NOTION_DATABASE_ID") /\
  (truthy (LIMITLESS_API_KEY vars) = true -> truthy (NOTION_API_KEY vars) = true ->
   truthy (NOTION_DATABASE_ID vars) = true -> truthy (OPENAI_API_KEY vars) = false ->
   main vars senv first later w = ConfigError "OPENAI_API_KEY") /\
  (forall run,
     main vars senv first later w = Started run ->
     (truthy (LIMITLESS_API_KEY vars) = true /\ truthy (NOTION_API_KEY vars) = true /\
      truthy (NOTION_DATABASE_ID vars) = true /\ truthy (OPENAI_API_KEY vars) = true) /\
     maps_what_it_posts w (snd run)).
Proof.
  unfold main, missing_variable.
  split; [now intros -> |]. split; [now intros -> -> |].
  split; [now intros -> -> -> |]. split; [now intros -> -> -> -> |].
  intros run. fold (missing_variable vars).
  destruct (missing_variable vars) as [variable|] eqn:Hmissing; [discriminate |].
  destruct (truthy_missing vars Hmissing) as (HL & HN & HD & HO).
  intros [= <-]. split; [auto |]. rewrite HO.
  unfold startPolling. rewrite announced_run.
  pose proof (getter_maps senv (announced w)) as Hgetter.
  assert (Hannounced : maps_what_it_posts w (announced w))
    by (apply maps_add_events; reflexivity).
  destruct (fetchNotionDatabaseSchema senv (announced w)) as [[s|e] w1]; cbn [snd] in Hgetter.
  - assert (Hrun : respects maps_what_it_posts
                     (console log (SchemaLoaded (length s)) ;;
                      processNewLifelogs (with_client true first) s ;;
                      ticks s (map (with_client true) later))).
    { apply (respects_bind _ maps_trans); [apply maps_emit; reflexivity | intros ?].
      apply (respects_bind _ maps_trans); [now apply cycle_maps | intros ?].
      apply ticks_maps. apply List.Forall_forall. intros env Hin.
      apply in_map_iff in Hin. destruct Hin as (env0 & <- & _). reflexivity. }
    specialize (Hrun w1).
    destruct ((console log (SchemaLoaded (length s)) ;;
               processNewLifelogs (with_client true first) s ;;
               ticks s (map (with_client true) later)) w1) as [[u|e] w2]; cbn [snd] in *.
    + eapply maps_trans; [exact Hannounced |]. eapply maps_trans; eassumption.
    + eapply maps_trans; [exact Hannounced |]. eapply maps_trans; [exact Hgetter |].
      eapply maps_trans; [exact Hrun |]. apply (maps_add_events [_]). reflexivity.
  - cbn [snd]. eapply maps_trans; [exact Hannounced |].
    eapply maps_trans; [exact Hgetter |].
    rewrite !add_event_events, add_events_app. apply maps_add_events. reflexivity.
Qed.

(** ** The two one-time diagnostics *)

Lemma latched_refl flag is_line w : latched flag is_line w w.
Proof. unfold latched. destruct (flag w) eqn:Hflag; auto. Qed.

Lemma latched_trans flag is_line w1 w2 w3 :
  latched flag is_line w1 w2 -> latched flag is_line w2 w3 -> latched flag is_line w1 w3.
Proof.
  unfold latched.
  destruct (flag w1), (flag w2); intros H1 H2;
    repeat match goal with
           | H : _ /\ _ |- _ => destruct H
           | H : _ \/ _ |- _ => destruct H
           end; try discriminate; try (split; congruence);
    solve [ left; split; congruence | right; split; congruence ].
Qed.

Lemma latches_refl w : latches w w.
Proof. split; apply latched_refl. Qed.

Lemma latches_trans w1 w2 w3 : latches w1 w2 -> latches w2 w3 -> latches w1 w3.
Proof. intros [Ha1 Hb1] [Ha2 Hb2]. split; eapply latched_trans; eassumption. Qed.

Lemma unflagged_latches w w' : unflagged w w' -> latches w w'.
Proof.
  intros (Hlogged & Hshown & Hlines1 & Hlines2). unfold latches, latched.
  rewrite Hlogged, Hshown.
  split; [destruct (_limitlessApiResponseLogged w) | destruct (_limitlessApiWarningShown w)];
    auto.
Qed.

Lemma latches_add_events evs w :
  lines_logged is_response_structure evs = 0%nat ->
  lines_logged is_unexpected_structure evs = 0%nat ->
  latches w (add_events evs w).
Proof.
  intros H1 H2. apply unflagged_latches. unfold unflagged. cbn [trace add_events
    _limitlessApiResponseLogged _limitlessApiWarningShown].
  rewrite !lines_logged_app, H1, H2. auto.
Qed.

Lemma latches_emit e :
  lines_logged is_response_structure [e] = 0%nat ->
  lines_logged is_unexpected_structure [e] = 0%nat ->
  respects latches (emit e).
Proof. intros H1 H2 w. now apply (latches_add_events [e]). Qed.

Lemma latches_update f :
  (forall w, _limitlessApiResponseLogged (f w) = _limitlessApiResponseLogged w) ->
  (forall w, _limitlessApiWarningShown (f w) = _limitlessApiWarningShown w) ->
  (forall w, trace (f w) = trace w) ->
  respects latches (update f).
Proof.
  intros H1 H2 Ht w. apply unflagged_latches. unfold unflagged. cbn [snd update].
  now rewrite H1, H2, Ht.
Qed.

Lemma describe_response_latches w : latches w (describe_response w).
Proof.
  unfold describe_response, latches, latched.
  destruct (_limitlessApiResponseLogged w) eqn:Hlogged.
  - rewrite Hlogged. split; [auto |]. destruct (_limitlessApiWarningShown w); auto.
  - cbn [_limitlessApiResponseLogged _limitlessApiWarningShown set_response_logged
         add_events trace].
    rewrite !lines_logged_app. cbn. split.
    + right. split; [reflexivity | lia].
    + rewrite Nat.add_0_r. destruct (_limitlessApiWarningShown w); auto.
Qed.

Lemma warn_structure_latches {A} (data : json A) w : latches w (warn_structure data w).
Proof.
  unfold warn_structure, latches, latched.
  destruct (_limitlessApiWarningShown w) eqn:Hshown.
  - rewrite Hshown. split; [| auto]. destruct (_limitlessApiResponseLogged w); auto.
  - cbn [_limitlessApiResponseLogged _limitlessApiWarningShown set_warning_shown
         add_events trace].
    rewrite !lines_logged_app. split.
    + destruct (json_truthy _); cbn; rewrite Nat.add_0_r;
        destruct (_limitlessApiResponseLogged w); auto.
    + right. split; [reflexivity |]. destruct (json_truthy _); cbn; lia.
Qed.

Lemma fetch_latches {A} (r : http (json A)) start :
  respects latches (fetchStarredLifelogs r start).
Proof.
  intros w. destruct r as [e|[|] status errorText [|data]].
  - cbn -[add_event]. rewrite !add_event_events, add_events_app.
    now apply latches_add_events.
  - cbn -[add_event]. rewrite !add_event_events, add_events_app.
    now apply latches_add_events.
  - rewrite fetch_parsed. cbv zeta.
    assert (Hbase : latches w (describe_response (add_events [GetLifelogs start] w))).
    { eapply latches_trans; [| apply describe_response_latches].
      now apply latches_add_events. }
    destruct data; cbn [snd]; try exact Hbase;
      try (eapply latches_trans; [exact Hbase |]; now apply latches_add_events).
    destruct (select_array (JObj fields)); cbn [snd]; [exact Hbase |].
    eapply latches_trans; [exact Hbase | apply warn_structure_latches].
  - cbn -[add_event]. rewrite !add_event_events, add_events_app.
    now apply latches_add_events.
  - cbn -[add_event]. rewrite !add_event_events, add_events_app.
    now apply latches_add_events.
Qed.

(** Takes a computation apart and closes its steps with the primitives and
    the hypotheses at hand. *)
Ltac latches_steps :=
  respects_with latches_refl latches_trans
    ltac:(solve [ apply latches_emit; reflexivity
                | apply latches_update; reflexivity
                | auto ]).

Lemma load_latches now : respects latches (loadLastSeenTime now).
Proof.
  unfold loadLastSeenTime, saveLastSeenTime, readFile_state, writeFile_state.
  latches_steps.
Qed.

Lemma save_latches ts : respects latches (saveLastSeenTime ts).
Proof. unfold saveLastSeenTime, writeFile_state. latches_steps. Qed.

Lemma getter_latches senv : respects latches (fetchNotionDatabaseSchema senv).
Proof.
  unfold fetchNotionDatabaseSchema, readFile_cache, writeFile_cache, fetch_json, console.
  latches_steps.
Qed.

Lemma page_latches env l s : respects latches (createNotionPage env l s).
Proof.
  unfold createNotionPage, generatePropertyMapping, fetch_json, console. latches_steps.
Qed.

Lemma for_of_latches envs s lifelogs :
  forall i locals, respects latches (for_of envs s i lifelogs locals).
Proof.
  induction lifelogs as [|l rest IH]; intros i locals; cbn [for_of].
  - apply (respects_ret _ latches_refl).
  - apply (respects_bind _ latches_trans); [| intros ?; apply IH].
    pose proof (page_latches (envs i) l s) as Hpage.
    unfold process_lifelog, console. destruct locals as [m n]. latches_steps.
Qed.

Lemma cycle_latches env s : respects latches (processNewLifelogs env s).
Proof.
  pose proof (for_of_latches (pages env) s) as Hloop.
  pose proof load_latches as Hload. pose proof save_latches as Hsave.
  pose proof (@fetch_latches lifelog) as Hfetch.
  unfold processNewLifelogs, console. latches_steps.
Qed.

Lemma ticks_latches s envs : respects latches (ticks s envs).
Proof.
  induction envs as [|env rest IH]; cbn [ticks].
  - apply (respects_ret _ latches_refl).
  - apply (respects_bind _ latches_trans); [apply cycle_latches | intros ?; exact IH].
Qed.

Lemma run_latches senv first later w : latches w (snd (startPolling senv first later w)).
Proof.
  unfold startPolling. rewrite announced_run.
  pose proof (getter_latches senv (announced w)) as Hgetter.
  assert (Hannounced : latches w (announced w))
    by (apply latches_add_events; reflexivity).
  destruct (fetchNotionDatabaseSchema senv (announced w)) as [[s|e] w1]; cbn [snd] in Hgetter.
  - assert (Hrun : respects latches
                     (console log (SchemaLoaded (length s)) ;;
                      processNewLifelogs first s ;; ticks s later)).
    { apply (respects_bind _ latches_trans); [apply latches_emit; reflexivity | intros ?].
      apply (respects_bind _ latches_trans); [apply cycle_latches | intros ?].
      apply ticks_latches. }
    specialize (Hrun w1).
    destruct ((console log (SchemaLoaded (length s)) ;;
               processNewLifelogs first s ;; ticks s later) w1) as [[u|e] w2];
      cbn [snd] in *.
    + eapply latches_trans; [exact Hannounced |]. eapply latches_trans; eassumption.
    + eapply latches_trans; [exact Hannounced |]. eapply latches_trans; [exact Hgetter |].
      eapply latches_trans; [exact Hrun |]. apply (latches_add_events [_]); reflexivity.
  - cbn [snd]. eapply latches_trans; [exact Hannounced |].
    eapply latches_trans; [exact Hgetter |].
    rewrite !add_event_events, add_events_app. apply latches_add_events; reflexivity.
Qed.

(** X15 (one-time diagnostics): over a whole run of the service, from the
    start of [startPolling] through any number of cycles, the line
    ['Limitless API response structure'] is written at most once, and so
    is the warning ['Unexpected API response structure']; each is written
    only together with setting its flag, and a flag that is set stays
    set. *)
Theorem structure_lines_at_most_once (senv : schema_env) (first : cycle_env)
    (later : list cycle_env) (w : world) :
  let w' := snd (startPolling senv first later w) in
  (_limitlessApiResponseLogged w = false ->
   _limitlessApiResponseLogged w' = false /\
   lines_logged is_response_structure (trace w')
     = lines_logged is_response_structure (trace w) \/
   _limitlessApiResponseLogged w' = true /\
   lines_logged is_response_structure (trace w')
     = S (lines_logged is_response_structure (trace w))) /\
  (_limitlessApiWarningShown w = false ->
   _limitlessApiWarningShown w' = false /\
   lines_logged is_unexpected_structure (trace w')
     = lines_logged is_unexpected_structure (trace w) \/
   _limitlessApiWarningShown w' = true /\
   lines_logged is_unexpected_structure (trace w')
     = S (lines_logged is_unexpected_structure (trace w))) /\
  (_limitlessApiResponseLogged w = true ->
   _limitlessApiResponseLogged w' = true /\
   lines_logged is_response_structure (trace w')
     = lines_logged is_response_structure (trace w)) /\
  (_limitlessApiWarningShown w = true ->
   _limitlessApiWarningShown w' = true /\
   lines_logged is_unexpected_structure (trace w')
     = lines_logged is_unexpected_structure (trace w)).
Proof.
  cbv zeta. destruct (run_latches senv first later w) as [Hlogged Hshown].
  unfold latched in Hlogged, Hshown.
  split; [| split; [| split]].
  - intros Hflag. now rewrite Hflag in Hlogged.
  - intros Hflag. now rewrite Hflag in Hshown.
  - intros Hflag. now rewrite Hflag in Hlogged.
  - intros Hflag. now rewrite Hflag in Hshown.
Qed.

(** ** Everything fetched is posted *)

Lemma cycle_posts_fetched env s w loaded :
  fst (loadLastSeenTime (now env) w) = Ok loaded ->
  posted (trace (snd (processNewLifelogs env s w))) = posted (trace w) ++ fetched env.
Proof.
  intros Hload. destruct (load_frame (now env) w) as [_ Hposted].
  unfold fetched. rewrite cycle_run.
  destruct (loadLastSeenTime (now env) w) as [r w0]. cbn [fst snd] in *. subst r.
  destruct (after_fetch_quiet env loaded w0) as (_ & _ & _ & Hp).
  destruct (batch_of (lifelogs_response env)) as [[|l rest]|].
  - cbn [snd trace add_events]. rewrite posted_app, Hp, Hposted. reflexivity.
  - cbv zeta.
    destruct (after_loop_frame env s loaded (l :: rest) w0) as (_ & _ & _ & Hp3).
    destruct (succeeded _ _ _) as [|l' written'].
    + cbn [snd trace add_events]. rewrite posted_app, Hp3, Hposted. cbn.
      now rewrite app_nil_r.
    + destruct (state_write _); cbn [snd trace add_events set_state_file];
        rewrite !posted_app, Hp3, Hposted; cbn; now rewrite ?app_nil_r.
  - cbn [snd trace add_events]. rewrite posted_app, Hp, Hposted. reflexivity.
Qed.

(** X16 (no filtering of the batch): a cycle whose load returns posts
    every record its fetch brings, in order and once each, whatever their
    timestamps and whatever was posted before; so over any sequence of
    cycles that starts with a watermark in the state file, the pages
    posted are the batches of the cycles one after the other: a record
    that is fetched again is posted again. *)
Theorem every_fetched_record_is_posted (s : Schema) :
  (forall env w loaded,
     fst (loadLastSeenTime (now env) w) = Ok loaded ->
     posted (trace (snd (processNewLifelogs env s w))) = posted (trace w) ++ fetched env) /\
  (forall envs w v,
     persisted w = Some v ->
     posted (trace (snd (ticks s envs w))) = posted (trace w) ++ concat (map fetched envs)).
Proof.
  split; [intros env w loaded; apply cycle_posts_fetched |].
  induction envs as [|env rest IH]; intros w v Hv.
  - cbn. now rewrite app_nil_r.
  - rewrite ticks_cons.
    destruct (cycle_keeps_watermark env s w v Hv) as (v' & Hv' & _).
    rewrite (IH _ v' Hv').
    rewrite (cycle_posts_fetched env s w v (load_returns_persisted (now env) v w Hv)).
    cbn [map concat]. now rewrite app_assoc.
Qed.

(** ** Failures of the mapper *)

(** X17 (failures of the mapper): without a client,
    [generatePropertyMapping] throws ['OpenAI client not initialized']
    before its own [try]: nothing is sent and it logs nothing; with a
    client, a rejected completion and a content that does not parse are
    each logged as ['Error generating AI property mapping'] and thrown
    again; and a throw of the mapper never reaches the caller of
    [createNotionPage], whose result depends on the POST alone. *)
Theorem mapper_failures (env : page_env) (l : lifelog) (s : Schema) (w : world) :
  (openai env = false ->
   generatePropertyMapping env l s w = (Throw (Error "OpenAI client not initialized"), w)) /\
  (forall e,
     openai env = true ->
     mapper env = Failed e \/ (mapper env = Content Malformed /\ e = SyntaxError) ->
     generatePropertyMapping env l s w =
       (Throw e,
        add_events [Completion l s; Console error (ErrorGeneratingMapping (message e))] w)) /\
  (forall p,
     openai env = true -> mapper env = Content (Json p) ->
     generatePropertyMapping env l s w = (Ok p, add_events [Completion l s] w)) /\
  fst (createNotionPage env l s w) =
    (if accepted env then Ok tt else Throw (page_error env)).
Proof.
  split; [| split; [| split]].
  - intros Hclient. unfold generatePropertyMapping. now rewrite Hclient.
  - intros e Hclient Hfail. rewrite mapping_only_emits.
    unfold generatePropertyMapping. rewrite Hclient.
    destruct Hfail as [-> | [-> ->]]; reflexivity.
  - intros p Hclient Hparsed. rewrite mapping_only_emits.
    unfold generatePropertyMapping. rewrite Hclient, Hparsed. reflexivity.
  - now rewrite page_run.
Qed.

(** ** The console lines of the loop *)

Lemma fetch_outside_loop {A} (r : http (json A)) start :
  respects (emits outside_loop) (fetchStarredLifelogs r start).
Proof.
  unfold fetchStarredLifelogs, fetch_json, console.
  respects_with (emits_refl outside_loop) (emits_trans outside_loop)
    ltac:(solve [ apply emits_emit; exact I | apply emits_update; reflexivity ]).
Qed.

Lemma outside_loop_lines is_line evs :
  (forall lvl ln, is_line lvl ln = true -> ~ outside_loop (Console lvl ln)) ->
  Forall outside_loop evs -> lines_logged is_line evs = 0%nat.
Proof.
  intros Hline. induction 1 as [|e evs He _ IH]; [reflexivity |].
  change (e :: evs) with ([e] ++ evs). rewrite lines_logged_app, IH, Nat.add_0_r.
  destruct e as [| | | | | | |lvl ln]; try reflexivity.
  unfold lines_logged. cbn [List.filter].
  destruct (is_line lvl ln) eqn:Hl; [| reflexivity].
  now destruct (Hline lvl ln Hl).
Qed.

Lemma is_processing_loop lvl ln : is_processing lvl ln = true -> ~ outside_loop (Console lvl ln).
Proof. destruct lvl, ln; cbn; intros H; try discriminate H; tauto. Qed.

Lemma is_created_loop lvl ln : is_created lvl ln = true -> ~ outside_loop (Console lvl ln).
Proof. destruct lvl, ln; cbn; intros H; try discriminate H; tauto. Qed.

Lemma is_failed_loop lvl ln :
  is_failed_to_create lvl ln = true -> ~ outside_loop (Console lvl ln).
Proof. destruct lvl, ln; cbn; intros H; try discriminate H; tauto. Qed.

Lemma page_outside_loop env s l : Forall outside_loop (page_events env s l).
Proof. unfold page_events. page_cases env; repeat constructor. Qed.

Lemma lifelog_events_lines env s l :
  lines_logged is_processing (lifelog_events env s l) = 1%nat /\
  lines_logged is_created (lifelog_events env s l) = (if accepted env then 1 else 0)%nat /\
  lines_logged is_failed_to_create (lifelog_events env s l)
    = (if accepted env then 0 else 1)%nat.
Proof.
  unfold lifelog_events. cbv zeta. rewrite !lines_logged_app.
  rewrite (outside_loop_lines _ _ is_processing_loop (page_outside_loop env s l)).
  rewrite (outside_loop_lines _ _ is_created_loop (page_outside_loop env s l)).
  rewrite (outside_loop_lines _ _ is_failed_loop (page_outside_loop env s l)).
  destruct (accepted env); auto.
Qed.

Lemma loop_events_lines envs s ls : forall i,
  lines_logged is_processing (loop_events envs s i ls) = length ls /\
  lines_logged is_created (loop_events envs s i ls) = length (succeeded envs i ls) /\
  (lines_logged is_failed_to_create (loop_events envs s i ls)
   + length (succeeded envs i ls))%nat = length ls.
Proof.
  induction ls as [|l rest IH]; intros i; cbn [loop_events succeeded]; [auto |].
  destruct (IH (S i)) as (Hp & Hc & Hf).
  destruct (lifelog_events_lines (envs i) s l) as (Hp1 & Hc1 & Hf1).
  rewrite !lines_logged_app, Hp, Hc, Hp1, Hc1, Hf1, length_app.
  destruct (accepted (envs i)); cbn [length]; repeat split; lia.
Qed.

(** The effects of a cycle whose load returns: those of the loop over the
    fetched batch, between effects that are no line of the loop. *)
Lemma cycle_trace_loop env s w loaded :
  fst (loadLastSeenTime (now env) w) = Ok loaded ->
  exists evs1 evs2,
    trace (snd (processNewLifelogs env s w)) =
      trace w ++ evs1 ++ loop_events (pages env) s 0 (fetched env) ++ evs2 /\
    Forall outside_loop evs1 /\ Forall outside_loop evs2.
Proof.
  intros Hload.
  destruct (load_emits_any outside_loop (now env) I (fun _ => I) w) as (el & Hel & Hall).
  unfold fetched. rewrite cycle_run.
  destruct (loadLastSeenTime (now env) w) as [r w0]. cbn [fst snd] in *. subst r.
  destruct (fetch_outside_loop (lifelogs_response env) loaded
              (add_events [Console log (PollingSince loaded)] w0)) as (ef & Hef & Hallf).
  fold (after_fetch env loaded w0) in Hef.
  cbn [trace add_events] in Hef. rewrite Hel, <- !app_assoc in Hef.
  assert (Hbefore : Forall outside_loop (el ++ [Console log (PollingSince loaded)] ++ ef)).
  { apply Forall_app. split; [exact Hall |]. apply Forall_app. split; [| exact Hallf].
    repeat constructor. }
  destruct (batch_of (lifelogs_response env)) as [[|l rest]|].
  - exists (el ++ [Console log (PollingSince loaded)] ++ ef), [Console log NoNewLifelogs].
    cbn [snd trace add_events loop_events app]. 
    split; [rewrite Hef, <- !app_assoc; reflexivity |].
    split; [exact Hbefore | repeat constructor].
  - cbv zeta.
    assert (Htrace3 : trace (after_loop env s loaded (l :: rest) w0) =
                      trace w ++ ((el ++ [Console log (PollingSince loaded)] ++ ef)
                                  ++ [Console log (Found (length (l :: rest)))])
                      ++ loop_events (pages env) s 0 (l :: rest)).
    { unfold after_loop. cbn [trace add_events]. rewrite Hef, <- !app_assoc. reflexivity. }
    assert (Hbefore3 : Forall outside_loop
                         ((el ++ [Console log (PollingSince loaded)] ++ ef)
                          ++ [Console log (Found (length (l :: rest)))])).
    { apply Forall_app. split; [exact Hbefore | repeat constructor]. }
    set (w3 := after_loop env s loaded (l :: rest) w0) in *.
    exists ((el ++ [Console log (PollingSince loaded)] ++ ef)
            ++ [Console log (Found (length (l :: rest)))]).
    destruct (succeeded (pages env) 0 (l :: rest)) as [|l' written'].
    + exists [Console warn (NoneProcessed (length (l :: rest)))].
      cbn [snd trace add_events]. 
      split; [rewrite Htrace3, <- !app_assoc; reflexivity |].
      split; [exact Hbefore3 | repeat constructor].
    + set (m := fold_left advance (l' :: written') loaded).
      destruct (state_write w3) as [e|].
      * exists [WriteState {| lastSeenTime := Some m |};
                Console error (ErrorProcessing (message e))].
        cbn [snd trace add_events]. 
        split; [rewrite Htrace3, <- !app_assoc; reflexivity |].
        split; [exact Hbefore3 | repeat constructor].
      * exists [WriteState {| lastSeenTime := Some m |}; Console log (UpdatedLastSeen m)].
        cbn [snd trace add_events set_state_file]. 
        split; [rewrite Htrace3, <- !app_assoc; reflexivity |].
        split; [exact Hbefore3 | repeat constructor].
  - exists (el ++ [Console log (PollingSince loaded)] ++ ef),
           [Console error (ErrorFetchingLifelogs
                             (message (fetch_error (lifelogs_response env))))].
    cbn [snd trace add_events loop_events app]. 
    split; [rewrite Hef, <- !app_assoc; reflexivity |].
    split; [exact Hbefore | repeat constructor].
Qed.

(** X18 (the lines of the loop): a cycle whose load returns writes one
    ['Processing lifelog'] line for every record it fetched, one ['Created
    Notion page'] line for every record whose page creation returned and
    one ['Failed to create Notion page'] line for every other record, so
    one outcome line per record, whatever else it logs. *)
Theorem one_outcome_line_per_record (env : cycle_env) (s : Schema) (w : world)
    (loaded : string) :
  fst (loadLastSeenTime (now env) w) = Ok loaded ->
  let w' := snd (processNewLifelogs env s w) in
  let written := succeeded (pages env) 0 (fetched env) in
  lines_logged is_processing (trace w')
    = (lines_logged is_processing (trace w) + length (fetched env))%nat /\
  lines_logged is_created (trace w')
    = (lines_logged is_created (trace w) + length written)%nat /\
  (lines_logged is_failed_to_create (trace w') + length written)%nat
    = (lines_logged is_failed_to_create (trace w) + length (fetched env))%nat.
Proof.
  intros Hload. cbv zeta.
  destruct (cycle_trace_loop env s w loaded Hload) as (evs1 & evs2 & Htrace & H1 & H2).
  destruct (loop_events_lines (pages env) s (fetched env) 0) as (Hp & Hc & Hf).
  rewrite Htrace, !lines_logged_app, Hp, Hc.
  rewrite (outside_loop_lines _ _ is_processing_loop H1),
    (outside_loop_lines _ _ is_processing_loop H2),
    (outside_loop_lines _ _ is_created_loop H1),
    (outside_loop_lines _ _ is_created_loop H2),
    (outside_loop_lines _ _ is_failed_loop H1),
    (outside_loop_lines _ _ is_failed_loop H2).
  repeat split; lia.
Qed.

(** ** The title in the log and the title of the page *)


(** ** Timestamps that do not move the watermark *)

Lemma succeeded_subset envs ls : forall i g, In g (succeeded envs i ls) -> In g ls.
Proof.
  induction ls as [|l rest IH]; intros i g Hin; cbn [succeeded] in Hin; [destruct Hin |].
  apply in_app_or in Hin. destruct Hin as [Hin | Hin].
  - destruct (accepted (envs i)); [| destruct Hin].
    destruct Hin as [<- | []]. now left.
  - right. now apply (IH (S i)).
Qed.

Lemma effective_source (written : list lifelog) t :
  In t (omap effective written) -> exists g, In g written /\ effective g = Some t.
Proof.
  induction written as [|l rest IH]; cbn [omap list_omap]; [intros [] |].
  destruct (effective l) as [tl|] eqn:Hl.
  - intros [<- | Hin]; [exists l; split; [now left | exact Hl] |].
    destruct (IH Hin) as (g & Hg & Heff). exists g. split; [now right | exact Heff].
  - intros Hin. destruct (IH Hin) as (g & Hg & Heff). exists g. split; [now right | exact Heff].
Qed.

(** X20 (no later record): when records of the batch are written but none
    of the batch has an effective timestamp above the loaded watermark
    (equal ones included), and the disk takes the write, the cycle writes
    the loaded watermark back: the state file holds what was loaded, and
    the next cycle requests lifelogs from the same watermark again. *)
Theorem watermark_stays_without_later_record (env next : cycle_env) (s : Schema)
    (w : world) (loaded : string) (lifelogs : list lifelog) :
  fst (loadLastSeenTime (now env) w) = Ok loaded ->
  fst (fetchStarredLifelogs (lifelogs_response env) loaded w) = Ok lifelogs ->
  succeeded (pages env) 0 lifelogs <> [] ->
  (forall l t, In l lifelogs -> effective l = Some t -> ts_le t loaded) ->
  state_write w = None ->
  loaded <> "" ->
  let w' := snd (processNewLifelogs env s w) in
  state_file w' = Stored (Json {| lastSeenTime := Some loaded |}) /\
  posted (trace w') = posted (trace w) ++ lifelogs /\
  requests (trace (snd (processNewLifelogs next s w'))) = requests (trace w') ++ [loaded].
Proof.
  intros Hload Hfetch Hwritten Hearly Hwrite Hloaded. cbv zeta.
  assert (Hne : lifelogs <> []) by (intros ->; now apply Hwritten).
  destruct (cycle_over_batch env s w loaded lifelogs Hload Hfetch Hne)
    as (_ & Hposted & Hsome & _).
  destruct (Hsome Hwritten) as (m & [Hin Hmax] & _ & Hfile).
  specialize (Hfile Hwrite).
  assert (Hm : m = loaded).
  { destruct Hin as [<- | Hin]; [reflexivity |].
    destruct (effective_source _ m Hin) as (g & Hg & Heff).
    apply ts_le_antisym.
    - apply (Hearly g m); [| exact Heff]. now apply (succeeded_subset (pages env) lifelogs 0).
    - apply Hmax. now left. }
  subst m. split; [exact Hfile |]. split; [exact Hposted |].
  apply cycle_requests, load_returns_persisted.
  now apply persisted_stored.
Qed.

(** ** The order of timestamps *)

Lemma compare_prefix p a b : String.compare (p +:+ a) (p +:+ b) = String.compare a b.
Proof.
  induction p as [|c p IH]; [reflexivity |].
  simpl. unfold Ascii.compare. rewrite N.compare_refl. exact IH.
Qed.

(** X21 (timestamps are compared as strings): a timestamp that ends its
    seconds with [Z] is greater, for the loop, than every timestamp with
    the same digits followed by a fraction of a second; so a written
    record stamped to the second replaces a [maxTimestamp] of the same
    second that carries a fraction, whatever the fraction is. *)
Theorem whole_second_beats_fraction (p frac : string) (l : lifelog) :
  effective l = Some (p +:+ "Z") ->
  js_gt (p +:+ "Z") (p +:+ "." +:+ frac) = true /\
  advance (p +:+ "." +:+ frac) l = p +:+ "Z".
Proof.
  intros Heff.
  assert (Hgt : js_gt (p +:+ "Z") (p +:+ "." +:+ frac) = true).
  { unfold js_gt. now rewrite compare_prefix. }
  split; [exact Hgt |]. unfold advance. now rewrite Heff, Hgt.
Qed.

(** ** The further properties at sample inputs *)

(** X1 at a first save of [2025-01-01T00:00:05Z]. *)
Lemma saved_watermark_sample :
  fst (loadLastSeenTime "2025-01-01T00:00:30.000Z"
         (snd (saveLastSeenTime "2025-01-01T00:00:05Z" clean_start)))
    = Ok "2025-01-01T00:00:05Z".
Proof.
  destruct (saved_watermark_is_loaded "2025-01-01T00:00:05Z" "2025-01-01T00:00:30.000Z"
              clean_start) as (_ & _ & Hload); [reflexivity | discriminate |].
  now rewrite Hload.
Defined.

(** X2 at a first call that fetches the schema and a second one 750 ms
    later, with the destination out of reach. *)
Lemma cached_schema_sample :
  fst (fetchNotionDatabaseSchema offline_schema_env
         (snd (fetchNotionDatabaseSchema sample_schema_env clean_start)))
    = Ok schema_Name_Notes.
Proof.
  destruct (cached_schema_is_reused sample_schema_env offline_schema_env clean_start
              "200 OK" "" {| db_properties := Some schema_Name_Notes |})
    as (_ & Hreused & _); [exact I | reflexivity | reflexivity |].
  rewrite Hreused; [reflexivity | vm_compute; reflexivity].
Defined.

(** X3 at an old cache with the database request refused, and at a disk
    that refuses the cache write. *)
Lemma failed_schema_fetch_sample :
  cache_file (snd (fetchNotionDatabaseSchema failing_schema_env (with_cache 1699996400000)))
    = cache_file (with_cache 1699996400000) /\
  fst (fetchNotionDatabaseSchema sample_schema_env (read_only_disk "2025-01-01T00:00:01Z"))
    = Throw (fs_error "EROFS").
Proof.
  split.
  - destruct (failed_schema_fetch_keeps_cache failing_schema_env (with_cache 1699996400000))
      as [Hfailed _]; [vm_compute; reflexivity |].
    destruct Hfailed as (e & _ & Hfile & _); [discriminate | exact Hfile].
  - destruct (failed_schema_fetch_keeps_cache sample_schema_env
                (read_only_disk "2025-01-01T00:00:01Z")) as [_ Hrefused]; [exact I |].
    apply (Hrefused "200 OK" "" {| db_properties := Some schema_Name_Notes |}
             (fs_error "EROFS")); reflexivity.
Defined.

(** X4 at a first start whose database request is refused. *)
Lemma failed_start_sample :
  fst (startPolling failing_schema_env sample_cycle [refused_cycle] clean_start) = Exited 1 /\
  requests (trace (snd (startPolling failing_schema_env sample_cycle [refused_cycle]
                          clean_start))) = [].
Proof.
  destruct (failed_start_runs_no_cycle failing_schema_env sample_cycle [refused_cycle]
              clean_start (Error "Notion API error: 401 Unauthorized - unauthorized"))
    as (Hexit & _ & Hrequests & _); [reflexivity |].
  split; [exact Hexit | exact Hrequests].
Defined.

(** X5 at a state file that does not parse, over two cycles. *)
Lemma unusable_state_sample :
  posted (trace (snd (ticks schema_Name_Notes [sample_cycle; refused_cycle] corrupt_state)))
    = [] /\
  state_file (snd (processNewLifelogs sample_cycle schema_Name_Notes corrupt_state))
    = Stored Malformed.
Proof.
  destruct (unusable_state_stalls_sync schema_Name_Notes) as [Hcycle Hrun]. split.
  - destruct (Hrun [sample_cycle; refused_cycle] corrupt_state) as (evs & Hw & _ & Hp & _);
      [left; reflexivity |].
    rewrite Hw. cbn [trace add_events corrupt_state]. exact Hp.
  - rewrite (Hcycle sample_cycle corrupt_state SyntaxError); reflexivity.
Defined.

(** X6 at [empty_cycle] with a stored watermark. *)
Lemma empty_batch_sample :
  last (trace (snd (processNewLifelogs empty_cycle schema_Name_Notes
                      (with_watermark "2025-01-01T00:00:01Z"))))
    = Some (Console log NoNewLifelogs) /\
  posted (trace (snd (processNewLifelogs empty_cycle schema_Name_Notes
                        (with_watermark "2025-01-01T00:00:01Z")))) = [].
Proof.
  destruct (empty_batch_is_no_op empty_cycle schema_Name_Notes
              (with_watermark "2025-01-01T00:00:01Z") "2025-01-01T00:00:01Z")
    as (_ & Hlast & _ & _ & Hposted & _); [reflexivity | reflexivity |].
  split; [exact Hlast | exact Hposted].
Defined.

(** X7 at [sample_cycle] with a stored watermark, and at a first start. *)
Lemma cycle_requests_sample :
  requests (trace (snd (processNewLifelogs sample_cycle schema_Name_Notes
                          (with_watermark "2025-01-01T00:00:01Z"))))
    = ["2025-01-01T00:00:01Z"] /\
  requests (trace (snd (processNewLifelogs sample_cycle schema_Name_Notes clean_start)))
    = ["2025-01-01T00:00:00.000Z"] /\
  requests (trace (snd (processNewLifelogs sample_cycle schema_Name_Notes corrupt_state)))
    = [].
Proof.
  split; [| split].
  - apply (proj1 (proj2 (cycle_requests_from_watermark sample_cycle schema_Name_Notes
                           (with_watermark "2025-01-01T00:00:01Z")))).
    reflexivity.
  - apply (proj1 (cycle_requests_from_watermark sample_cycle schema_Name_Notes clean_start)).
    reflexivity.
  - apply (proj2 (proj2 (proj2 (cycle_requests_from_watermark sample_cycle schema_Name_Notes
                                  corrupt_state))) SyntaxError).
    reflexivity.
Defined.

(** X8 at [refused_cycle] followed by [sample_cycle]. *)
Lemma stalled_cycle_sample :
  requests (trace (snd (processNewLifelogs sample_cycle schema_Name_Notes
                          (snd (processNewLifelogs refused_cycle schema_Name_Notes
                                  (with_watermark "2025-01-01T00:00:01Z"))))))
    = ["2025-01-01T00:00:01Z"; "2025-01-01T00:00:01Z"].
Proof.
  destruct (stalled_cycle_repeats_request refused_cycle sample_cycle schema_Name_Notes
              (with_watermark "2025-01-01T00:00:01Z") "2025-01-01T00:00:01Z")
    as (_ & _ & _ & Hrequests); [reflexivity | reflexivity |].
  exact Hrequests.
Defined.

(** X9 at [late_success_cycle]: [record_X] of 00:00:05 is refused,
    [record_late] of 00:00:09 is written. *)
Lemma watermark_passes_sample :
  exists m,
    persisted (snd (processNewLifelogs late_success_cycle schema_Name_Notes
                      (with_watermark "2025-01-01T00:00:01Z"))) = Some m /\
    js_gt m "2025-01-01T00:00:05Z" = true.
Proof.
  destruct (watermark_passes_refused_record late_success_cycle empty_cycle schema_Name_Notes
              (with_watermark "2025-01-01T00:00:01Z") "2025-01-01T00:00:01Z" sample_batch
              0 2 record_X record_late "2025-01-01T00:00:05Z" "2025-01-01T00:00:09Z")
    as (m & Hm & Hgt & _); try reflexivity.
  exists m. split; [exact Hm | exact Hgt].
Defined.

(** X10 at a mapper that answers with a property the schema does not
    have. *)
Lemma page_off_schema_sample :
  map properties (pages_posted (page_events page_off_schema schema_Name_Notes record_X))
    = [{[ "Mood" := other_value "{select: {name: calm}}" ]}].
Proof.
  destruct (page_is_posted_once page_off_schema record_X schema_Name_Notes clean_start)
    as (_ & _ & _ & _ & Hverbatim & _).
  apply Hverbatim; reflexivity.
Defined.

(** X11 at [sample_cycle] on a disk that refuses writes. *)
Lemma refused_watermark_sample :
  posted (trace (snd (processNewLifelogs sample_cycle schema_Name_Notes
                        (read_only_disk "2025-01-01T00:00:01Z")))) = sample_batch /\
  persisted (snd (processNewLifelogs sample_cycle schema_Name_Notes
                    (read_only_disk "2025-01-01T00:00:01Z"))) = Some "2025-01-01T00:00:01Z".
Proof.
  destruct (refused_watermark_write sample_cycle empty_cycle schema_Name_Notes
              (read_only_disk "2025-01-01T00:00:01Z") "2025-01-01T00:00:01Z" sample_batch
              (fs_error "EROFS"))
    as (_ & Hposted & Hfile & _);
    [reflexivity | reflexivity | vm_compute; discriminate | reflexivity |].
  split; [exact Hposted |].
  now rewrite (persisted_same_file _ _ Hfile).
Defined.

(** X12 at [sample_cycle] followed by [refused_cycle]. *)
Lemma requests_sample :
  exists starts,
    requests (trace (snd (ticks schema_Name_Notes [sample_cycle; refused_cycle]
                            (with_watermark "2025-01-01T00:00:01Z")))) = starts /\
    length starts = 2%nat /\
    StronglySorted ts_le starts.
Proof.
  destruct (requests_never_go_back schema_Name_Notes [sample_cycle; refused_cycle]
              (with_watermark "2025-01-01T00:00:01Z") "2025-01-01T00:00:01Z")
    as (starts & Hrequests & Hlength & _ & Hsorted); [reflexivity |].
  exists starts. split; [exact Hrequests |]. split; [exact Hlength | exact Hsorted].
Defined.

(** X13 at a cache without a timestamp, and at a database without
    properties. *)
Lemma getter_edge_sample :
  (exists rest,
     trace (snd (fetchNotionDatabaseSchema sample_schema_env cache_without_timestamp))
       = [ReadFile SCHEMA_CACHE_FILE; GetDatabase] ++ rest) /\
  fst (fetchNotionDatabaseSchema bare_database_env clean_start) = Ok [].
Proof.
  split.
  - apply (proj1 (getter_edge_cases sample_schema_env cache_without_timestamp)
             {| schema := schema_Name_Notes; timestamp := None |}); reflexivity.
  - apply (proj2 (getter_edge_cases bare_database_env clean_start)
             "200 OK" "" {| db_properties := None |});
      [exact I | reflexivity | reflexivity | reflexivity].
Defined.

(** X14 at a configuration without the OpenAI key, and at a complete
    one. *)
Lemma configuration_sample :
  main vars_without_openai sample_schema_env sample_cycle [refused_cycle] clean_start
    = ConfigError "OPENAI_API_KEY" /\
  maps_what_it_posts clean_start
    (snd (startPolling sample_schema_env (with_client true sample_cycle)
            (map (with_client true) [refused_cycle]) clean_start)).
Proof.
  split.
  - apply (configuration_is_required vars_without_openai sample_schema_env sample_cycle
             [refused_cycle] clean_start); reflexivity.
  - apply (proj2 (proj2 (proj2 (proj2
             (configuration_is_required sample_vars sample_schema_env sample_cycle
                [refused_cycle] clean_start))))
             (startPolling sample_schema_env (with_client true sample_cycle)
                (map (with_client true) [refused_cycle]) clean_start)).
    reflexivity.
Defined.

(** X15 at a first start followed by two cycles. *)
Lemma structure_lines_sample :
  (lines_logged is_response_structure
     (trace (snd (startPolling sample_schema_env sample_cycle [refused_cycle; empty_cycle]
                    clean_start))) <= 1)%nat.
Proof.
  destruct (structure_lines_at_most_once sample_schema_env sample_cycle
              [refused_cycle; empty_cycle] clean_start) as (Hlogged & _).
  destruct Hlogged as [[_ Hlines] | [_ Hlines]]; [reflexivity | |]; rewrite Hlines; cbn; lia.
Defined.

(** X16 at [sample_cycle] followed by [refused_cycle], which brings the
    same three records again. *)
Lemma fetched_twice_sample :
  posted (trace (snd (ticks schema_Name_Notes [sample_cycle; refused_cycle]
                        (with_watermark "2025-01-01T00:00:01Z"))))
    = sample_batch ++ sample_batch.
Proof.
  destruct (every_fetched_record_is_posted schema_Name_Notes) as [_ Hrun].
  now rewrite (Hrun [sample_cycle; refused_cycle] (with_watermark "2025-01-01T00:00:01Z")
                 "2025-01-01T00:00:01Z" eq_refl).
Defined.

(** X17 at a mapper whose completion is rejected. *)
Lemma mapper_failure_sample :
  generatePropertyMapping page_taken record_X schema_Name_Notes clean_start =
    (Throw (Error "timeout"),
     add_events [Completion record_X schema_Name_Notes;
                 Console error (ErrorGeneratingMapping "timeout")] clean_start).
Proof.
  apply (proj1 (proj2 (mapper_failures page_taken record_X schema_Name_Notes clean_start))
           (Error "timeout")); [reflexivity | left; reflexivity].
Defined.

(** X18 at [sample_cycle]: three records, two of them written. *)
Lemma outcome_lines_sample :
  lines_logged is_processing
    (trace (snd (processNewLifelogs sample_cycle schema_Name_Notes
                   (with_watermark "2025-01-01T00:00:01Z")))) = 3%nat /\
  lines_logged is_created
    (trace (snd (processNewLifelogs sample_cycle schema_Name_Notes
                   (with_watermark "2025-01-01T00:00:01Z")))) = 2%nat.
Proof.
  destruct (one_outcome_line_per_record sample_cycle schema_Name_Notes
              (with_watermark "2025-01-01T00:00:01Z") "2025-01-01T00:00:01Z")
    as (Hprocessing & Hcreated & _); [reflexivity |].
  split; [exact Hprocessing | exact Hcreated].
Defined.


(** X20 at [sample_cycle] with the watermark of its latest record. *)
Lemma watermark_stays_sample :
  state_file (snd (processNewLifelogs sample_cycle schema_Name_Notes
                     (with_watermark "2025-01-01T00:00:09Z")))
    = Stored (Json {| lastSeenTime := Some "2025-01-01T00:00:09Z" |}).
Proof.
  destruct (watermark_stays_without_later_record sample_cycle empty_cycle schema_Name_Notes
              (with_watermark "2025-01-01T00:00:09Z") "2025-01-01T00:00:09Z" sample_batch)
    as (Hfile & _);
    [reflexivity | reflexivity | vm_compute; discriminate | | reflexivity | discriminate
    | exact Hfile].
  intros l t Hin Heff.
  repeat (destruct Hin as [<- | Hin]; [vm_compute in Heff; try discriminate Heff;
                                       injection Heff as <-; reflexivity |]).
  destruct Hin.
Defined.

(** X21 at [record_X] of 00:00:05 and a watermark of 00:00:05.500. *)
Lemma whole_second_sample :
  advance "2025-01-01T00:00:05.500Z" record_X = "2025-01-01T00:00:05Z".
Proof.
  apply (proj2 (whole_second_beats_fraction "2025-01-01T00:00:05" "500Z" record_X eq_refl)).
Defined.
